(** * pygeo geometric constraints: thickness, thickness-to-chord, KS-max,
      trailing-edge slope and proximity

    A shallow embedding of [pygeo/constraints/thicknessConstraint.py].

    - numpy [float64] scalars are Rocq's primitive binary64 floats;
      [complex128] scalars are pairs of them.
    - An [(N, 3)] coordinate array is a [list (vec3 T)]; an [(nCon, N, 3)]
      Jacobian is a [list (list (vec3 float))].
    - Python dictionaries ([funcs], [funcsSens], the results of
      [DVGeo.totalSensitivity]) are [gmap string _].
    - A method is a computation in a state-and-exception monad.  The state
      holds the constraint object ([self]), the geometry engine, the list of
      calls made to the engine, and the text written to the Tecplot handle.
      A Python exception is the result [None]; the state reached when it was
      raised is kept.
    - The geometry engine [DVGeo], the helpers of [geo_utils] and the numpy
      routines whose implementation is not part of this file are the fields
      of the interfaces [DVGeoAPI], [GeoUtils] and [Numpy]. *)

From Stdlib Require Import ZArith Floats Ascii.
From stdpp Require Import base option list gmap strings pretty.

Set Default Proof Using "Type".

(** ** Points and arrays *)

Record vec3 (T : Type) : Type := V3 { vx : T; vy : T; vz : T }.
Arguments V3 {T} _ _ _.
Arguments vx {T} _.
Arguments vy {T} _.
Arguments vz {T} _.

Definition vmap {A B} (f : A → B) (p : vec3 A) : vec3 B :=
  V3 (f (vx p)) (f (vy p)) (f (vz p)).

Definition vzip {A B C} (f : A → B → C) (p : vec3 A) (q : vec3 B) : vec3 C :=
  V3 (f (vx p) (vx q)) (f (vy p) (vy q)) (f (vz p) (vz q)).

(** The three columns of a coordinate array, [range(coords.shape[1])]. *)
Inductive axis : Type := ax0 | ax1 | ax2.

Definition axes : list axis := [ax0; ax1; ax2].

Definition vget {T} (j : axis) (p : vec3 T) : T :=
  match j with ax0 => vx p | ax1 => vy p | ax2 => vz p end.

Definition vset {T} (j : axis) (v : T) (p : vec3 T) : vec3 T :=
  match j with
  | ax0 => V3 v (vy p) (vz p)
  | ax1 => V3 (vx p) v (vz p)
  | ax2 => V3 (vx p) (vy p) v
  end.

(** float64 vectors *)
Definition fzero : float := 0%float.
Definition fone : float := 1%float.
Definition ftwo : float := 2%float.

Definition vsub : vec3 float → vec3 float → vec3 float := vzip PrimFloat.sub.
Definition vadd : vec3 float → vec3 float → vec3 float := vzip PrimFloat.add.
Definition vneg : vec3 float → vec3 float := vmap PrimFloat.opp.
(** [v / s] and [v * s] with a scalar [s] *)
Definition vdivs (v : vec3 float) (s : float) : vec3 float :=
  vmap (λ x, PrimFloat.div x s) v.
Definition vmuls (v : vec3 float) (s : float) : vec3 float :=
  vmap (λ x, PrimFloat.mul x s) v.
Definition vzero : vec3 float := V3 fzero fzero fzero.

(** [np.zeros(n)], [np.zeros((n, 3))] and [np.zeros((n, m, 3))] *)
Definition zeros (n : nat) : list float := replicate n fzero.
Definition zeros2 (n : nat) : list (vec3 float) := replicate n vzero.
Definition zeros3 (n m : nat) : list (list (vec3 float)) := replicate n (zeros2 m).

(** [a[i] = v]: numpy raises [IndexError] out of range. *)
Definition set_item {A} (i : nat) (v : A) (a : list A) : option (list A) :=
  if decide (i < length a) then Some (<[i:=v]> a) else None.

(** [a[i, p, :] = v] on an [(n, m, 3)] array *)
Definition set_item2 {A} (i p : nat) (v : A) (a : list (list A)) : option (list (list A)) :=
  row ← a !! i; row' ← set_item p v row; set_item i row' a.

(** ** Loops *)

(** [for x in l: s = body(x, s)], stopping at the first exception *)
Fixpoint for_each {A S} (body : A → S → option S) (l : list A) (s : S) : option S :=
  match l with
  | [] => Some s
  | a :: l' => s' ← body a s; for_each body l' s'
  end.

(** [for i in range(n)] *)
Definition for_range {S} (n : nat) (body : nat → S → option S) (s : S) : option S :=
  for_each body (seq 0 n) s.

(** ** The state-and-exception monad *)

Definition M (S A : Type) : Type := S → S * option A.

Definition ret {S A} (a : A) : M S A := λ s, (s, Some a).
Definition raise {S A} : M S A := λ s, (s, None).
Definition bind {S A B} (m : M S A) (k : A → M S B) : M S B :=
  λ s, match m s with
       | (s', Some a) => k a s'
       | (s', None) => (s', None)
       end.
Definition gets {S A} (f : S → A) : M S A := λ s, (s, Some (f s)).
Definition modify {S} (f : S → S) : M S unit := λ s, (f s, Some tt).
(** a pure computation that may raise *)
Definition lift_opt {S A} (o : option A) : M S A := λ s, (s, o).

Notation "'let!' x ':=' m 'in' k" := (bind m (λ x, k))
  (at level 10, x pattern, m at level 100, k at level 200).
Notation "m '>>' k" := (bind m (λ _, k))
  (at level 100, k at level 200, right associativity, only parsing).

(** [for x in l: body(x)] with effects on the state *)
Fixpoint for_eachM {S A} (body : A → M S unit) (l : list A) : M S unit :=
  match l with
  | [] => ret tt
  | a :: l' => body a >> for_eachM body l'
  end.

(** ** complex128 *)

Record complex128 : Type := Cx { re : float; im : float }.

(** numpy adds and subtracts complex numbers component by component. *)
Definition cadd (a b : complex128) : complex128 :=
  Cx (re a + re b)%float (im a + im b)%float.
Definition csub (a b : complex128) : complex128 :=
  Cx (re a - re b)%float (im a - im b)%float.

(** [x.astype("D")] on one entry *)
Definition astypeD (x : float) : complex128 := Cx x fzero.

(** [step_imag = 1e-40j] and [step_real = 1e-40]; the literal denotes the
    binary64 number nearest to 1e-40. *)
Definition step_real : float := 0x1.16c262777579cp-133%float.
Definition step_imag : complex128 := Cx fzero step_real.

(** The numpy routines whose implementation is taken as given. *)
Class Numpy : Type := {
  (** [np.linalg.norm(v)] of a vector of three float64 *)
  linalg_norm : vec3 float → float;
  (** [c**2] for a float64 scalar [c] *)
  float_pow2 : float → float;
  (** complex128 product, quotient and square root *)
  cmul : complex128 → complex128 → complex128;
  cdiv : complex128 → complex128 → complex128;
  csqrt : complex128 → complex128;
}.

(** Python's formatting of a float with [:f]. *)
Class PyFormat : Type := {
  fmt_f : float → string;
}.

(** The scalar type of an array, for code that runs on float64 and on
    complex128 arrays alike. *)
Class Dtype (T : Type) : Type := {
  t_add : T → T → T;
  t_sub : T → T → T;
  t_mul : T → T → T;
  t_div : T → T → T;
  t_sqrt : T → T;
  (** a float64 operand converted to [T] *)
  t_of_float : float → T;
  (** a value of [T] stored into a float64 array: for complex128 numpy keeps
      the real part *)
  t_to_float : T → float;
}.

#[export] Instance float64_dtype : Dtype float := {|
  t_add := PrimFloat.add;
  t_sub := PrimFloat.sub;
  t_mul := PrimFloat.mul;
  t_div := PrimFloat.div;
  t_sqrt := PrimFloat.sqrt;
  t_of_float := id;
  t_to_float := id;
|}.

#[export] Instance complex128_dtype `{Numpy} : Dtype complex128 := {|
  t_add := cadd;
  t_sub := csub;
  t_mul := cmul;
  t_div := cdiv;
  t_sqrt := csqrt;
  t_of_float := astypeD;
  t_to_float := re;
|}.

(** ** Slices and broadcasting *)

(** [a[::2]]; [a[1::2]] is [stride2 (tail a)]. *)
Fixpoint stride2 {A} (l : list A) : list A :=
  match l with
  | [] => []
  | [x] => [x]
  | x :: _ :: l' => x :: stride2 l'
  end.

(** [a[:-1]] *)
Definition but_last {A} (l : list A) : list A := take (length l - 1) l.

(** An elementwise operation on arrays of [n] and [m] rows: the shapes must
    agree, or one of them has a single row, which is repeated. *)
Definition broadcast2 {A B C} (f : A → B → C) (xs : list A) (ys : list B)
    : option (list C) :=
  if decide (length xs = length ys) then Some (zip_with f xs ys)
  else match xs, ys with
       | [x], _ => Some (map (f x) ys)
       | _, [y] => Some (map (λ x, f x y) xs)
       | _, _ => None
       end.

(** The value assigned to a slot of [n] rows: [n] rows, or one row that is
    repeated. *)
Definition broadcast_to {A} (n : nat) (xs : list A) : option (list A) :=
  if decide (length xs = n) then Some xs
  else match xs with
       | [x] => Some (replicate n x)
       | _ => None
       end.

(** [np.cumsum] *)
Fixpoint cumsum_from (acc : float) (l : list float) : list float :=
  match l with
  | [] => []
  | x :: l' => let s := (acc + x)%float in s :: cumsum_from s l'
  end.

Definition cumsum (l : list float) : list float :=
  match l with
  | [] => []
  | x :: l' => x :: cumsum_from x l'
  end.

(** ** External collaborators *)

(** Derivative seeds handed to [DVGeo.totalSensitivity]: an [(N, 3)] or an
    [(nCon, N, 3)] array. *)
Inductive Seed : Type :=
  | Seed2 (dIdpt : list (vec3 float))
  | Seed3 (dIdpt : list (list (vec3 float))).

(** The geometry-parameterization engine. *)
Class DVGeoAPI : Type := {
  DVGeo : Type;
  Config : Type;
  CompNames : Type;
  Kwargs : Type;
  (** a numpy array of sensitivities with respect to one design variable *)
  Sens : Type;
  (** [Sens + Sens] *)
  sens_add : Sens → Sens → Sens;
  dv_addPointSet :
    DVGeo → list (vec3 float) → string → CompNames → option Kwargs → DVGeo;
  dv_update : DVGeo → string → Config → DVGeo * list (vec3 float);
  dv_getNDV : DVGeo → Z;
  dv_totalSensitivity : DVGeo → Seed → string → Config → DVGeo * gmap string Sens;
}.

(** The helpers of [pygeo.geo_utils] the constraints call. *)
Class GeoUtils : Type := {
  (** [geo_utils.norm.euclideanNorm(v)] *)
  euclideanNorm : vec3 float → float;
  (** [geo_utils.eDist(a, b)], also reached as [geo_utils.norm.eDist] *)
  eDist : vec3 float → vec3 float → float;
  (** [geo_utils.eDist_b(a, b)]: the reverse-mode seeds of [eDist] *)
  eDist_b : vec3 float → vec3 float → vec3 float * vec3 float;
  (** [geo_utils.KSfunction.compute(g, rho, ksApproach)] *)
  KS_compute : list float → float → string → float;
  (** [geo_utils.KSfunction.derivatives(g, rho, ksApproach)] *)
  KS_derivatives : list float → float → string → list float * float;
}.

(** The calls a constraint makes to the engine, in order. *)
Inductive Call `{DVGeoAPI} : Type :=
  | CAddPointSet (pts : list (vec3 float)) (ptName : string)
                 (compNames : CompNames) (kwargs : option Kwargs)
  | CUpdate (ptName : string) (config : Config)
  | CGetNDV
  | CTotalSensitivity (dIdpt : Seed) (ptName : string) (config : Config).

(** What a constructor acts on: the engine, the calls made to it so far, and
    the lines written to the Tecplot file handle. *)
Record World `{DVGeoAPI} : Type := mkWorld {
  dvgeo : DVGeo;
  calls : list Call;
  file : list string;
}.
Arguments mkWorld {_} _ _ _.

(** What a method acts on: its object and the world. *)
Record Sys `{DVGeoAPI} (O : Type) : Type := mkSys {
  self : O;
  world : World;
}.
Arguments mkSys {_ O} _ _.
Arguments self {_ O} _.
Arguments world {_ O} _.

Section Collaborators.
Context `{DVGeoAPI}.

Definition DVGeo_addPointSet (pts : list (vec3 float)) (ptName : string)
    (compNames : CompNames) (kwargs : option Kwargs) : M World unit :=
  λ w, (mkWorld (dv_addPointSet (dvgeo w) pts ptName compNames kwargs)
                (calls w ++ [CAddPointSet pts ptName compNames kwargs])
                (file w),
        Some tt).

Definition DVGeo_update (ptName : string) (config : Config)
    : M World (list (vec3 float)) :=
  λ w, let '(g, pts) := dv_update (dvgeo w) ptName config in
       (mkWorld g (calls w ++ [CUpdate ptName config]) (file w), Some pts).

Definition DVGeo_getNDV : M World Z :=
  λ w, (mkWorld (dvgeo w) (calls w ++ [CGetNDV]) (file w),
        Some (dv_getNDV (dvgeo w))).

Definition DVGeo_totalSensitivity (dIdpt : Seed) (ptName : string)
    (config : Config) : M World (gmap string Sens) :=
  λ w, let '(g, d) := dv_totalSensitivity (dvgeo w) dIdpt ptName config in
       (mkWorld g (calls w ++ [CTotalSensitivity dIdpt ptName config]) (file w),
        Some d).

(** [handle.write(s)] *)
Definition handle_write (s : string) : M World unit :=
  λ w, (mkWorld (dvgeo w) (calls w) (file w ++ [s]), Some tt).

(** run a computation on the world from inside a method *)
Definition in_world {O A} (m : M World A) : M (Sys O) A :=
  λ s, let '(w, r) := m (world s) in (mkSys (self s) w, r).

(** [self.attr] and [self.attr = v] *)
Definition get_self {O A} (f : O → A) : M (Sys O) A := gets (λ s, f (self s)).
Definition set_self {O} (f : O → O) : M (Sys O) unit :=
  modify (λ s, mkSys (f (self s)) (world s)).
End Collaborators.

(** ** The base class *)

(** Modelled from the spec: [GeometricConstraint.__init__] of
    [baseConstraint.py] is not part of the listing; every subclass hands it
    the name, the number of constraints, the bounds, the scale, the engine
    and the [addToPyOpt] flag, which it keeps as attributes.  The engine is
    the one of the [World]. *)
Record GeometricConstraint : Type := mkBase {
  name : string;
  nCon : nat;
  lower : option float;
  upper : option float;
  scale : float;
  addToPyOpt : bool;
}.

(** The values a constraint stores in [funcs]. *)
Inductive FuncVal : Type :=
  | FArray (a : list float)
  | FScalar (x : float).

(** ** Tecplot lines *)

Definition nl : string := String "010"%char EmptyString.

Section Tecplot.
Context `{DVGeoAPI} `{PyFormat}.

(** ["Zone T=%s\n" % name] *)
Definition zone_line (name : string) : string := "Zone T=" +:+ name +:+ nl.

(** ["Nodes = %d, Elements = %d ZONETYPE=FELINESEG\n" % (n, e)] *)
Definition nodes_line (n e : Z) : string :=
  "Nodes = " +:+ pretty n +:+ ", Elements = " +:+ pretty e
  +:+ " ZONETYPE=FELINESEG" +:+ nl.

Definition datapacking_line : string := "DATAPACKING=POINT" +:+ nl.

(** [f"{p[0]:f} {p[1]:f} {p[2]:f}\n"] *)
Definition point_line (p : vec3 float) : string :=
  fmt_f (vx p) +:+ " " +:+ fmt_f (vy p) +:+ " " +:+ fmt_f (vz p) +:+ nl.

(** ["%d %d\n" % (2 * i + 1, 2 * i + 2)] *)
Definition conn_line (i : nat) : string :=
  pretty (2 * i + 1) +:+ " " +:+ pretty (2 * i + 2) +:+ nl.

(** [handle.write(s)] from inside a method *)
Definition write {O} (s : string) : M (Sys O) unit := in_world (handle_write s).

(** [for i in range(len(coords)): handle.write(<point i>)], reading the
    coordinate attribute [get] of the object at each turn *)
Definition write_points {O} (get : O → list (vec3 float)) (n : nat) : M (Sys O) unit :=
  for_eachM (λ i, let! c := get_self get in
                  let! p := lift_opt (c !! i) in
                  write (point_line p))
            (seq 0 n).

(** [for i in range(n): handle.write("%d %d\n" % (2 * i + 1, 2 * i + 2))] *)
Definition write_conn {O} (n : nat) : M (Sys O) unit :=
  for_eachM (λ i, write (conn_line i)) (seq 0 n).
End Tecplot.

(** ** ThicknessConstraint *)

Module ThicknessConstraint.
Section Defs.
Context `{DVGeoAPI} `{GeoUtils}.

Record t : Type := mk {
  base : GeometricConstraint;
  coords : list (vec3 float);
  scaled : bool;
  D0 : list float;
}.

Definition set_coords (c : list (vec3 float)) (o : t) : t :=
  mk (base o) c (scaled o) (D0 o).

(** the body of the loop of [__init__] *)
Definition init_body (coords : list (vec3 float)) (i : nat) (D0 : list float)
    : option (list float) :=
  p ← coords !! (2 * i); q ← coords !! (2 * i + 1);
  set_item i (euclideanNorm (vsub p q)) D0.

Definition init (name : string) (coords : list (vec3 float))
    (lower upper : option float) (scaled : bool) (scale : float)
    (addToPyOpt : bool) (compNames : CompNames) : M World t :=
  let base := mkBase name (length coords / 2) lower upper scale addToPyOpt in
  let! _ := DVGeo_addPointSet coords name compNames None in
  let! D0 := lift_opt (for_range (nCon base) (init_body coords) (zeros (nCon base))) in
  ret (mk base coords scaled D0).

(** the body of the loop of [evalFunctions] *)
Definition eval_body (o : t) (i : nat) (D : list float) : option (list float) :=
  p ← coords o !! (2 * i); q ← coords o !! (2 * i + 1);
  D ← set_item i (euclideanNorm (vsub p q)) D;
  if scaled o then
    d ← D !! i; d0 ← D0 o !! i; set_item i (d / d0)%float D
  else Some D.

Definition evalFunctions (funcs : gmap string FuncVal) (config : Config)
    : M (Sys t) (gmap string FuncVal) :=
  let! nm := get_self (λ o, name (base o)) in
  let! c := in_world (DVGeo_update nm config) in
  let! _ := set_self (set_coords c) in
  let! o := get_self id in
  let! D := lift_opt (for_range (nCon (base o)) (eval_body o) (zeros (nCon (base o)))) in
  ret (<[nm := FArray D]> funcs).

(** the body of the loop of [evalFunctionsSens] *)
Definition sens_body (o : t) (i : nat) (dTdPt : list (list (vec3 float)))
    : option (list (list (vec3 float))) :=
  p ← coords o !! (2 * i); q ← coords o !! (2 * i + 1);
  let '(p1b, p2b) := eDist_b p q in
  '(p1b, p2b) ← (if scaled o
                 then d0 ← D0 o !! i; Some (vdivs p1b d0, vdivs p2b d0)
                 else Some (p1b, p2b));
  dTdPt ← set_item2 i (2 * i) p1b dTdPt;
  set_item2 i (2 * i + 1) p2b dTdPt.

Definition evalFunctionsSens (funcsSens : gmap string (gmap string Sens))
    (config : Config) : M (Sys t) (gmap string (gmap string Sens)) :=
  let! nDV := in_world DVGeo_getNDV in
  if (0 <? nDV)%Z then
    let! o := get_self id in
    let! dTdPt := lift_opt (for_range (nCon (base o)) (sens_body o)
                              (zeros3 (nCon (base o)) (length (coords o)))) in
    let! d := in_world (DVGeo_totalSensitivity (Seed3 dTdPt) (name (base o)) config) in
    ret (<[name (base o) := d]> funcsSens)
  else ret funcsSens.

Definition writeTecplot `{PyFormat} : M (Sys t) unit :=
  let! nm := get_self (λ o, name (base o)) in
  let! _ := write (zone_line nm) in
  let! n := get_self (λ o, length (coords o)) in
  let! _ := write (nodes_line (Z.of_nat n) (Z.of_nat (n / 2))) in
  let! _ := write datapacking_line in
  let! _ := write_points coords n in
  write_conn (n / 2).
End Defs.
End ThicknessConstraint.


(** ** ProjectedThicknessConstraint *)

Module ProjectedThicknessConstraint.
Section Defs.
Context `{DVGeoAPI} `{GeoUtils}.

Record t : Type := mk {
  base : GeometricConstraint;
  coords : list (vec3 float);
  scaled : bool;
  D0 : list float;
  dir_vec : list (vec3 float);
}.

Definition set_coords (c : list (vec3 float)) (o : t) : t :=
  mk (base o) c (scaled o) (D0 o) (dir_vec o).

(** the body of the loop of [__init__], on [(D0, dir_vec)] *)
Definition init_body (coords : list (vec3 float)) (i : nat)
    (st : list float * list (vec3 float)) : option (list float * list (vec3 float)) :=
  let '(D0, dir_vec) := st in
  p ← coords !! (2 * i); q ← coords !! (2 * i + 1);
  let vec := vsub p q in
  D0 ← set_item i (euclideanNorm vec) D0;
  d0 ← D0 !! i;
  dir_vec ← set_item i (vdivs vec d0) dir_vec;
  Some (D0, dir_vec).

Definition init (name : string) (coords : list (vec3 float))
    (lower upper : option float) (scaled : bool) (scale : float)
    (addToPyOpt : bool) (compNames : CompNames) : M World t :=
  let base := mkBase name (length coords / 2) lower upper scale addToPyOpt in
  let! _ := DVGeo_addPointSet coords name compNames None in
  let! st := lift_opt (for_range (nCon base) (init_body coords)
                         (zeros (nCon base), zeros2 (nCon base))) in
  ret (mk base coords scaled st.1 st.2).

(** the body of the loop of [evalFunctions] *)
Definition eval_body (o : t) (i : nat) (D : list float) : option (list float) :=
  p ← coords o !! (2 * i); q ← coords o !! (2 * i + 1);
  let vec := vsub p q in
  n ← dir_vec o !! i;
  D ← set_item i (vx vec * vx n + vy vec * vy n + vz vec * vz n)%float D;
  if scaled o then
    d ← D !! i; d0 ← D0 o !! i; set_item i (d / d0)%float D
  else Some D.

Definition evalFunctions (funcs : gmap string FuncVal) (config : Config)
    : M (Sys t) (gmap string FuncVal) :=
  let! nm := get_self (λ o, name (base o)) in
  let! c := in_world (DVGeo_update nm config) in
  let! _ := set_self (set_coords c) in
  let! o := get_self id in
  let! D := lift_opt (for_range (nCon (base o)) (eval_body o) (zeros (nCon (base o)))) in
  ret (<[nm := FArray D]> funcs).

(** the body of the loop of [evalFunctionsSens] *)
Definition sens_body (o : t) (i : nat) (dTdPt : list (list (vec3 float)))
    : option (list (list (vec3 float))) :=
  D_b ← (if scaled o then d0 ← D0 o !! i; Some (fone / d0)%float else Some fone);
  n ← dir_vec o !! i;
  let vec_b := vmuls n D_b in
  dTdPt ← set_item2 i (2 * i) vec_b dTdPt;
  set_item2 i (2 * i + 1) (vneg vec_b) dTdPt.

Definition evalFunctionsSens (funcsSens : gmap string (gmap string Sens))
    (config : Config) : M (Sys t) (gmap string (gmap string Sens)) :=
  let! nDV := in_world DVGeo_getNDV in
  if (0 <? nDV)%Z then
    let! o := get_self id in
    let! dTdPt := lift_opt (for_range (nCon (base o)) (sens_body o)
                              (zeros3 (nCon (base o)) (length (coords o)))) in
    let! d := in_world (DVGeo_totalSensitivity (Seed3 dTdPt) (name (base o)) config) in
    ret (<[name (base o) := d]> funcsSens)
  else ret funcsSens.

(** the two lines written for toothpick [i] in the zone of directions *)
Definition write_direction `{PyFormat} (i : nat) : M (Sys t) unit :=
  let! c := get_self coords in
  let! pt1 := lift_opt (c !! (i * 2 + 1)) in
  let! dv := get_self dir_vec in
  let! n := lift_opt (dv !! i) in
  let pt2 := vadd pt1 n in
  let! _ := write (point_line pt1) in
  write (point_line pt2).

Definition writeTecplot `{PyFormat} : M (Sys t) unit :=
  let! nm := get_self (λ o, name (base o)) in
  let! _ := write (zone_line nm) in
  let! n := get_self (λ o, length (coords o)) in
  let! _ := write (nodes_line (Z.of_nat n) (Z.of_nat (n / 2))) in
  let! _ := write datapacking_line in
  let! _ := write_points coords n in
  let! _ := write_conn (n / 2) in
  let! _ := write (zone_line (nm +:+ "_ref_directions")) in
  let! m := get_self (λ o, length (dir_vec o)) in
  let! _ := write (nodes_line (Z.of_nat (m * 2)) (Z.of_nat m)) in
  let! _ := write datapacking_line in
  let! k := get_self (λ o, nCon (base o)) in
  let! _ := for_eachM write_direction (seq 0 k) in
  write_conn k.
End Defs.
End ProjectedThicknessConstraint.

(** ** ThicknessToChordConstraint *)

Module ThicknessToChordConstraint.
Section Defs.
Context `{DVGeoAPI} `{GeoUtils} `{Numpy}.

Record t : Type := mk {
  base : GeometricConstraint;
  coords : list (vec3 float);
  ToC0 : list float;
}.

Definition set_coords (c : list (vec3 float)) (o : t) : t :=
  mk (base o) c (ToC0 o).

(** the body of the loop of [__init__]; the baseline uses [np.linalg.norm] *)
Definition init_body (coords : list (vec3 float)) (i : nat) (ToC0 : list float)
    : option (list float) :=
  p1 ← coords !! (4 * i); p2 ← coords !! (4 * i + 1);
  let t := linalg_norm (vsub p1 p2) in
  p3 ← coords !! (4 * i + 2); p4 ← coords !! (4 * i + 3);
  let c := linalg_norm (vsub p3 p4) in
  set_item i (t / c)%float ToC0.

Definition init (name : string) (coords : list (vec3 float))
    (lower upper : option float) (scale : float)
    (addToPyOpt : bool) (compNames : CompNames) : M World t :=
  let base := mkBase name (length coords / 4) lower upper scale addToPyOpt in
  let! _ := DVGeo_addPointSet coords name compNames None in
  let! ToC0 := lift_opt (for_range (nCon base) (init_body coords) (zeros (nCon base))) in
  ret (mk base coords ToC0).

(** the body of the loop of [evalFunctions]; the evaluation uses
    [geo_utils.eDist] *)
Definition eval_body (o : t) (i : nat) (ToC : list float) : option (list float) :=
  p1 ← coords o !! (4 * i); p2 ← coords o !! (4 * i + 1);
  let t := eDist p1 p2 in
  p3 ← coords o !! (4 * i + 2); p4 ← coords o !! (4 * i + 3);
  let c := eDist p3 p4 in
  toc0 ← ToC0 o !! i;
  set_item i ((t / c) / toc0)%float ToC.

Definition evalFunctions (funcs : gmap string FuncVal) (config : Config)
    : M (Sys t) (gmap string FuncVal) :=
  let! nm := get_self (λ o, name (base o)) in
  let! c := in_world (DVGeo_update nm config) in
  let! _ := set_self (set_coords c) in
  let! o := get_self id in
  let! ToC := lift_opt (for_range (nCon (base o)) (eval_body o) (zeros (nCon (base o)))) in
  ret (<[nm := FArray ToC]> funcs).

(** the body of the loop of [evalFunctionsSens] *)
Definition sens_body (o : t) (i : nat) (dToCdPt : list (list (vec3 float)))
    : option (list (list (vec3 float))) :=
  p1 ← coords o !! (4 * i); p2 ← coords o !! (4 * i + 1);
  let t := eDist p1 p2 in
  p3 ← coords o !! (4 * i + 2); p4 ← coords o !! (4 * i + 3);
  let c := eDist p3 p4 in
  let '(p1b, p2b) := eDist_b p1 p2 in
  let '(p3b, p4b) := eDist_b p3 p4 in
  toc0 ← ToC0 o !! i;
  dToCdPt ← set_item2 i (4 * i) (vdivs (vdivs p1b c) toc0) dToCdPt;
  dToCdPt ← set_item2 i (4 * i + 1) (vdivs (vdivs p2b c) toc0) dToCdPt;
  dToCdPt ← set_item2 i (4 * i + 2)
              (vdivs (vdivs (vmuls (vneg p3b) t) (float_pow2 c)) toc0) dToCdPt;
  set_item2 i (4 * i + 3)
    (vdivs (vdivs (vmuls (vneg p4b) t) (float_pow2 c)) toc0) dToCdPt.

Definition evalFunctionsSens (funcsSens : gmap string (gmap string Sens))
    (config : Config) : M (Sys t) (gmap string (gmap string Sens)) :=
  let! nDV := in_world DVGeo_getNDV in
  if (0 <? nDV)%Z then
    let! o := get_self id in
    let! dToCdPt := lift_opt (for_range (nCon (base o)) (sens_body o)
                                (zeros3 (nCon (base o)) (length (coords o)))) in
    let! d := in_world (DVGeo_totalSensitivity (Seed3 dToCdPt) (name (base o)) config) in
    ret (<[name (base o) := d]> funcsSens)
  else ret funcsSens.

Definition writeTecplot `{PyFormat} : M (Sys t) unit :=
  let! nm := get_self (λ o, name (base o)) in
  let! _ := write (zone_line nm) in
  let! n := get_self (λ o, length (coords o)) in
  let! _ := write (nodes_line (Z.of_nat n) (Z.of_nat (n / 2))) in
  let! _ := write datapacking_line in
  let! _ := write_points coords n in
  write_conn (n / 2).
End Defs.
End ThicknessToChordConstraint.

(** ** KSMaxThicknessToChordConstraint *)

Module KSMaxThicknessToChordConstraint.
Section Defs.
Context `{DVGeoAPI} `{GeoUtils} `{Numpy}.

Record t : Type := mk {
  nPoint : nat;
  base : GeometricConstraint;
  coords : list (vec3 float);
  leTePts : list (vec3 float);
  scaled : bool;
  rho : float;
  ksApproach : string;
  divideByChord : bool;
  ToC0 : list float;
  max0 : float;
}.

Definition set_coords (c : list (vec3 float)) (o : t) : t :=
  mk (nPoint o) (base o) c (leTePts o) (scaled o) (rho o) (ksApproach o)
     (divideByChord o) (ToC0 o) (max0 o).

Definition set_leTePts (c : list (vec3 float)) (o : t) : t :=
  mk (nPoint o) (base o) (coords o) c (scaled o) (rho o) (ksApproach o)
     (divideByChord o) (ToC0 o) (max0 o).

(** [f"{name}_coords"] and [f"{name}_lete"] *)
Definition coords_name (name : string) : string := name +:+ "_coords".
Definition lete_name (name : string) : string := name +:+ "_lete".

(** the body of the loops of [__init__] and of [evalFunctions]: the
    thickness-to-chord ratio of toothpick [i] *)
Definition toc_body (divideByChord : bool) (coords : list (vec3 float))
    (lePt tePt : option (vec3 float)) (i : nat) (ToC : list float)
    : option (list float) :=
  p ← coords !! (2 * i); q ← coords !! (2 * i + 1);
  let t := eDist p q in
  le ← lePt; te ← tePt;
  let c := eDist le te in
  if divideByChord then set_item i (t / c)%float ToC else set_item i t ToC.

Definition init (name : string) (coords : list (vec3 float))
    (lePt tePt : vec3 float) (rho : float) (ksApproach : string)
    (divideByChord : bool) (lower upper : option float) (scaled : bool)
    (scale : float) (addToPyOpt : bool) (compNames : CompNames) : M World t :=
  let nPoint := length coords / 2 in
  let base := mkBase name 1 lower upper scale addToPyOpt in
  let leTePts := [lePt; tePt] in
  let! _ := DVGeo_addPointSet coords (coords_name name) compNames None in
  let! _ := DVGeo_addPointSet leTePts (lete_name name) compNames None in
  let! ToC0 := lift_opt (for_range nPoint
                           (toc_body divideByChord coords (Some lePt) (Some tePt))
                           (zeros nPoint)) in
  let max0 := KS_compute ToC0 rho ksApproach in
  ret (mk nPoint base coords leTePts scaled rho ksApproach divideByChord ToC0 max0).

Definition evalFunctions (funcs : gmap string FuncVal) (config : Config)
    : M (Sys t) (gmap string FuncVal) :=
  let! nm := get_self (λ o, name (base o)) in
  let! c := in_world (DVGeo_update (coords_name nm) config) in
  let! _ := set_self (set_coords c) in
  let! lt := in_world (DVGeo_update (lete_name nm) config) in
  let! _ := set_self (set_leTePts lt) in
  let! o := get_self id in
  let! ToC := lift_opt (for_range (nPoint o)
                          (toc_body (divideByChord o) (coords o)
                             (leTePts o !! 0) (leTePts o !! 1))
                          (zeros (nPoint o))) in
  let maxToC := KS_compute ToC (rho o) (ksApproach o) in
  let maxToC := if scaled o then (maxToC / max0 o)%float else maxToC in
  ret (<[nm := FScalar maxToC]> funcs).

(** the body of the loop of [evalFunctionsSens], on
    [(dToCdCoords, dToCdLeTePts, ToC)] *)
Definition sens_body (o : t) (i : nat)
    (st : list (list (vec3 float)) * list (list (vec3 float)) * list float)
    : option (list (list (vec3 float)) * list (list (vec3 float)) * list float) :=
  let '(dToCdCoords, dToCdLeTePts, ToC) := st in
  p ← coords o !! (2 * i); q ← coords o !! (2 * i + 1);
  let t := eDist p q in
  le ← leTePts o !! 0; te ← leTePts o !! 1;
  let c := eDist le te in
  ToC ← (if divideByChord o then set_item i (t / c)%float ToC else set_item i t ToC);
  let '(p1b, p2b) := eDist_b p q in
  let '(p3b, p4b) := eDist_b le te in
  if divideByChord o then
    dToCdCoords ← set_item2 i 0 (vdivs p1b c) dToCdCoords;
    dToCdCoords ← set_item2 i 1 (vdivs p2b c) dToCdCoords;
    dToCdLeTePts ← set_item2 i 0 (vdivs (vmuls (vneg p3b) t) (float_pow2 c)) dToCdLeTePts;
    dToCdLeTePts ← set_item2 i 1 (vdivs (vmuls (vneg p4b) t) (float_pow2 c)) dToCdLeTePts;
    Some (dToCdCoords, dToCdLeTePts, ToC)
  else
    dToCdCoords ← set_item2 i 0 p1b dToCdCoords;
    dToCdCoords ← set_item2 i 1 p2b dToCdCoords;
    Some (dToCdCoords, dToCdLeTePts, ToC).

(** [np.einsum("i,ijk->ijk", w, a)]: slab [i] of [a] times [w[i]] *)
Definition einsum_scale (w : list float) (a : list (list (vec3 float)))
    : option (list (list (vec3 float))) :=
  if decide (length w = length a)
  then Some (zip_with (λ wi rows, map (vmap (PrimFloat.mul wi)) rows) w a)
  else None.

(** [np.einsum("i,ijk->jk", w, a)] for slabs of [m] rows: the weighted sum of
    the slabs, accumulated from zero in the order of [i] *)
Definition einsum_sum (m : nat) (w : list float) (a : list (list (vec3 float)))
    : option (list (vec3 float)) :=
  if decide (length w = length a)
  then Some (foldl (λ acc '(wi, rows),
                      zip_with vadd acc (map (vmap (PrimFloat.mul wi)) rows))
                   (zeros2 m) (zip w a))
  else None.

(** [tmpTotal = {}; for key in tmp0: tmpTotal[key] = tmp0[key] + tmp1[key]];
    [tmp1[key]] raises [KeyError] for a key [tmp1] lacks *)
Definition combine (tmp0 tmp1 : gmap string Sens) : option (gmap string Sens) :=
  map_fold (λ key v0 acc,
              tmpTotal ← acc; v1 ← tmp1 !! key;
              Some (<[key := sens_add v0 v1]> tmpTotal))
           (Some ∅) tmp0.

Definition evalFunctionsSens (funcsSens : gmap string (gmap string Sens))
    (config : Config) : M (Sys t) (gmap string (gmap string Sens)) :=
  let! nDV := in_world DVGeo_getNDV in
  if (0 <? nDV)%Z then
    let! o := get_self id in
    let! st := lift_opt (for_range (nPoint o) (sens_body o)
                           (zeros3 (nPoint o) 2, zeros3 (nPoint o) 2, zeros (nPoint o))) in
    let '(dToCdCoords, dToCdLeTePts, ToC) := st in
    let dKSdToC := (KS_derivatives ToC (rho o) (ksApproach o)).1 in
    let dKSdToC := if scaled o
                   then map (λ x, x / max0 o)%float dKSdToC else dKSdToC in
    let! dKSdCoords := lift_opt (einsum_scale dKSdToC dToCdCoords) in
    let dKSdCoords := concat dKSdCoords in
    let! dKSdLeTePts := lift_opt (einsum_sum 2 dKSdToC dToCdLeTePts) in
    let! tmp0 := in_world (DVGeo_totalSensitivity (Seed2 dKSdCoords)
                             (coords_name (name (base o))) config) in
    let! tmp1 := in_world (DVGeo_totalSensitivity (Seed2 dKSdLeTePts)
                             (lete_name (name (base o))) config) in
    let! tmpTotal := lift_opt (combine tmp0 tmp1) in
    ret (<[name (base o) := tmpTotal]> funcsSens)
  else ret funcsSens.

Definition writeTecplot `{PyFormat} : M (Sys t) unit :=
  let! nm := get_self (λ o, name (base o)) in
  let! _ := write (zone_line nm) in
  let! n := get_self (λ o, length (coords o)) in
  let! _ := write (nodes_line (Z.of_nat (n + 2)) (Z.of_nat (n / 2 + 1))) in
  let! _ := write datapacking_line in
  let! _ := write_points coords n in
  let! lt := get_self leTePts in
  let! le := lift_opt (lt !! 0) in
  let! _ := write (point_line le) in
  let! lt := get_self leTePts in
  let! te := lift_opt (lt !! 1) in
  let! _ := write (point_line te) in
  let! _ := write_conn (n / 2) in
  write (pretty (n + 1) +:+ " " +:+ pretty (n + 2) +:+ nl).
End Defs.
End KSMaxThicknessToChordConstraint.

(** ** TESlopeConstraint *)

Module TESlopeConstraint.
Section Defs.
Context `{DVGeoAPI} `{GeoUtils} `{Numpy}.

Record t : Type := mk {
  base : GeometricConstraint;
  coords : list (vec3 float);
  scaled : bool;
  teSlope0 : list float;
}.

Definition set_coords (c : list (vec3 float)) (o : t) : t :=
  mk (base o) c (scaled o) (teSlope0 o).

(** [np.sqrt(np.sum(v * v, axis=1))] on one row, the three products summed
    from left to right *)
Definition row_norm {T} `{Dtype T} (v : vec3 T) : T :=
  t_sqrt (t_add (t_add (t_mul (vx v) (vx v)) (t_mul (vy v) (vy v)))
                (t_mul (vz v) (vz v))).

(** [_compute(coords, scaled)] for an object with [nCon] constraints and
    baseline [teSlope0], on float64 or complex128 coordinates.  [xMid] is a
    float64 array whatever the type of [coords]. *)
Definition _compute {T} `{Dtype T} (nCon : nat) (teSlope0 : list float)
    (coords : list (vec3 T)) (scaled : bool) : option (list T) :=
  let tCoords := but_last coords in
  let top := stride2 tCoords in
  let bottom := stride2 (tail tCoords) in
  dVec ← broadcast2 (vzip t_sub) top bottom;
  let t := map row_norm dVec in
  let xMid := zeros2 (nCon + 1) in
  mids ← broadcast2 (vzip t_add) bottom
           (map (vmap (λ x, t_div x (t_of_float ftwo))) dVec);
  mids ← broadcast_to nCon (map (vmap t_to_float) mids);
  let xMid := mids ++ drop nCon xMid in
  te ← last coords;
  xMid ← set_item (length xMid - 1) (vmap t_to_float te) xMid;
  let cVec := zip_with vsub (but_last xMid) (tail xMid) in
  let chords := map row_norm cVec in
  let chords := reverse chords in
  let c := reverse (cumsum chords) in
  teSlope ← broadcast2 (λ ti ci, t_div ti (t_of_float ci)) t c;
  if scaled then
    s0 ← broadcast_to (length teSlope) teSlope0;
    Some (zip_with (λ x s, t_div x (t_of_float s)) teSlope s0)
  else Some teSlope.

Definition init (name : string) (coords : list (vec3 float))
    (lower upper : option float) (scaled : bool) (scale : float)
    (addToPyOpt : bool) (compNames : CompNames) : M World t :=
  let nCon := (length coords - 1) / 2 in
  let base := mkBase name nCon lower upper scale addToPyOpt in
  let! _ := DVGeo_addPointSet coords name compNames None in
  let! teSlope0 := lift_opt (_compute nCon [] coords false) in
  ret (mk base coords scaled teSlope0).

Definition evalFunctions (funcs : gmap string FuncVal) (config : Config)
    : M (Sys t) (gmap string FuncVal) :=
  let! nm := get_self (λ o, name (base o)) in
  let! c := in_world (DVGeo_update nm config) in
  let! _ := set_self (set_coords c) in
  let! o := get_self id in
  let! teSlope := lift_opt (_compute (nCon (base o)) (teSlope0 o) (coords o) (scaled o)) in
  ret (<[nm := FArray teSlope]> funcs).

(** [coords[i, j] += step] *)
Definition perturb (i : nat) (j : axis) (step : complex128 → complex128)
    (coords : list (vec3 complex128)) : option (list (vec3 complex128)) :=
  p ← coords !! i; set_item i (vset j (step (vget j p)) p) coords.

(** [dTeSlopePt[:, i, j] = vals] *)
Definition set_column (i : nat) (j : axis) (vals : list float)
    (dTeSlopePt : list (list (vec3 float))) : option (list (list (vec3 float))) :=
  vals ← broadcast_to (length dTeSlopePt) vals;
  mapM (λ '(row, v), p ← row !! i; set_item i (vset j v p) row)
       (zip dTeSlopePt vals).

(** the body of the inner loop of [evalFunctionsSens], on
    [(coords, dTeSlopePt)] *)
Definition sens_step (o : t) (i : nat) (j : axis)
    (st : list (vec3 complex128) * list (list (vec3 float)))
    : option (list (vec3 complex128) * list (list (vec3 float))) :=
  let '(coords, dTeSlopePt) := st in
  coords ← perturb i j (λ z, cadd z step_imag) coords;
  conVal ← _compute (nCon (base o)) (teSlope0 o) coords (scaled o);
  dTeSlopePt ← set_column i j (map (λ z, im z / step_real)%float conVal) dTeSlopePt;
  coords ← perturb i j (λ z, csub z step_imag) coords;
  Some (coords, dTeSlopePt).

Definition evalFunctionsSens (funcsSens : gmap string (gmap string Sens))
    (config : Config) : M (Sys t) (gmap string (gmap string Sens)) :=
  let! nDV := in_world DVGeo_getNDV in
  if (0 <? nDV)%Z then
    let! o := get_self id in
    let nCoords := length (coords o) in
    let dTeSlopePt := zeros3 (nCon (base o)) nCoords in
    let coords := map (vmap astypeD) (coords o) in
    let! st := lift_opt (for_range nCoords
                           (λ i st, for_each (sens_step o i) axes st)
                           (coords, dTeSlopePt)) in
    let! d := in_world (DVGeo_totalSensitivity (Seed3 st.2) (name (base o)) config) in
    ret (<[name (base o) := d]> funcsSens)
  else ret funcsSens.

Definition writeTecplot `{PyFormat} : M (Sys t) unit :=
  let! nm := get_self (λ o, name (base o)) in
  let! _ := write (zone_line nm) in
  let! n := get_self (λ o, length (coords o)) in
  let! _ := write (nodes_line (Z.of_nat n - 1) ((Z.of_nat n - 1) `div` 2)) in
  let! _ := write datapacking_line in
  let! _ := write_points coords (Z.to_nat (Z.of_nat n - 1)) in
  write_conn (Z.to_nat ((Z.of_nat n - 1) `div` 2)).
End Defs.
End TESlopeConstraint.

(** ** ProximityConstraint *)

Module ProximityConstraint.
Section Defs.
Context `{DVGeoAPI} `{GeoUtils}.

Record t : Type := mk {
  base : GeometricConstraint;
  coordsA : list (vec3 float);
  coordsB : list (vec3 float);
  scaled : bool;
  D0 : list float;
}.

Definition set_coordsA (c : list (vec3 float)) (o : t) : t :=
  mk (base o) c (coordsB o) (scaled o) (D0 o).
Definition set_coordsB (c : list (vec3 float)) (o : t) : t :=
  mk (base o) (coordsA o) c (scaled o) (D0 o).

(** [f"{name}_A"] and [f"{name}_B"] *)
Definition A_name (name : string) : string := name +:+ "_A".
Definition B_name (name : string) : string := name +:+ "_B".

(** the body of the loop of [__init__] *)
Definition init_body (coordsA coordsB : list (vec3 float)) (i : nat)
    (D0 : list float) : option (list float) :=
  a ← coordsA !! i; b ← coordsB !! i;
  set_item i (euclideanNorm (vsub a b)) D0.

Definition init (name : string) (coordsA coordsB : list (vec3 float))
    (pointSetKwargsA pointSetKwargsB : Kwargs)
    (lower upper : option float) (scaled : bool) (scale : float)
    (addToPyOpt : bool) (compNames : CompNames) : M World t :=
  let base := mkBase name (length coordsA) lower upper scale addToPyOpt in
  let! _ := DVGeo_addPointSet coordsA (A_name name) compNames (Some pointSetKwargsA) in
  let! _ := DVGeo_addPointSet coordsB (B_name name) compNames (Some pointSetKwargsB) in
  let! D0 := lift_opt (for_range (nCon base) (init_body coordsA coordsB)
                         (zeros (nCon base))) in
  ret (mk base coordsA coordsB scaled D0).

(** the body of the loop of [evalFunctions] *)
Definition eval_body (o : t) (i : nat) (D : list float) : option (list float) :=
  a ← coordsA o !! i; b ← coordsB o !! i;
  D ← set_item i (euclideanNorm (vsub a b)) D;
  if scaled o then
    d ← D !! i; d0 ← D0 o !! i; set_item i (d / d0)%float D
  else Some D.

Definition evalFunctions (funcs : gmap string FuncVal) (config : Config)
    : M (Sys t) (gmap string FuncVal) :=
  let! nm := get_self (λ o, name (base o)) in
  let! cA := in_world (DVGeo_update (A_name nm) config) in
  let! _ := set_self (set_coordsA cA) in
  let! cB := in_world (DVGeo_update (B_name nm) config) in
  let! _ := set_self (set_coordsB cB) in
  let! o := get_self id in
  let! D := lift_opt (for_range (nCon (base o)) (eval_body o) (zeros (nCon (base o)))) in
  ret (<[nm := FArray D]> funcs).

(** the body of the loop of [evalFunctionsSens], on [(dTdPtA, dTdPtB)] *)
Definition sens_body (o : t) (i : nat)
    (st : list (list (vec3 float)) * list (list (vec3 float)))
    : option (list (list (vec3 float)) * list (list (vec3 float))) :=
  let '(dTdPtA, dTdPtB) := st in
  a ← coordsA o !! i; b ← coordsB o !! i;
  let '(pAb, pBb) := eDist_b a b in
  '(pAb, pBb) ← (if scaled o
                 then d0 ← D0 o !! i; Some (vdivs pAb d0, vdivs pBb d0)
                 else Some (pAb, pBb));
  dTdPtA ← set_item2 i i pAb dTdPtA;
  dTdPtB ← set_item2 i i pBb dTdPtB;
  Some (dTdPtA, dTdPtB).

(** [funcsSens[name] = {}], then the items of [funcSensA] are stored and the
    items of [funcSensB] are added to them or stored *)
Definition merge_sens (funcSensA funcSensB : gmap string Sens) : gmap string Sens :=
  let d := map_fold (λ key value d, <[key := value]> d) ∅ funcSensA in
  map_fold (λ key value d,
              match d !! key with
              | Some v => <[key := sens_add v value]> d
              | None => <[key := value]> d
              end)
           d funcSensB.

Definition evalFunctionsSens (funcsSens : gmap string (gmap string Sens))
    (config : Config) : M (Sys t) (gmap string (gmap string Sens)) :=
  let! nDV := in_world DVGeo_getNDV in
  if (0 <? nDV)%Z then
    let! o := get_self id in
    let n := nCon (base o) in
    let! st := lift_opt (for_range n (sens_body o) (zeros3 n n, zeros3 n n)) in
    let! funcSensA := in_world (DVGeo_totalSensitivity (Seed3 st.1)
                                  (A_name (name (base o))) config) in
    let! funcSensB := in_world (DVGeo_totalSensitivity (Seed3 st.2)
                                  (B_name (name (base o))) config) in
    ret (<[name (base o) := merge_sens funcSensA funcSensB]> funcsSens)
  else ret funcsSens.

(** the two lines written for pair [i] *)
Definition write_pair `{PyFormat} (i : nat) : M (Sys t) unit :=
  let! cA := get_self coordsA in
  let! a := lift_opt (cA !! i) in
  let! _ := write (point_line a) in
  let! cB := get_self coordsB in
  let! b := lift_opt (cB !! i) in
  write (point_line b).

(** The listing ends at the header of the last loop,
    [for i in range(len(self.coordsA)):]; [last_line i] is the text its body
    writes to the handle at turn [i]. *)
Definition writeTecplot `{PyFormat} (last_line : nat → string) : M (Sys t) unit :=
  let! nm := get_self (λ o, name (base o)) in
  let! _ := write (zone_line nm) in
  let! n := get_self (λ o, length (coordsA o)) in
  let! _ := write (nodes_line (Z.of_nat (n * 2)) (Z.of_nat n)) in
  let! _ := write datapacking_line in
  let! _ := for_eachM write_pair (seq 0 n) in
  for_eachM (λ i, write (last_line i)) (seq 0 n).
End Defs.
End ProximityConstraint.

(** ** A concrete model of the collaborators

    Used to run the constraints on concrete numbers. *)

Module Model.

(** Modelled from the spec: [pygeo.geo_utils] is not part of the listing.
    The spec names Euclidean distances and a KS smoothing of the maximum.
    [euclideanNorm] is the float64 Euclidean norm, [eDist] the norm of the
    difference, [eDist_b] its gradient with respect to both points (zero
    where the points coincide), and the KS aggregate is taken in its limit
    of large [rho], the plain maximum, whose gradient is the indicator of
    the first maximal entry. *)
Definition norm3 (v : vec3 float) : float :=
  PrimFloat.sqrt (vx v * vx v + vy v * vy v + vz v * vz v)%float.

Definition dist3 (a b : vec3 float) : float := norm3 (vsub a b).

Definition dist3_b (a b : vec3 float) : vec3 float * vec3 float :=
  let d := dist3 a b in
  let g := if PrimFloat.eqb d fzero then vzero else vdivs (vsub a b) d in
  (g, vneg g).

Fixpoint max_list (m : float) (g : list float) : float :=
  match g with
  | [] => m
  | x :: g' => max_list (if PrimFloat.ltb m x then x else m) g'
  end.

Definition ks_max (g : list float) (rho : float) (ksApproach : string) : float :=
  match g with
  | [] => fzero
  | x :: g' => max_list x g'
  end.

Fixpoint first_hit (m : float) (g : list float) : list float :=
  match g with
  | [] => []
  | x :: g' => if PrimFloat.eqb x m then fone :: map (λ _, fzero) g'
               else fzero :: first_hit m g'
  end.

Definition ks_max_derivatives (g : list float) (rho : float) (ksApproach : string)
    : list float * float :=
  (first_hit (ks_max g rho ksApproach) g, fzero).

#[export] Instance geo_utils : GeoUtils := {|
  euclideanNorm := norm3;
  eDist := dist3;
  eDist_b := dist3_b;
  KS_compute := ks_max;
  KS_derivatives := ks_max_derivatives;
|}.

(** numpy: the Euclidean norm again, the square as a product, and the
    textbook formulas for complex numbers. *)
Definition cmul_model (a b : complex128) : complex128 :=
  Cx (re a * re b - im a * im b)%float (re a * im b + im a * re b)%float.

Definition cdiv_model (a b : complex128) : complex128 :=
  let d := (re b * re b + im b * im b)%float in
  Cx ((re a * re b + im a * im b) / d)%float
     ((im a * re b - re a * im b) / d)%float.

Definition csqrt_model (a : complex128) : complex128 :=
  let m := PrimFloat.sqrt (re a * re a + im a * im a)%float in
  let r := PrimFloat.sqrt ((m + re a) / 2)%float in
  Cx r (im a / (2 * r))%float.

#[export] Instance numpy : Numpy := {|
  linalg_norm := norm3;
  float_pow2 := λ c, (c * c)%float;
  cmul := cmul_model;
  cdiv := cdiv_model;
  csqrt := csqrt_model;
|}.

(** A geometry engine that leaves the geometry as it was embedded.  It keeps
    the point sets by name and, for each point set, the names of the design
    variables that move it.  [update] returns the embedded coordinates.  A
    design variable moves every point of a point set it acts on by the same
    amount along each axis, so the sensitivity of a function to it is the sum
    of the seeds of the function: one number for an [(N, 3)] seed, one number
    per row for an [(nCon, N, 3)] seed. *)
Record Engine : Type := mkEngine {
  pointsets : list (string * list (vec3 float));
  moves : list (string * list string);
  ndv : Z;
}.

Definition lookup_name {A} (nm : string) (l : list (string * A)) : option A :=
  snd <$> find (λ e, bool_decide (e.1 = nm)) l.

Definition seed_sum (s : list (vec3 float)) : float :=
  foldl (λ acc p, acc + (vx p + vy p + vz p))%float fzero s.

Definition seed_sens (s : Seed) : list float :=
  match s with
  | Seed2 a => [seed_sum a]
  | Seed3 a => map seed_sum a
  end.

Definition total_sens (e : Engine) (s : Seed) (nm : string)
    : gmap string (list float) :=
  list_to_map (map (λ dv, (dv, seed_sens s)) (default [] (lookup_name nm (moves e)))).

#[export] Instance engine : DVGeoAPI := {|
  DVGeo := Engine;
  Config := unit;
  CompNames := unit;
  Kwargs := unit;
  Sens := list float;
  sens_add := zip_with PrimFloat.add;
  dv_addPointSet := λ e pts nm _ _,
    mkEngine ((nm, pts) :: pointsets e) (moves e) (ndv e);
  dv_update := λ e nm _, (e, default [] (lookup_name nm (pointsets e)));
  dv_getNDV := ndv;
  dv_totalSensitivity := λ e s nm _, (e, total_sens e s nm);
|}.

Definition world0 (moves : list (string * list string)) (ndv : Z) : World :=
  mkWorld (mkEngine [] moves ndv) [] [].

End Model.

(** ** Concrete constraints *)

Module Examples.
Import Model.

(** two toothpicks, of lengths 1 and 2 *)
Definition toothpicks : list (vec3 float) :=
  [V3 0 0 0; V3 0 1 0; V3 1 0 0; V3 1 2 0]%float.

(** a world whose engine has [ndv] design variables, ["twist"] moving every
    point set named in [names] *)
Definition world_with (names : list string) (ndv : Z) : World :=
  world0 (map (λ nm, (nm, ["twist"])) names) ndv.

(** the ThicknessConstraint ["t"] on [toothpicks], scaled, and the world its
    constructor leaves *)
Definition thickness : ThicknessConstraint.t :=
  ThicknessConstraint.mk (mkBase "t" 2 None None 1%float false)
    toothpicks true [1; 2]%float.

Definition thickness_world (ndv : Z) : World :=
  mkWorld (mkEngine [("t", toothpicks)] [("t", ["twist"])] ndv)
          [CAddPointSet toothpicks "t" tt None] [].

(** the ProximityConstraint ["p"] between the lower and the upper ends of the
    toothpicks, scaled *)
Definition lower_ends : list (vec3 float) := [V3 0 0 0; V3 1 0 0]%float.
Definition upper_ends : list (vec3 float) := [V3 0 1 0; V3 1 2 0]%float.

Definition proximity : ProximityConstraint.t :=
  ProximityConstraint.mk (mkBase "p" 2 None None 1%float false)
    lower_ends upper_ends true [1; 2]%float.

Definition proximity_world (ndv : Z) : World :=
  mkWorld (mkEngine [("p_B", upper_ends); ("p_A", lower_ends)]
                    [("p_A", ["twist"]); ("p_B", ["twist"])] ndv)
          [CAddPointSet lower_ends "p_A" tt (Some tt);
           CAddPointSet upper_ends "p_B" tt (Some tt)] [].

(** the KSMaxThicknessToChordConstraint ["ks"] on [toothpicks] with a chord
    of length 2, divided by the chord and scaled *)
Definition le_pt : vec3 float := (V3 0 0 0)%float.
Definition te_pt : vec3 float := (V3 2 0 0)%float.

Definition ksmax (divideByChord : bool) (ToC0 : list float) (max0 : float)
    : KSMaxThicknessToChordConstraint.t :=
  KSMaxThicknessToChordConstraint.mk 2 (mkBase "ks" 1 None None 1%float false)
    toothpicks [le_pt; te_pt] true 50%float "continuous" divideByChord ToC0 max0.

Definition ksmax_world (moves : list (string * list string)) (ndv : Z) : World :=
  mkWorld (mkEngine [("ks_lete", [le_pt; te_pt]); ("ks_coords", toothpicks)]
                    moves ndv)
          [CAddPointSet toothpicks "ks_coords" tt None;
           CAddPointSet [le_pt; te_pt] "ks_lete" tt None] [].

(** the ThicknessToChordConstraint ["toc"] on [toothpicks]: thickness 1,
    chord 2 *)
Definition toc : ThicknessToChordConstraint.t :=
  ThicknessToChordConstraint.mk (mkBase "toc" 1 None None 1%float false)
    toothpicks [0.5]%float.

Definition toc_world : World :=
  mkWorld (mkEngine [("toc", toothpicks)] [] 1)
          [CAddPointSet toothpicks "toc" tt None] [].

(** a ThicknessToChordConstraint whose toothpick has coincident ends:
    thickness 0, chord 1 *)
Definition flat : list (vec3 float) :=
  [V3 0 0 0; V3 0 0 0; V3 0 0 0; V3 1 0 0]%float.

Definition flat_toc : ThicknessToChordConstraint.t :=
  ThicknessToChordConstraint.mk (mkBase "toc" 1 None None 1%float false)
    flat [0]%float.

Definition flat_world : World :=
  mkWorld (mkEngine [("toc", flat)] [] 1) [CAddPointSet flat "toc" tt None] [].

(** the ProjectedThicknessConstraint ["pt"] on [toothpicks], scaled *)
Definition projected : ProjectedThicknessConstraint.t :=
  ProjectedThicknessConstraint.mk (mkBase "pt" 2 None None 1%float false)
    toothpicks true [1; 2]%float [V3 0 (-1) 0; V3 0 (-1) 0]%float.

Definition projected_world (ndv : Z) : World :=
  mkWorld (mkEngine [("pt", toothpicks)] [("pt", ["twist"])] ndv)
          [CAddPointSet toothpicks "pt" tt None] [].

(** engines in which ["twist"] moves the first point set of a constraint
    and the second point set is moved by more, or other, design variables *)
Definition ksmax_moves : list (string * list string) :=
  [("ks_coords", ["twist"]); ("ks_lete", ["twist"; "sweep"])].

Definition proximity_world_sweep : World :=
  mkWorld (mkEngine [("p_B", upper_ends); ("p_A", lower_ends)]
                    [("p_A", ["twist"]); ("p_B", ["sweep"])] 1)
          [CAddPointSet lower_ends "p_A" tt (Some tt);
           CAddPointSet upper_ends "p_B" tt (Some tt)] [].

(** the TESlopeConstraint ["te"]: toothpicks of thickness 2 and 1 at
    arc lengths 2 and 1 from the trailing edge point, scaled *)
Definition closeout : list (vec3 float) :=
  [V3 0 1 0; V3 0 (-1) 0; V3 1 0.5 0; V3 1 (-0.5) 0; V3 2 0 0]%float.

Definition teslope : TESlopeConstraint.t :=
  TESlopeConstraint.mk (mkBase "te" 2 None None 1%float false)
    closeout true [1; 1]%float.

Definition teslope_world : World :=
  mkWorld (mkEngine [("te", closeout)] [("te", ["twist"])] 1)
          [CAddPointSet closeout "te" tt None] [].

End Examples.

(** ** Predicates used in the statements *)

(** A method that only writes to the file handle: whatever its result, the
    object, the engine and the calls made to the engine are as before, and the
    file holds what it held followed by new lines. *)
Definition only_writes `{DVGeoAPI} {O A} (m : M (Sys O) A) : Prop :=
  ∀ s, self (m s).1 = self s
     ∧ dvgeo (world (m s).1) = dvgeo (world s)
     ∧ calls (world (m s).1) = calls (world s)
     ∧ ∃ lines, file (world (m s).1) = file (world s) ++ lines.

(** A float64 number other than zero, infinity and nan. *)
Definition finite_nonzero (x : float) : Prop :=
  PrimFloat.is_finite x = true ∧ PrimFloat.is_zero x = false.

(** the state a sensitivity method leaves when the engine has no design
    variable: one [getNDV] call more, nothing else *)
Definition after_getNDV `{DVGeoAPI} {O} (s : Sys O) : Sys O :=
  mkSys (self s)
        (mkWorld (dvgeo (world s)) (calls (world s) ++ [CGetNDV]) (file (world s))).

Section Distances.
Context `{GeoUtils}.

(** the Euclidean distance between the points [2 i] and [2 i + 1] of an
    array of toothpick ends *)
Definition toothpick_length (coords : list (vec3 float)) (i : nat) : option float :=
  p ← coords !! (2 * i); q ← coords !! (2 * i + 1);
  Some (euclideanNorm (vsub p q)).

(** the Euclidean distance between point [i] of one array and point [i] of
    another *)
Definition pair_distance (coordsA coordsB : list (vec3 float)) (i : nat)
    : option float :=
  a ← coordsA !! i; b ← coordsB !! i; Some (euclideanNorm (vsub a b)).

(** [d], divided by the baseline [D0[i]] when [scaled] *)
Definition scaled_by (scaled : bool) (D0 : list float) (i : nat) (d : float)
    : option float :=
  if scaled then d0 ← D0 !! i; Some (d / d0)%float else Some d.
(** the thickness-to-chord ratio of toothpick [i]: its length [t], divided
    when [divideByChord] by the distance [c] between the leading and the
    trailing edge *)
Definition toc_ratio (divideByChord : bool) (coords : list (vec3 float))
    (lePt tePt : option (vec3 float)) (i : nat) : option float :=
  p ← coords !! (2 * i); q ← coords !! (2 * i + 1);
  le ← lePt; te ← tePt;
  Some (if divideByChord then (eDist p q / eDist le te)%float else eDist p q).

(** [ToC] is the vector of the [n] ratios of the toothpicks of [coords] *)
Definition is_ToC (divideByChord : bool) (coords : list (vec3 float))
    (le te : vec3 float) (n : nat) (ToC : list float) : Prop :=
  length ToC = n
  ∧ ∀ i, i < n →
      ∃ p q, coords !! (2 * i) = Some p ∧ coords !! (2 * i + 1) = Some q
           ∧ ToC !! i = Some (if divideByChord
                              then (eDist p q / eDist le te)%float
                              else eDist p q).
End Distances.

Section Ratios.
Context `{GeoUtils} `{Numpy}.

(** the thickness-to-chord ratio of the four points [4 i .. 4 i + 3], as the
    constructor of ThicknessToChordConstraint computes it, with
    [np.linalg.norm] *)
Definition baseline_ratio (coords : list (vec3 float)) (i : nat) : option float :=
  p1 ← coords !! (4 * i); p2 ← coords !! (4 * i + 1);
  p3 ← coords !! (4 * i + 2); p4 ← coords !! (4 * i + 3);
  Some (linalg_norm (vsub p1 p2) / linalg_norm (vsub p3 p4))%float.

(** the same ratio as [evalFunctions] computes it, with [geo_utils.eDist] *)
Definition current_ratio (coords : list (vec3 float)) (i : nat) : option float :=
  p1 ← coords !! (4 * i); p2 ← coords !! (4 * i + 1);
  p3 ← coords !! (4 * i + 2); p4 ← coords !! (4 * i + 3);
  Some (eDist p1 p2 / eDist p3 p4)%float.

(** [np.linalg.norm(a - b)] and [geo_utils.eDist(a, b)] give the same float64
    number on the thicknesses and chords of the first [n] constraints *)
Definition norms_agree (coords : list (vec3 float)) (n : nat) : Prop :=
  ∀ i p1 p2 p3 p4, i < n →
    coords !! (4 * i) = Some p1 → coords !! (4 * i + 1) = Some p2 →
    coords !! (4 * i + 2) = Some p3 → coords !! (4 * i + 3) = Some p4 →
    linalg_norm (vsub p1 p2) = eDist p1 p2
    ∧ linalg_norm (vsub p3 p4) = eDist p3 p4.
End Ratios.

(** ** Jacobians *)

(** [row], of [N] points, holds the listed seeds at the listed points and
    zero everywhere else *)
Definition sparse_row (N : nat) (entries : list (nat * vec3 float))
    (row : list (vec3 float)) : Prop :=
  length row = N
  ∧ (∀ k v, (k, v) ∈ entries → row !! k = Some v)
  ∧ (∀ k, k < N → k ∉ entries.*1 → row !! k = Some vzero).

(** [J] has [n] rows of [N] points, and row [i] holds the seeds [seeds i] and
    zero everywhere else *)
Definition is_jacobian (n N : nat) (seeds : nat → option (list (nat * vec3 float)))
    (J : list (list (vec3 float))) : Prop :=
  length J = n
  ∧ ∀ i, i < n →
      ∃ row es, J !! i = Some row ∧ seeds i = Some es ∧ sparse_row N es row.

(** [row[k] = v] for each listed [(k, v)], in order *)
Fixpoint scatter {A} (es : list (nat * A)) (row : list A) : option (list A) :=
  match es with
  | [] => Some row
  | (k, v) :: es' => row' ← set_item k v row; scatter es' row'
  end.

(** [J[i, k, :] = v] for each listed [(k, v)], in order *)
Fixpoint scatter2 {A} (i : nat) (es : list (nat * A)) (J : list (list A))
    : option (list (list A)) :=
  match es with
  | [] => Some J
  | [(k, v)] => set_item2 i k v J
  | (k, v) :: es' => J' ← set_item2 i k v J; scatter2 i es' J'
  end.

Section Seeds.
Context `{GeoUtils} `{Numpy}.

(** row [i] of the Jacobian of a ThicknessConstraint: the reverse seeds of
    the distance between the points [2 i] and [2 i + 1], divided by [D0[i]]
    when [scaled] *)
Definition thickness_seeds (scaled : bool) (D0 : list float)
    (coords : list (vec3 float)) (i : nat) : option (list (nat * vec3 float)) :=
  p ← coords !! (2 * i); q ← coords !! (2 * i + 1);
  let '(p1b, p2b) := eDist_b p q in
  if scaled
  then d0 ← D0 !! i; Some [(2 * i, vdivs p1b d0); (2 * i + 1, vdivs p2b d0)]
  else Some [(2 * i, p1b); (2 * i + 1, p2b)].

(** row [i] of the Jacobian of a ProjectedThicknessConstraint: the reference
    direction, divided by [D0[i]] when [scaled], and its opposite *)
Definition projected_seeds (scaled : bool) (D0 : list float)
    (dir_vec : list (vec3 float)) (i : nat) : option (list (nat * vec3 float)) :=
  D_b ← (if scaled then d0 ← D0 !! i; Some (fone / d0)%float else Some fone);
  n ← dir_vec !! i;
  Some [(2 * i, vmuls n D_b); (2 * i + 1, vneg (vmuls n D_b))].

(** row [i] of the Jacobian of a ThicknessToChordConstraint: the derivative
    of [(t / c) / ToC0[i]] with respect to the two ends of the toothpick and
    the two ends of the chord *)
Definition toc_seeds (ToC0 : list float) (coords : list (vec3 float)) (i : nat)
    : option (list (nat * vec3 float)) :=
  p1 ← coords !! (4 * i); p2 ← coords !! (4 * i + 1);
  p3 ← coords !! (4 * i + 2); p4 ← coords !! (4 * i + 3);
  let t := eDist p1 p2 in
  let c := eDist p3 p4 in
  let '(p1b, p2b) := eDist_b p1 p2 in
  let '(p3b, p4b) := eDist_b p3 p4 in
  toc0 ← ToC0 !! i;
  Some [(4 * i, vdivs (vdivs p1b c) toc0);
        (4 * i + 1, vdivs (vdivs p2b c) toc0);
        (4 * i + 2, vdivs (vdivs (vmuls (vneg p3b) t) (float_pow2 c)) toc0);
        (4 * i + 3, vdivs (vdivs (vmuls (vneg p4b) t) (float_pow2 c)) toc0)].
End Seeds.

Section KSMaxSeeds.
Context `{GeoUtils} `{Numpy}.

(** [dKSdToC]: the gradient of the KS aggregate with respect to the ratios,
    divided by [max0] when [scaled] *)
Definition ks_weights (scaled : bool) (max0 rho : float) (ksApproach : string)
    (ToC : list float) : list float :=
  let dKSdToC := (KS_derivatives ToC rho ksApproach).1 in
  if scaled then map (λ x, x / max0)%float dKSdToC else dKSdToC.

(** the partial derivatives of [ToC_i] with respect to the two ends of
    toothpick [i]: the [eDist_b] seeds, divided by the chord [c] when
    [divideByChord] *)
Definition coords_partials (divideByChord : bool) (coords : list (vec3 float))
    (le te : vec3 float) (i : nat) : option (list (vec3 float)) :=
  p ← coords !! (2 * i); q ← coords !! (2 * i + 1);
  let c := eDist le te in
  let '(p1b, p2b) := eDist_b p q in
  Some (if divideByChord then [vdivs p1b c; vdivs p2b c] else [p1b; p2b]).

(** the partial derivatives of [ToC_i = t_i / c] with respect to the leading
    and the trailing edge point: [-seed * t_i / c**2] *)
Definition chord_partials (coords : list (vec3 float)) (le te : vec3 float)
    (i : nat) : option (list (vec3 float)) :=
  p ← coords !! (2 * i); q ← coords !! (2 * i + 1);
  let t := eDist p q in
  let c := eDist le te in
  let '(p3b, p4b) := eDist_b le te in
  Some [vdivs (vmuls (vneg p3b) t) (float_pow2 c);
        vdivs (vmuls (vneg p4b) t) (float_pow2 c)].

(** the same as the method leaves them: [chord_partials] when
    [divideByChord], zero otherwise *)
Definition lete_partials (divideByChord : bool) (coords : list (vec3 float))
    (le te : vec3 float) (i : nat) : option (list (vec3 float)) :=
  if divideByChord then chord_partials coords le te i
  else p ← coords !! (2 * i); q ← coords !! (2 * i + 1); Some (zeros2 2).

(** The seed of the leading and trailing edge points as the claim words it,
    whatever [divideByChord]: the sum over [i] of [dKSdToC[i]] times
    [-seed * t_i / c**2]. *)
Definition claimed_lete_seed (o : KSMaxThicknessToChordConstraint.t)
    (le te : vec3 float) : option (list (vec3 float)) :=
  let n := KSMaxThicknessToChordConstraint.nPoint o in
  let coords := KSMaxThicknessToChordConstraint.coords o in
  ToC ← mapM (toc_ratio (KSMaxThicknessToChordConstraint.divideByChord o)
                coords (Some le) (Some te)) (seq 0 n);
  dToCdLeTePts ← mapM (chord_partials coords le te) (seq 0 n);
  KSMaxThicknessToChordConstraint.einsum_sum 2
    (ks_weights (KSMaxThicknessToChordConstraint.scaled o)
       (KSMaxThicknessToChordConstraint.max0 o)
       (KSMaxThicknessToChordConstraint.rho o)
       (KSMaxThicknessToChordConstraint.ksApproach o) ToC)
    dToCdLeTePts.
End KSMaxSeeds.

(** the state and the result of a sensitivity method that hands the seeds
    [J] of the point set [ptName] to the engine and stores what the engine
    returns under [funcsSens[name]] *)
Definition after_totalSensitivity `{DVGeoAPI} {O} (s : Sys O) (J : Seed)
    (ptName name : string) (config : Config)
    (funcsSens : gmap string (gmap string Sens))
    : Sys O * option (gmap string (gmap string Sens)) :=
  let '(g, d) := dv_totalSensitivity (dvgeo (world s)) J ptName config in
  (mkSys (self s)
     (mkWorld g (calls (world s) ++ [CGetNDV; CTotalSensitivity J ptName config])
        (file (world s))),
   Some (<[name := d]> funcsSens)).

(** ** Complex-step columns *)

#[export] Instance axis_eq_dec : EqDecision axis.
Proof. solve_decision. Defined.

(** [coords] with [step_imag] added to entry [(i, j)] *)
Definition perturbed (i : nat) (j : axis) (coords : list (vec3 complex128))
    : list (vec3 complex128) :=
  alter (λ p, vset j (cadd (vget j p) step_imag) p) i coords.

(** column [(i, j)] of the Jacobian [J] holds the values [vals], one for each
    constraint *)
Definition column_is (i : nat) (j : axis) (vals : list float)
    (J : list (list (vec3 float))) : Prop :=
  length vals = length J
  ∧ ∀ c v, vals !! c = Some v →
      ∃ row q, J !! c = Some row ∧ row !! i = Some q ∧ vget j q = v.

Section Columns.
Context `{DVGeoAPI} `{GeoUtils} `{Numpy}.
Import TESlopeConstraint.

(** the columns [(i, j)] of [J] listed by [done] hold the complex-step
    derivatives taken on [coordsD] *)
Definition columns_done (o : t) (coordsD : list (vec3 complex128))
    (done : nat → axis → Prop) (J : list (list (vec3 float))) : Prop :=
  length J = nCon (base o)
  ∧ Forall (λ row : list (vec3 float), length row = length coordsD) J
  ∧ ∀ i j, done i j →
      ∃ conVal,
        _compute (nCon (base o)) (teSlope0 o) (perturbed i j coordsD) (scaled o)
        = Some conVal
        ∧ column_is i j (map (λ z, im z / step_real)%float conVal) J.
End Columns.

(** ** The loops of the sensitivity methods, array by array *)

Section KSMaxSteps.
Context `{GeoUtils} `{Numpy}.
Import KSMaxThicknessToChordConstraint.

(** what a turn of the loop of [evalFunctionsSens] does to [dToCdCoords] *)
Definition coords_step (o : t) (i : nat) (dToCdCoords : list (list (vec3 float)))
    : option (list (list (vec3 float))) :=
  p ← coords o !! (2 * i); q ← coords o !! (2 * i + 1);
  le ← leTePts o !! 0; te ← leTePts o !! 1;
  let c := eDist le te in
  let '(p1b, p2b) := eDist_b p q in
  scatter2 i (if divideByChord o
              then [(0, vdivs p1b c); (1, vdivs p2b c)]
              else [(0, p1b); (1, p2b)]) dToCdCoords.

(** and to [dToCdLeTePts] *)
Definition lete_step (o : t) (i : nat) (dToCdLeTePts : list (list (vec3 float)))
    : option (list (list (vec3 float))) :=
  p ← coords o !! (2 * i); q ← coords o !! (2 * i + 1);
  le ← leTePts o !! 0; te ← leTePts o !! 1;
  let t := eDist p q in
  let c := eDist le te in
  let '(p3b, p4b) := eDist_b le te in
  if divideByChord o
  then scatter2 i [(0, vdivs (vmuls (vneg p3b) t) (float_pow2 c));
                   (1, vdivs (vmuls (vneg p4b) t) (float_pow2 c))] dToCdLeTePts
  else Some dToCdLeTePts.

(** the new row [i] of [dToCdCoords] and of [dToCdLeTePts], from the old *)
Definition coords_row (o : t) (le te : vec3 float) (i : nat)
    (row : list (vec3 float)) : option (list (vec3 float)) :=
  p ← coords o !! (2 * i); q ← coords o !! (2 * i + 1);
  let c := eDist le te in
  let '(p1b, p2b) := eDist_b p q in
  scatter (if divideByChord o
           then [(0, vdivs p1b c); (1, vdivs p2b c)]
           else [(0, p1b); (1, p2b)]) row.

Definition lete_row (o : t) (le te : vec3 float) (i : nat)
    (row : list (vec3 float)) : option (list (vec3 float)) :=
  p ← coords o !! (2 * i); q ← coords o !! (2 * i + 1);
  let t := eDist p q in
  let c := eDist le te in
  let '(p3b, p4b) := eDist_b le te in
  if divideByChord o
  then scatter [(0, vdivs (vmuls (vneg p3b) t) (float_pow2 c));
                (1, vdivs (vmuls (vneg p4b) t) (float_pow2 c))] row
  else Some row.
End KSMaxSteps.

Section ProximitySteps.
Context `{GeoUtils}.
Import ProximityConstraint.

(** the seeds of pair [i] for the points of [A] ([pick = fst]) or of [B]
    ([pick = snd]) *)
Definition pair_seed (pick : vec3 float * vec3 float → vec3 float) (o : t) (i : nat)
    : option (vec3 float) :=
  a ← coordsA o !! i; b ← coordsB o !! i;
  let '(pAb, pBb) := eDist_b a b in
  if scaled o then d0 ← D0 o !! i; Some (pick (vdivs pAb d0, vdivs pBb d0))
  else Some (pick (pAb, pBb)).

Definition pair_step (pick : vec3 float * vec3 float → vec3 float) (o : t) (i : nat)
    (dTdPt : list (list (vec3 float))) : option (list (list (vec3 float))) :=
  v ← pair_seed pick o i; set_item2 i i v dTdPt.
End ProximitySteps.

(** ** Predicates used in the further properties *)

(** the entries of a dictionary other than [name] are those of [funcs],
    when the method has returned a dictionary *)
Definition keeps_other_keys {V} (name : string) (funcs : gmap string V)
    (r : option (gmap string V)) : Prop :=
  ∀ funcs', r = Some funcs' → ∀ key, key ≠ name → funcs' !! key = funcs !! key.

Definition is_totalSensitivity `{DVGeoAPI} (c : Call) : Prop :=
  match c with CTotalSensitivity _ _ _ => True | _ => False end.

(** what a sensitivity method may do to the state: the object and the file
    are as before, and the calls made to the engine are one [getNDV] followed
    by calls of [totalSensitivity] only *)
Definition sens_frame `{DVGeoAPI} {O} (s s' : Sys O) : Prop :=
  self s' = self s
  ∧ file (world s') = file (world s)
  ∧ ∃ ts, calls (world s') = calls (world s) ++ CGetNDV :: ts
        ∧ Forall is_totalSensitivity ts.

Section Projections.
Context `{GeoUtils}.

(** the reference direction of toothpick [i]: the vector from point
    [2 i + 1] to point [2 i], divided by its Euclidean norm *)
Definition toothpick_direction (coords : list (vec3 float)) (i : nat)
    : option (vec3 float) :=
  p ← coords !! (2 * i); q ← coords !! (2 * i + 1);
  Some (vdivs (vsub p q) (euclideanNorm (vsub p q))).

(** the thickness of toothpick [i] along the direction [dir_vec[i]]: the dot
    product, its three products summed from left to right *)
Definition projected_thickness (coords dir_vec : list (vec3 float)) (i : nat)
    : option float :=
  p ← coords !! (2 * i); q ← coords !! (2 * i + 1); n ← dir_vec !! i;
  Some (vx (vsub p q) * vx n + vy (vsub p q) * vy n + vz (vsub p q) * vz n)%float.
End Projections.

(** [x / x] in float64: 1 for a finite number other than zero; nan for zero,
    for an infinity and for nan *)
Definition self_ratio (x : float) : float :=
  if PrimFloat.is_finite x && negb (PrimFloat.is_zero x) then 1%float else nan.

Section ProximitySeeds.
Context `{GeoUtils}.

(** row [i] of a Jacobian of a ProximityConstraint: the seed of pair [i] at
    point [i] of the set picked ([fst] for set A, [snd] for set B) *)
Definition proximity_seeds (pick : vec3 float * vec3 float → vec3 float)
    (o : ProximityConstraint.t) (i : nat) : option (list (nat * vec3 float)) :=
  v ← pair_seed pick o i; Some [(i, v)].
End ProximitySeeds.

(** an engine in which ["sweep"] moves the toothpick points of the constraint
    ["ks"] and not its leading and trailing edge points *)
Definition sweep_on_toothpicks_only : list (string * list string) :=
  [("ks_coords", ["twist"; "sweep"]); ("ks_lete", ["twist"])].

(** ** Tecplot output *)

(** the state and the result of a method that has written [lines] to the
    handle and done nothing else *)
Definition written `{DVGeoAPI} {O} (s : Sys O) (lines : list string)
    : Sys O * option unit :=
  (mkSys (self s)
     (mkWorld (dvgeo (world s)) (calls (world s)) (file (world s) ++ lines)),
   Some tt).

Section ZoneText.
Context `{PyFormat}.

(** the text of a zone of line segments: the header with the declared
    numbers of nodes and elements, one line for each point, and the
    connectivity lines ["1 2"], ["3 4"], ... of [segments] segments *)
Definition zone_text (name : string) (nodes elements : Z)
    (points : list (vec3 float)) (segments : nat) : list string :=
  [zone_line name; nodes_line nodes elements; datapacking_line]
  ++ map point_line points ++ map conn_line (seq 0 segments).

(** the two lines of toothpick [i] in the zone of reference directions: its
    second end, and that point moved by the direction *)
Definition direction_lines (coords dir_vec : list (vec3 float)) (i : nat)
    : option (list string) :=
  pt1 ← coords !! (i * 2 + 1); n ← dir_vec !! i;
  Some [point_line pt1; point_line (vadd pt1 n)].
End ZoneText.

(** ** The trailing-edge slope, toothpick by toothpick *)

(** arc lengths measured from the end of a chain of chords: the last entry is
    the last chord, and entry [i] is entry [i + 1] plus chord [i] *)
Fixpoint arc_from_te (chords : list float) : list float :=
  match chords with
  | [] => []
  | ch :: rest =>
      let arc := arc_from_te rest in
      match arc with
      | [] => ch :: arc
      | a :: _ => (a + ch)%float :: arc
      end
  end.

(** the thickness of toothpick [i] of a TESlopeConstraint: the norm of the
    vector between its two ends *)
Definition te_thickness (coords : list (vec3 float)) (i : nat) : option float :=
  p ← coords !! (2 * i); q ← coords !! (2 * i + 1);
  Some (TESlopeConstraint.row_norm (vsub p q)).

(** the midpoint of toothpick [i]: the bottom end plus half the vector to the
    top end *)
Definition te_midpoint (coords : list (vec3 float)) (i : nat)
    : option (vec3 float) :=
  p ← coords !! (2 * i); q ← coords !! (2 * i + 1);
  Some (vadd q (vdivs (vsub p q) ftwo)).

(** the stations of the arc: the midpoints of the [n] toothpicks, then the
    trailing edge point *)
Definition te_station (coords : list (vec3 float)) (n i : nat)
    : option (vec3 float) :=
  if decide (i < n) then te_midpoint coords i else coords !! (2 * n).

(** the chord between station [i] and the next *)
Definition te_chord (coords : list (vec3 float)) (n i : nat) : option float :=
  a ← te_station coords n i; b ← te_station coords n (i + 1);
  Some (TESlopeConstraint.row_norm (vsub a b)).

(** * Proofs *)

(** ** Running the monad *)

Ltac run :=
  unfold write, get_self, set_self, in_world, DVGeo_addPointSet, DVGeo_update,
    DVGeo_getNDV, DVGeo_totalSensitivity, handle_write, bind, ret, raise, gets,
    modify, lift_opt;
  cbn [self world dvgeo calls file fst snd id].

(** unfold the binds of the option monad, and nothing else *)
Ltac obind := cbn [mbind option_bind].

(** the laws of the monad, state by state *)
Lemma bind_ret_l {S A B} (a : A) (k : A → M S B) (s : S) :
  bind (ret a) k s = k a s.
Proof. done. Qed.

Lemma bind_ret_r {S A} (m : M S A) (s : S) : bind m ret s = m s.
Proof. unfold bind, ret. by destruct (m s) as [s' [a|]]. Qed.

Lemma bind_assoc {S A B C} (m : M S A) (k : A → M S B) (h : B → M S C) (s : S) :
  bind (bind m k) h s = bind m (λ a, bind (k a) h) s.
Proof. unfold bind. by destruct (m s) as [s' [a|]]. Qed.

(** an exception ends the computation and keeps the state *)
Lemma bind_raise {S A B} (k : A → M S B) (s : S) : bind raise k s = (s, None).
Proof. done. Qed.

(** ** The constraints on concrete coordinates *)

Section Runs.
Import Model.

(** the constructors build the objects of [Examples] *)
Example thickness_init_runs :
  ThicknessConstraint.init "t" Examples.toothpicks None None true 1%float false tt
    (Examples.world_with ["t"] 1)
  = (Examples.thickness_world 1, Some Examples.thickness).
Proof. reflexivity. Qed.

Example ksmax_init_runs :
  KSMaxThicknessToChordConstraint.init "ks" Examples.toothpicks Examples.le_pt
    Examples.te_pt 50%float "continuous" true None None true 1%float false tt
    (world0 [] 1)
  = (Examples.ksmax_world [] 1, Some (Examples.ksmax true [0.5; 1]%float 1%float)).
Proof. reflexivity. Qed.

(** a constructor that raises has registered its points all the same: four
    points are not toothpicks and a trailing edge point *)
Example teslope_init_raises :
  TESlopeConstraint.init "te" Examples.toothpicks None None true 1%float false tt
    (world0 [] 1)
  = (mkWorld (mkEngine [("te", Examples.toothpicks)] [] 1)
             [CAddPointSet Examples.toothpicks "te" tt None] [],
     None).
Proof. reflexivity. Qed.

(** two coordinates are read as no toothpick and a trailing edge point *)
Example teslope_init_two_points :
  (TESlopeConstraint.init "te" [V3 0 0 0; V3 1 0 0]%float None None true 1%float
     false tt (world0 [] 1)).2
  = Some (TESlopeConstraint.mk (mkBase "te" 0 None None 1%float false)
            [V3 0 0 0; V3 1 0 0]%float true []).
Proof. reflexivity. Qed.

(** thickness over arc length to the trailing edge, scaled by the baseline *)
Example teslope_evalFunctions_runs :
  (TESlopeConstraint.evalFunctions ∅ tt
     (mkSys Examples.teslope Examples.teslope_world)).2
  = Some (<["te" := FArray [1; 1]%float]> ∅).
Proof. by vm_compute. Qed.

(** the complex-step Jacobian of the same constraint: the midpoints and the
    trailing edge point are stored into a float64 array, so the columns hold
    the derivative through the thicknesses *)
Example teslope_evalFunctionsSens_runs :
  calls (world (TESlopeConstraint.evalFunctionsSens ∅ tt
                  (mkSys Examples.teslope Examples.teslope_world)).1) !! 2
  = Some (CTotalSensitivity
            (Seed3 [[V3 0 0.5 0; V3 0 (-0.5) 0; V3 0 0 0; V3 0 0 0; V3 0 0 0];
                    [V3 0 0 0; V3 0 0 0; V3 0 1 0; V3 0 (-1) 0; V3 0 0 0]]%float)
            "te" tt).
Proof. by vm_compute. Qed.
End Runs.

Section Frame.
Context `{DVGeoAPI} `{PyFormat}.

Lemma only_writes_ret {O A} (a : A) : only_writes (ret a : M (Sys O) A).
Proof. intros s. cbn. repeat split. exists []. by rewrite app_nil_r. Qed.

Lemma only_writes_lift_opt {O A} (o : option A) :
  only_writes (lift_opt o : M (Sys O) A).
Proof. intros s. cbn. repeat split. exists []. by rewrite app_nil_r. Qed.

Lemma only_writes_get_self {O A} (f : O → A) : only_writes (get_self f).
Proof. intros s. cbn. repeat split. exists []. by rewrite app_nil_r. Qed.

Lemma only_writes_write {O} (line : string) : only_writes (write (O:=O) line).
Proof. intros s. cbn. repeat split. by exists [line]. Qed.

Lemma only_writes_bind {O A B} (m : M (Sys O) A) (k : A → M (Sys O) B) :
  only_writes m → (∀ a, only_writes (k a)) → only_writes (bind m k).
Proof.
  intros Hm Hk s. unfold bind. specialize (Hm s).
  destruct (m s) as [s1 [a|]]; cbn in *.
  - destruct Hm as (Hs & Hg & Hc & l1 & Hf).
    destruct (Hk a s1) as (Hs' & Hg' & Hc' & l2 & Hf').
    rewrite Hs', Hg', Hc', Hf', Hs, Hg, Hc, Hf. repeat split.
    exists (l1 ++ l2). by rewrite app_assoc.
  - exact Hm.
Qed.

Lemma only_writes_for_eachM {O A} (body : A → M (Sys O) unit) (l : list A) :
  (∀ a, only_writes (body a)) → only_writes (for_eachM body l).
Proof.
  intros Hb. induction l as [|a l IH]; cbn.
  - apply only_writes_ret.
  - apply only_writes_bind; [apply Hb | intros _; apply IH].
Qed.

Lemma only_writes_points {O} (get : O → list (vec3 float)) (n : nat) :
  only_writes (write_points get n).
Proof.
  apply only_writes_for_eachM. intros i.
  apply only_writes_bind; [apply only_writes_get_self | intros c].
  apply only_writes_bind; [apply only_writes_lift_opt | intros p].
  apply only_writes_write.
Qed.

Lemma only_writes_conn {O} (n : nat) : only_writes (write_conn (O:=O) n).
Proof. apply only_writes_for_eachM. intros i. apply only_writes_write. Qed.
End Frame.

Create HintDb frame discriminated.
#[export] Hint Resolve only_writes_ret only_writes_lift_opt only_writes_get_self
  only_writes_write only_writes_points only_writes_conn : frame.

(** every step of a method is one of the above *)
Ltac frame_steps :=
  repeat first
    [ progress eauto with frame
    | apply only_writes_bind; [| intros ?]
    | apply only_writes_for_eachM; intros ? ].

(** C7.  [writeTecplot] of every constraint class only writes text to the
    file handle: whether it returns or raises, the constraint object (all of
    its attributes), the engine and the calls made to the engine are left as
    they were, and the file holds its former content followed by the lines
    written. *)
Theorem writeTecplot_only_writes `{DVGeoAPI} `{GeoUtils} `{Numpy} `{PyFormat} :
  only_writes ThicknessConstraint.writeTecplot
  ∧ only_writes ProjectedThicknessConstraint.writeTecplot
  ∧ only_writes ThicknessToChordConstraint.writeTecplot
  ∧ only_writes KSMaxThicknessToChordConstraint.writeTecplot
  ∧ only_writes TESlopeConstraint.writeTecplot
  ∧ (∀ last_line, only_writes (ProximityConstraint.writeTecplot last_line)).
Proof.
  repeat apply conj; try intros last_line.
  - unfold ThicknessConstraint.writeTecplot. frame_steps.
  - unfold ProjectedThicknessConstraint.writeTecplot,
      ProjectedThicknessConstraint.write_direction. frame_steps.
  - unfold ThicknessToChordConstraint.writeTecplot. frame_steps.
  - unfold KSMaxThicknessToChordConstraint.writeTecplot. frame_steps.
  - unfold TESlopeConstraint.writeTecplot. frame_steps.
  - unfold ProximityConstraint.writeTecplot, ProximityConstraint.write_pair.
    frame_steps.
Qed.

(** ** Constructors *)

(** C5.  Every constructor registers its coordinates with the engine before
    it computes its baseline: whether the baseline computation returns or
    raises, the world the constructor leaves is the one it found with the
    point sets added to the engine and the [addPointSet] calls, and no other,
    appended to the calls.  ThicknessConstraint, ProjectedThicknessConstraint,
    ThicknessToChordConstraint and TESlopeConstraint add one point set under
    the name of the constraint; KSMaxThicknessToChordConstraint adds the
    toothpicks as [name_coords] and then the leading and trailing edge points
    as [name_lete]; ProximityConstraint adds [name_A] and then [name_B]. *)
Theorem constructors_register_point_sets `{DVGeoAPI} `{GeoUtils} `{Numpy} :
  (∀ name coords lower upper scaled scale addToPyOpt compNames w,
     (ThicknessConstraint.init name coords lower upper scaled scale
        addToPyOpt compNames w).1
     = mkWorld (dv_addPointSet (dvgeo w) coords name compNames None)
               (calls w ++ [CAddPointSet coords name compNames None]) (file w))
  ∧ (∀ name coords lower upper scaled scale addToPyOpt compNames w,
     (ProjectedThicknessConstraint.init name coords lower upper scaled scale
        addToPyOpt compNames w).1
     = mkWorld (dv_addPointSet (dvgeo w) coords name compNames None)
               (calls w ++ [CAddPointSet coords name compNames None]) (file w))
  ∧ (∀ name coords lower upper scale addToPyOpt compNames w,
     (ThicknessToChordConstraint.init name coords lower upper scale
        addToPyOpt compNames w).1
     = mkWorld (dv_addPointSet (dvgeo w) coords name compNames None)
               (calls w ++ [CAddPointSet coords name compNames None]) (file w))
  ∧ (∀ name coords lower upper scaled scale addToPyOpt compNames w,
     (TESlopeConstraint.init name coords lower upper scaled scale
        addToPyOpt compNames w).1
     = mkWorld (dv_addPointSet (dvgeo w) coords name compNames None)
               (calls w ++ [CAddPointSet coords name compNames None]) (file w))
  ∧ (∀ name coords lePt tePt rho ksApproach divideByChord lower upper scaled
       scale addToPyOpt compNames w,
     (KSMaxThicknessToChordConstraint.init name coords lePt tePt rho ksApproach
        divideByChord lower upper scaled scale addToPyOpt compNames w).1
     = mkWorld
         (dv_addPointSet
            (dv_addPointSet (dvgeo w) coords (name +:+ "_coords") compNames None)
            [lePt; tePt] (name +:+ "_lete") compNames None)
         (calls w ++ [CAddPointSet coords (name +:+ "_coords") compNames None;
                      CAddPointSet [lePt; tePt] (name +:+ "_lete") compNames None])
         (file w))
  ∧ (∀ name coordsA coordsB kwA kwB lower upper scaled scale addToPyOpt
       compNames w,
     (ProximityConstraint.init name coordsA coordsB kwA kwB lower upper scaled
        scale addToPyOpt compNames w).1
     = mkWorld
         (dv_addPointSet
            (dv_addPointSet (dvgeo w) coordsA (name +:+ "_A") compNames (Some kwA))
            coordsB (name +:+ "_B") compNames (Some kwB))
         (calls w ++ [CAddPointSet coordsA (name +:+ "_A") compNames (Some kwA);
                      CAddPointSet coordsB (name +:+ "_B") compNames (Some kwB)])
         (file w)).
Proof.
  repeat apply conj; intros.
  - unfold ThicknessConstraint.init. run. by case_match.
  - unfold ProjectedThicknessConstraint.init. run. by case_match.
  - unfold ThicknessToChordConstraint.init. run. by case_match.
  - unfold TESlopeConstraint.init. run. by case_match.
  - unfold KSMaxThicknessToChordConstraint.init. run.
    rewrite <- app_assoc. by case_match.
  - unfold ProximityConstraint.init. run.
    rewrite <- app_assoc. by case_match.
Qed.

(** ** No design variables *)

(** C8.  When [DVGeo.getNDV()] returns 0, [evalFunctionsSens] of every
    constraint class returns the [funcsSens] dictionary it was given,
    unchanged; the only call it makes to the engine is [getNDV] (so
    [totalSensitivity] is not called), and the object is as before. *)
Theorem evalFunctionsSens_no_design_variables `{DVGeoAPI} `{GeoUtils} `{Numpy}
    (funcsSens : gmap string (gmap string Sens)) (config : Config) :
  (∀ s, dv_getNDV (dvgeo (world s)) = 0%Z →
     ThicknessConstraint.evalFunctionsSens funcsSens config s
     = (after_getNDV s, Some funcsSens))
  ∧ (∀ s, dv_getNDV (dvgeo (world s)) = 0%Z →
     ProjectedThicknessConstraint.evalFunctionsSens funcsSens config s
     = (after_getNDV s, Some funcsSens))
  ∧ (∀ s, dv_getNDV (dvgeo (world s)) = 0%Z →
     ThicknessToChordConstraint.evalFunctionsSens funcsSens config s
     = (after_getNDV s, Some funcsSens))
  ∧ (∀ s, dv_getNDV (dvgeo (world s)) = 0%Z →
     KSMaxThicknessToChordConstraint.evalFunctionsSens funcsSens config s
     = (after_getNDV s, Some funcsSens))
  ∧ (∀ s, dv_getNDV (dvgeo (world s)) = 0%Z →
     TESlopeConstraint.evalFunctionsSens funcsSens config s
     = (after_getNDV s, Some funcsSens))
  ∧ (∀ s, dv_getNDV (dvgeo (world s)) = 0%Z →
     ProximityConstraint.evalFunctionsSens funcsSens config s
     = (after_getNDV s, Some funcsSens)).
Proof.
  repeat apply conj; intros s HnDV.
  - unfold ThicknessConstraint.evalFunctionsSens. run. by rewrite HnDV.
  - unfold ProjectedThicknessConstraint.evalFunctionsSens. run. by rewrite HnDV.
  - unfold ThicknessToChordConstraint.evalFunctionsSens. run. by rewrite HnDV.
  - unfold KSMaxThicknessToChordConstraint.evalFunctionsSens. run. by rewrite HnDV.
  - unfold TESlopeConstraint.evalFunctionsSens. run. by rewrite HnDV.
  - unfold ProximityConstraint.evalFunctionsSens. run. by rewrite HnDV.
Qed.

(** ** Loops that fill an array *)

Lemma mapM_ext_Forall {A B} (f g : A → option B) (l : list A) :
  Forall (λ x, f x = g x) l → mapM f l = mapM g l.
Proof.
  induction 1 as [|x l Hx _ IH]; [done|]. cbn. by rewrite Hx, IH.
Qed.

(** A loop over [range(a, a + k)] whose turn [i] replaces entry [i] of the
    array by a value computed from the entry leaves the entries below [a] and
    collects the new values. *)
Lemma for_each_fill {A} (g : nat → A → option A)
    (body : nat → list A → option (list A)) :
  (∀ i D x, D !! i = Some x → body i D = (v ← g i x; Some (<[i:=v]> D))) →
  ∀ k a D, length D = a + k →
    for_each body (seq a k) D
    = (vs ← mapM (λ i, x ← D !! i; g i x) (seq a k); Some (take a D ++ vs)).
Proof.
  intros Hb k. induction k as [|k IH]; intros a D Hlen.
  - cbn. f_equal. rewrite app_nil_r, take_ge; [done|lia].
  - cbn [seq for_each]. destruct (lookup_lt_is_Some_2 D a) as [x Hx]; [lia|].
    rewrite (Hb _ _ _ Hx). cbn. rewrite Hx. cbn.
    destruct (g a x) as [v|]; [|done]. cbn.
    rewrite IH by (rewrite length_insert; lia).
    rewrite (mapM_ext_Forall (λ i, x0 ← <[a:=v]> D !! i; g i x0)
                             (λ i, x0 ← D !! i; g i x0)).
    2:{ apply Forall_forall. intros i Hi. apply elem_of_seq in Hi.
        by rewrite list_lookup_insert_ne by lia. }
    destruct (mapM _ (seq (S a) k)) as [vs|]; [|done]. cbn. f_equal.
    rewrite (take_S_r _ _ v) by (apply list_lookup_insert_eq; lia).
    rewrite take_insert_ge by lia. by rewrite <- app_assoc.
Qed.

Lemma for_range_fill {A} (g : nat → A → option A)
    (body : nat → list A → option (list A)) (n : nat) (z : A) :
  (∀ i D x, D !! i = Some x → body i D = (v ← g i x; Some (<[i:=v]> D))) →
  for_range n body (replicate n z) = mapM (λ i, g i z) (seq 0 n).
Proof.
  intros Hb. unfold for_range.
  rewrite (for_each_fill g body Hb) by (rewrite length_replicate; lia).
  rewrite (mapM_ext_Forall _ (λ i, g i z)).
  2:{ apply Forall_forall. intros i Hi. apply elem_of_seq in Hi.
      by rewrite lookup_replicate_2 by lia. }
  by destruct (mapM _ _).
Qed.

Lemma mapM_seq_lookup {A} (g : nat → option A) (n : nat) (vs : list A) :
  mapM g (seq 0 n) = Some vs →
  length vs = n ∧ ∀ i, i < n → ∃ v, g i = Some v ∧ vs !! i = Some v.
Proof.
  intros Hm. apply mapM_Some in Hm. split.
  - apply Forall2_length in Hm. by rewrite length_seq in Hm.
  - intros i Hi.
    destruct (Forall2_lookup_l _ _ _ i i Hm) as (v & Hv & Hg); [|by eauto].
    by apply lookup_seq_lt.
Qed.

Lemma mapM_seq_is_Some {A} (g : nat → option A) (n : nat) :
  (∀ i, i < n → is_Some (g i)) → is_Some (mapM g (seq 0 n)).
Proof.
  intros Hg. apply mapM_is_Some, Forall_forall. intros i Hi.
  apply elem_of_seq in Hi. apply Hg. lia.
Qed.

Lemma set_item_lt {A} (i : nat) (v : A) (a : list A) :
  i < length a → set_item i v a = Some (<[i:=v]> a).
Proof. intros Hi. unfold set_item. by rewrite decide_True. Qed.

(** ** ThicknessConstraint: values *)

Section ThicknessValues.
Context `{DVGeoAPI} `{GeoUtils}.
Import ThicknessConstraint.

Lemma Thickness_init_body_fill coords i (D : list float) x :
  D !! i = Some x →
  init_body coords i D = (v ← toothpick_length coords i; Some (<[i:=v]> D)).
Proof.
  intros HD. apply lookup_lt_Some in HD. unfold init_body, toothpick_length.
  destruct (coords !! (2 * i)) as [p|]; obind; [|done].
  destruct (coords !! (2 * i + 1)) as [q|]; obind; [|done].
  by apply set_item_lt.
Qed.

Lemma Thickness_eval_body_fill o i (D : list float) x :
  D !! i = Some x →
  eval_body o i D
  = (v ← (d ← toothpick_length (coords o) i; scaled_by (scaled o) (D0 o) i d);
     Some (<[i:=v]> D)).
Proof.
  intros HD. apply lookup_lt_Some in HD.
  unfold eval_body, toothpick_length, scaled_by.
  destruct (coords o !! (2 * i)) as [p|]; obind; [|done].
  destruct (coords o !! (2 * i + 1)) as [q|]; obind; [|done].
  rewrite set_item_lt by done. obind.
  destruct (scaled o); [|done].
  rewrite list_lookup_insert_eq by done. obind.
  destruct (D0 o !! i) as [d0|]; obind; [|done].
  rewrite set_item_lt by (by rewrite length_insert).
  by rewrite list_insert_insert_eq.
Qed.

(** what the constructor returns *)
Lemma Thickness_init_spec nm coords0 lo up sc scl add cn w0 w1 o0 :
  init nm coords0 lo up sc scl add cn w0 = (w1, Some o0) →
  base o0 = mkBase nm (length coords0 / 2) lo up scl add
  ∧ scaled o0 = sc
  ∧ mapM (toothpick_length coords0) (seq 0 (length coords0 / 2)) = Some (D0 o0).
Proof.
  unfold init. run. unfold zeros.
  rewrite (for_range_fill (λ i _, toothpick_length coords0 i))
    by apply Thickness_init_body_fill.
  intros Hi. destruct (mapM _ _) as [D|]; [|done]. by simplify_eq.
Qed.

(** [evalFunctions] as one equation: the state it leaves and its result *)
Lemma Thickness_evalFunctions_run (s : Sys t) funcs config :
  evalFunctions funcs config s
  = let o := self s in
    let nm := name (base o) in
    let '(g, c) := dv_update (dvgeo (world s)) nm config in
    (mkSys (set_coords c o)
       (mkWorld g (calls (world s) ++ [CUpdate nm config]) (file (world s))),
     D ← mapM (λ i, d ← toothpick_length c i; scaled_by (scaled o) (D0 o) i d)
            (seq 0 (nCon (base o)));
     Some (<[nm := FArray D]> funcs)).
Proof.
  unfold evalFunctions. run. destruct (dv_update _ _ _) as [g c].
  cbn [self world dvgeo calls file fst snd set_coords base coords scaled D0].
  unfold zeros.
  rewrite (for_range_fill (λ i _, d ← toothpick_length c i;
                                  scaled_by (scaled (self s)) (D0 (self s)) i d)).
  2:{ intros i D x HD. by rewrite (Thickness_eval_body_fill _ _ _ _ HD). }
  by destruct (mapM _ _).
Qed.
End ThicknessValues.

(** ** ProximityConstraint: values *)

Section ProximityValues.
Context `{DVGeoAPI} `{GeoUtils}.
Import ProximityConstraint.

Lemma Proximity_init_body_fill cA cB i (D : list float) x :
  D !! i = Some x →
  init_body cA cB i D = (v ← pair_distance cA cB i; Some (<[i:=v]> D)).
Proof.
  intros HD. apply lookup_lt_Some in HD. unfold init_body, pair_distance.
  destruct (cA !! i) as [p|]; obind; [|done].
  destruct (cB !! i) as [q|]; obind; [|done].
  by apply set_item_lt.
Qed.

Lemma Proximity_eval_body_fill o i (D : list float) x :
  D !! i = Some x →
  eval_body o i D
  = (v ← (d ← pair_distance (coordsA o) (coordsB o) i;
          scaled_by (scaled o) (D0 o) i d);
     Some (<[i:=v]> D)).
Proof.
  intros HD. apply lookup_lt_Some in HD.
  unfold eval_body, pair_distance, scaled_by.
  destruct (coordsA o !! i) as [p|]; obind; [|done].
  destruct (coordsB o !! i) as [q|]; obind; [|done].
  rewrite set_item_lt by done. obind.
  destruct (scaled o); [|done].
  rewrite list_lookup_insert_eq by done. obind.
  destruct (D0 o !! i) as [d0|]; obind; [|done].
  rewrite set_item_lt by (by rewrite length_insert).
  by rewrite list_insert_insert_eq.
Qed.

Lemma Proximity_init_spec nm cA0 cB0 kwA kwB lo up sc scl add cn w0 w1 o0 :
  init nm cA0 cB0 kwA kwB lo up sc scl add cn w0 = (w1, Some o0) →
  base o0 = mkBase nm (length cA0) lo up scl add
  ∧ scaled o0 = sc
  ∧ mapM (pair_distance cA0 cB0) (seq 0 (length cA0)) = Some (D0 o0).
Proof.
  unfold init. run. unfold zeros.
  rewrite (for_range_fill (λ i _, pair_distance cA0 cB0 i))
    by apply Proximity_init_body_fill.
  intros Hi. destruct (mapM _ _) as [D|]; [|done]. by simplify_eq.
Qed.

Lemma Proximity_evalFunctions_run (s : Sys t) funcs config :
  evalFunctions funcs config s
  = let o := self s in
    let nm := name (base o) in
    let '(gA, cA) := dv_update (dvgeo (world s)) (A_name nm) config in
    let '(gB, cB) := dv_update gA (B_name nm) config in
    (mkSys (set_coordsB cB (set_coordsA cA o))
       (mkWorld gB
          (calls (world s) ++ [CUpdate (A_name nm) config; CUpdate (B_name nm) config])
          (file (world s))),
     D ← mapM (λ i, d ← pair_distance cA cB i; scaled_by (scaled o) (D0 o) i d)
            (seq 0 (nCon (base o)));
     Some (<[nm := FArray D]> funcs)).
Proof.
  unfold evalFunctions. run. destruct (dv_update _ _ _) as [gA cA].
  cbn [self world dvgeo calls file fst snd].
  destruct (dv_update _ _ _) as [gB cB].
  cbn [self world dvgeo calls file fst snd set_coordsA set_coordsB
       base coordsA coordsB scaled D0].
  unfold zeros. rewrite <- app_assoc. cbn [app].
  rewrite (for_range_fill (λ i _, d ← pair_distance cA cB i;
                                  scaled_by (scaled (self s)) (D0 (self s)) i d)).
  2:{ intros i D x HD. by rewrite (Proximity_eval_body_fill _ _ _ _ HD). }
  by destruct (mapM _ _).
Qed.
End ProximityValues.

(** C1.  [evalFunctions] of a ThicknessConstraint built from [coords0] stores
    under [funcs[name]] an array of [nCon = len(coords0) // 2] entries; entry
    [i] is the Euclidean distance between the points [2 i] and [2 i + 1] of the
    coordinates returned by [DVGeo.update], divided when [scaled] by [D0[i]],
    the distance between the same two points of [coords0].  For a
    ProximityConstraint built from [coordsA0] and [coordsB0] the array has
    [len(coordsA0)] entries and entry [i] is the distance between point [i] of
    the two arrays returned by [DVGeo.update], divided when [scaled] by the
    distance between point [i] of [coordsA0] and of [coordsB0].  The engine is
    taken to return at least the points the constraints index. *)
Theorem evalFunctions_distances `{DVGeoAPI} `{GeoUtils} :
  (∀ nm coords0 lo up sc scl add cn w0 w1 (o0 : ThicknessConstraint.t),
     ThicknessConstraint.init nm coords0 lo up sc scl add cn w0 = (w1, Some o0) →
     ∀ (s : Sys ThicknessConstraint.t) funcs config g c,
       ThicknessConstraint.base (self s) = ThicknessConstraint.base o0 →
       ThicknessConstraint.scaled (self s) = ThicknessConstraint.scaled o0 →
       ThicknessConstraint.D0 (self s) = ThicknessConstraint.D0 o0 →
       dv_update (dvgeo (world s)) nm config = (g, c) →
       2 * (length coords0 / 2) ≤ length c →
       ∃ D, (ThicknessConstraint.evalFunctions funcs config s).2
            = Some (<[nm := FArray D]> funcs)
          ∧ length D = length coords0 / 2
          ∧ ∀ i, i < length coords0 / 2 →
              ∃ d d0, toothpick_length c i = Some d
                    ∧ toothpick_length coords0 i = Some d0
                    ∧ ThicknessConstraint.D0 o0 !! i = Some d0
                    ∧ D !! i = Some (if sc then (d / d0)%float else d))
  ∧ (∀ nm cA0 cB0 kwA kwB lo up sc scl add cn w0 w1 (o0 : ProximityConstraint.t),
     ProximityConstraint.init nm cA0 cB0 kwA kwB lo up sc scl add cn w0
     = (w1, Some o0) →
     ∀ (s : Sys ProximityConstraint.t) funcs config gA cA gB cB,
       ProximityConstraint.base (self s) = ProximityConstraint.base o0 →
       ProximityConstraint.scaled (self s) = ProximityConstraint.scaled o0 →
       ProximityConstraint.D0 (self s) = ProximityConstraint.D0 o0 →
       dv_update (dvgeo (world s)) (nm +:+ "_A") config = (gA, cA) →
       dv_update gA (nm +:+ "_B") config = (gB, cB) →
       length cA0 ≤ length cA → length cA0 ≤ length cB →
       ∃ D, (ProximityConstraint.evalFunctions funcs config s).2
            = Some (<[nm := FArray D]> funcs)
          ∧ length D = length cA0
          ∧ ∀ i, i < length cA0 →
              ∃ d d0, pair_distance cA cB i = Some d
                    ∧ pair_distance cA0 cB0 i = Some d0
                    ∧ ProximityConstraint.D0 o0 !! i = Some d0
                    ∧ D !! i = Some (if sc then (d / d0)%float else d)).
Proof.
  split.
  - intros nm coords0 lo up sc scl add cn w0 w1 o0 Hinit s funcs config g c
      Hbase Hsc HD0 Hupd Hlen.
    apply Thickness_init_spec in Hinit as (Hb0 & Hs0 & HmD0).
    destruct (mapM_seq_lookup _ _ _ HmD0) as [HlenD0 HD0i].
    rewrite Thickness_evalFunctions_run. cbv zeta.
    rewrite Hbase, Hsc, HD0, Hb0, Hs0.
    cbn [name nCon]. rewrite Hupd. cbn [snd].
    destruct (mapM_seq_is_Some
                (λ i, d ← toothpick_length c i;
                      scaled_by sc (ThicknessConstraint.D0 o0) i d)
                (length coords0 / 2)) as [D HD].
    { intros i Hi. unfold toothpick_length, scaled_by.
      destruct (lookup_lt_is_Some_2 c (2 * i)) as [p ->]; [lia|].
      destruct (lookup_lt_is_Some_2 c (2 * i + 1)) as [q ->]; [lia|].
      destruct (HD0i i Hi) as (d0 & _ & ->). obind. destruct sc; by eexists. }
    rewrite HD. obind. exists D. split; [done|].
    destruct (mapM_seq_lookup _ _ _ HD) as [HlenD HDi]. split; [done|].
    intros i Hi. destruct (HDi i Hi) as (v & Hv & HDv).
    destruct (HD0i i Hi) as (d0 & Hd0 & HD0v).
    destruct (toothpick_length c i) as [d|] eqn:Hd; [|done].
    exists d, d0. repeat apply conj; try done.
    rewrite HDv. f_equal. unfold scaled_by in Hv. obind. cbn in Hv.
    destruct sc; [|by simplify_eq]. rewrite HD0v in Hv. cbn in Hv. by simplify_eq.
  - intros nm cA0 cB0 kwA kwB lo up sc scl add cn w0 w1 o0 Hinit s funcs config
      gA cA gB cB Hbase Hsc HD0 HupdA HupdB HlenA HlenB.
    apply Proximity_init_spec in Hinit as (Hb0 & Hs0 & HmD0).
    destruct (mapM_seq_lookup _ _ _ HmD0) as [HlenD0 HD0i].
    rewrite Proximity_evalFunctions_run. cbv zeta.
    rewrite Hbase, Hsc, HD0, Hb0, Hs0.
    cbn [name nCon]. unfold ProximityConstraint.A_name, ProximityConstraint.B_name.
    rewrite HupdA, HupdB. cbn [snd].
    destruct (mapM_seq_is_Some
                (λ i, d ← pair_distance cA cB i;
                      scaled_by sc (ProximityConstraint.D0 o0) i d)
                (length cA0)) as [D HD].
    { intros i Hi. unfold pair_distance, scaled_by.
      destruct (lookup_lt_is_Some_2 cA i) as [p ->]; [lia|].
      destruct (lookup_lt_is_Some_2 cB i) as [q ->]; [lia|].
      destruct (HD0i i Hi) as (d0 & _ & ->). obind. destruct sc; by eexists. }
    rewrite HD. obind. exists D. split; [done|].
    destruct (mapM_seq_lookup _ _ _ HD) as [HlenD HDi]. split; [done|].
    intros i Hi. destruct (HDi i Hi) as (v & Hv & HDv).
    destruct (HD0i i Hi) as (d0 & Hd0 & HD0v).
    destruct (pair_distance cA cB i) as [d|] eqn:Hd; [|done].
    exists d, d0. repeat apply conj; try done.
    rewrite HDv. f_equal. unfold scaled_by in Hv. cbn in Hv.
    destruct sc; [|by simplify_eq]. rewrite HD0v in Hv. cbn in Hv. by simplify_eq.
Qed.

Section DistancesInstance.
Import Model.

Lemma evalFunctions_distances_witness :
  (∃ D, (ThicknessConstraint.evalFunctions ∅ tt
           (mkSys Examples.thickness (Examples.thickness_world 1))).2
        = Some (<["t" := FArray D]> ∅)
      ∧ length D = 2
      ∧ ∀ i, i < 2 →
          ∃ d d0, toothpick_length Examples.toothpicks i = Some d
                ∧ toothpick_length Examples.toothpicks i = Some d0
                ∧ [1; 2]%float !! i = Some d0
                ∧ D !! i = Some (d / d0)%float)
  ∧ (∃ D, (ProximityConstraint.evalFunctions ∅ tt
             (mkSys Examples.proximity (Examples.proximity_world 1))).2
          = Some (<["p" := FArray D]> ∅)
        ∧ length D = 2
        ∧ ∀ i, i < 2 →
            ∃ d d0, pair_distance Examples.lower_ends Examples.upper_ends i = Some d
                  ∧ pair_distance Examples.lower_ends Examples.upper_ends i = Some d0
                  ∧ [1; 2]%float !! i = Some d0
                  ∧ D !! i = Some (d / d0)%float).
Proof.
  split.
  - apply (proj1 (@evalFunctions_distances Model.engine Model.geo_utils)
             "t" Examples.toothpicks None None true 1%float false tt
             (Examples.world_with ["t"] 1) (Examples.thickness_world 1)
             Examples.thickness eq_refl
             (mkSys Examples.thickness (Examples.thickness_world 1)) ∅ tt
             (dvgeo (Examples.thickness_world 1)) Examples.toothpicks
             eq_refl eq_refl eq_refl eq_refl).
    vm_compute. lia.
  - apply (proj2 (@evalFunctions_distances Model.engine Model.geo_utils)
             "p" Examples.lower_ends Examples.upper_ends tt tt None None true
             1%float false tt
             (Examples.world_with ["p_A"; "p_B"] 1) (Examples.proximity_world 1)
             Examples.proximity eq_refl
             (mkSys Examples.proximity (Examples.proximity_world 1)) ∅ tt
             (dvgeo (Examples.proximity_world 1)) Examples.lower_ends
             (dvgeo (Examples.proximity_world 1)) Examples.upper_ends
             eq_refl eq_refl eq_refl eq_refl eq_refl).
    + vm_compute. lia.
    + vm_compute. lia.
Defined.
End DistancesInstance.

Section NoDesignVariablesInstance.
Import Model.

Lemma evalFunctionsSens_no_design_variables_witness :
  ThicknessConstraint.evalFunctionsSens ∅ tt
    (mkSys Examples.thickness (Examples.thickness_world 0))
  = (after_getNDV (mkSys Examples.thickness (Examples.thickness_world 0)), Some ∅)
  ∧ ProximityConstraint.evalFunctionsSens ∅ tt
      (mkSys Examples.proximity (Examples.proximity_world 0))
    = (after_getNDV (mkSys Examples.proximity (Examples.proximity_world 0)), Some ∅).
Proof.
  pose proof (@evalFunctionsSens_no_design_variables
                Model.engine Model.geo_utils Model.numpy ∅ tt)
    as (Hthickness & _ & _ & _ & _ & Hproximity).
  split.
  - apply Hthickness. reflexivity.
  - apply Hproximity. reflexivity.
Defined.
End NoDesignVariablesInstance.

(** ** KSMaxThicknessToChordConstraint: value *)

Section KSMaxValue.
Context `{DVGeoAPI} `{GeoUtils} `{Numpy}.
Import KSMaxThicknessToChordConstraint.

Lemma KSMax_toc_body_fill divide coords lePt tePt i (D : list float) x :
  D !! i = Some x →
  toc_body divide coords lePt tePt i D
  = (v ← toc_ratio divide coords lePt tePt i; Some (<[i:=v]> D)).
Proof.
  intros HD. apply lookup_lt_Some in HD. unfold toc_body, toc_ratio.
  destruct (coords !! (2 * i)) as [p|]; obind; [|done].
  destruct (coords !! (2 * i + 1)) as [q|]; obind; [|done].
  destruct lePt as [le|]; obind; [|done].
  destruct tePt as [te|]; obind; [|done].
  destruct divide; by apply set_item_lt.
Qed.

Lemma toc_ratio_is_ToC divide coords le te n ToC :
  mapM (toc_ratio divide coords (Some le) (Some te)) (seq 0 n) = Some ToC →
  is_ToC divide coords le te n ToC.
Proof.
  intros Hm. destruct (mapM_seq_lookup _ _ _ Hm) as [Hlen Hi].
  split; [done|]. intros i Hlt. destruct (Hi i Hlt) as (v & Hv & HT).
  unfold toc_ratio in Hv.
  destruct (coords !! (2 * i)) as [p|]; [|done].
  destruct (coords !! (2 * i + 1)) as [q|]; [|done].
  cbn in Hv. exists p, q. by simplify_eq.
Qed.

Lemma KSMax_init_spec nm coords0 lePt tePt rh ks divide lo up sc scl add cn
    w0 w1 o0 :
  init nm coords0 lePt tePt rh ks divide lo up sc scl add cn w0 = (w1, Some o0) →
  nPoint o0 = length coords0 / 2
  ∧ base o0 = mkBase nm 1 lo up scl add
  ∧ scaled o0 = sc ∧ rho o0 = rh ∧ ksApproach o0 = ks ∧ divideByChord o0 = divide
  ∧ is_ToC divide coords0 lePt tePt (length coords0 / 2) (ToC0 o0)
  ∧ max0 o0 = KS_compute (ToC0 o0) rh ks.
Proof.
  unfold init. run. unfold zeros.
  rewrite (for_range_fill (λ i _, toc_ratio divide coords0 (Some lePt) (Some tePt) i))
    by apply KSMax_toc_body_fill.
  intros Hi. destruct (mapM _ _) as [D|] eqn:HD; [|done]. simplify_eq.
  cbn [nPoint base scaled rho ksApproach divideByChord ToC0 max0].
  do 6 (split; [done|]). split; [by apply toc_ratio_is_ToC | done].
Qed.

Lemma KSMax_evalFunctions_run (s : Sys t) funcs config :
  evalFunctions funcs config s
  = let o := self s in
    let nm := name (base o) in
    let '(g1, c) := dv_update (dvgeo (world s)) (coords_name nm) config in
    let '(g2, lt) := dv_update g1 (lete_name nm) config in
    (mkSys (set_leTePts lt (set_coords c o))
       (mkWorld g2
          (calls (world s)
           ++ [CUpdate (coords_name nm) config; CUpdate (lete_name nm) config])
          (file (world s))),
     ToC ← mapM (toc_ratio (divideByChord o) c (lt !! 0) (lt !! 1))
              (seq 0 (nPoint o));
     let maxToC := KS_compute ToC (rho o) (ksApproach o) in
     Some (<[nm := FScalar (if scaled o then (maxToC / max0 o)%float else maxToC)]>
             funcs)).
Proof.
  unfold evalFunctions. run. destruct (dv_update _ _ _) as [g1 c].
  cbn [self world dvgeo calls file fst snd].
  destruct (dv_update _ _ _) as [g2 lt].
  cbn [self world dvgeo calls file fst snd set_coords set_leTePts
       base coords leTePts scaled nPoint rho ksApproach divideByChord ToC0 max0].
  unfold zeros. rewrite <- app_assoc. cbn [app].
  rewrite (for_range_fill
             (λ i _, toc_ratio (divideByChord (self s)) c (lt !! 0) (lt !! 1) i))
    by apply KSMax_toc_body_fill.
  by destruct (mapM _ _).
Qed.
End KSMaxValue.

(** C2.  [evalFunctions] of a KSMaxThicknessToChordConstraint built from
    [coords0], [lePt] and [tePt] computes for each of the
    [nPoint = len(coords0) // 2] toothpicks the distance [t_i] between the
    points [2 i] and [2 i + 1] returned by [DVGeo.update] and the distance [c]
    between the leading and trailing edge points returned by [DVGeo.update],
    sets [ToC_i = t_i / c] when [divideByChord] and [ToC_i = t_i] otherwise,
    aggregates with [KSfunction.compute(ToC, rho, ksApproach)], divides by
    [max0] when [scaled], and stores that scalar under [funcs[name]]; [max0]
    is the aggregate of the same ratios of [coords0], [lePt] and [tePt].  The
    engine is taken to return at least the points the constraint indexes. *)
Theorem KSMax_evalFunctions_value `{DVGeoAPI} `{GeoUtils} `{Numpy}
    nm coords0 lePt tePt rh ks divide lo up sc scl add cn w0 w1
    (o0 : KSMaxThicknessToChordConstraint.t)
    (s : Sys KSMaxThicknessToChordConstraint.t) funcs config g1 c g2 le te rest :
  KSMaxThicknessToChordConstraint.init nm coords0 lePt tePt rh ks divide lo up
    sc scl add cn w0 = (w1, Some o0) →
  KSMaxThicknessToChordConstraint.nPoint (self s)
  = KSMaxThicknessToChordConstraint.nPoint o0 →
  KSMaxThicknessToChordConstraint.base (self s)
  = KSMaxThicknessToChordConstraint.base o0 →
  KSMaxThicknessToChordConstraint.scaled (self s) = sc →
  KSMaxThicknessToChordConstraint.rho (self s) = rh →
  KSMaxThicknessToChordConstraint.ksApproach (self s) = ks →
  KSMaxThicknessToChordConstraint.divideByChord (self s) = divide →
  KSMaxThicknessToChordConstraint.max0 (self s)
  = KSMaxThicknessToChordConstraint.max0 o0 →
  dv_update (dvgeo (world s)) (nm +:+ "_coords") config = (g1, c) →
  dv_update g1 (nm +:+ "_lete") config = (g2, le :: te :: rest) →
  2 * (length coords0 / 2) ≤ length c →
  ∃ ToC ToC0,
    is_ToC divide c le te (length coords0 / 2) ToC
    ∧ is_ToC divide coords0 lePt tePt (length coords0 / 2) ToC0
    ∧ (KSMaxThicknessToChordConstraint.evalFunctions funcs config s).2
      = Some (<[nm := FScalar (if sc
                               then (KS_compute ToC rh ks / KS_compute ToC0 rh ks)%float
                               else KS_compute ToC rh ks)]> funcs).
Proof.
  intros Hinit HnP Hbase Hsc Hrho Hks Hdiv Hmax Hupd1 Hupd2 Hlen.
  apply KSMax_init_spec in Hinit
    as (HnP0 & Hb0 & _ & _ & _ & _ & HToC0 & Hmax0).
  rewrite KSMax_evalFunctions_run. cbv zeta.
  rewrite HnP, Hbase, Hsc, Hrho, Hks, Hdiv, Hmax, Hb0, HnP0, Hmax0.
  cbn [name]. unfold KSMaxThicknessToChordConstraint.coords_name,
    KSMaxThicknessToChordConstraint.lete_name.
  rewrite Hupd1, Hupd2. cbn [snd lookup list_lookup].
  destruct (mapM_seq_is_Some (toc_ratio divide c (Some le) (Some te))
              (length coords0 / 2)) as [ToC HT].
  { intros i Hi. unfold toc_ratio.
    destruct (lookup_lt_is_Some_2 c (2 * i)) as [p ->]; [lia|].
    destruct (lookup_lt_is_Some_2 c (2 * i + 1)) as [q ->]; [lia|].
    obind. by eexists. }
  rewrite HT. obind.
  exists ToC, (KSMaxThicknessToChordConstraint.ToC0 o0).
  split; [by apply toc_ratio_is_ToC|]. by split.
Qed.

Section KSMaxValueInstance.
Import Model.

Lemma KSMax_evalFunctions_value_witness :
  ∃ ToC ToC0,
    is_ToC true Examples.toothpicks Examples.le_pt Examples.te_pt 2 ToC
    ∧ is_ToC true Examples.toothpicks Examples.le_pt Examples.te_pt 2 ToC0
    ∧ (KSMaxThicknessToChordConstraint.evalFunctions ∅ tt
         (mkSys (Examples.ksmax true [0.5; 1]%float 1%float)
                (Examples.ksmax_world [] 1))).2
      = Some (<["ks" := FScalar (KS_compute ToC 50 "continuous"
                                 / KS_compute ToC0 50 "continuous")%float]> ∅).
Proof.
  apply (@KSMax_evalFunctions_value Model.engine Model.geo_utils Model.numpy
           "ks" Examples.toothpicks Examples.le_pt Examples.te_pt 50%float
           "continuous" true None None true 1%float false tt
           (world0 [] 1) (Examples.ksmax_world [] 1)
           (Examples.ksmax true [0.5; 1]%float 1%float)
           (mkSys (Examples.ksmax true [0.5; 1]%float 1%float)
                  (Examples.ksmax_world [] 1))
           ∅ tt (dvgeo (Examples.ksmax_world [] 1)) Examples.toothpicks
           (dvgeo (Examples.ksmax_world [] 1)) Examples.le_pt Examples.te_pt []);
    reflexivity.
Defined.
End KSMaxValueInstance.

(** ** float64 facts *)

(** a finite float64 number other than zero, divided by itself, is 1 *)
Lemma float_div_self (x : float) : finite_nonzero x → (x / x)%float = 1%float.
Proof.
  intros [Hf Hz]. apply Prim2SF_inj. rewrite div_spec.
  unfold is_finite, is_nan, is_infinity, is_zero in *.
  rewrite !FloatAxioms.eqb_spec, FloatAxioms.abs_spec in Hf.
  rewrite FloatAxioms.eqb_spec in Hz.
  destruct (Prim2SF x) as [sg|sg| |sg m e] eqn:E.
  - destruct sg; cbn in Hz; discriminate.
  - destruct sg; cbn in Hf; discriminate.
  - cbn in Hf; discriminate.
  - clear Hf Hz E. unfold SF64div, SFdiv, SFdiv_core_binary.
    rewrite Bool.xorb_nilpotent.
    replace (Zdigits2 (Z.pos m) + e - (Zdigits2 (Z.pos m) + e))%Z with 0%Z by lia.
    replace (e - e)%Z with 0%Z by lia.
    change (IntDef.Z.min (fexp prec emax 0) 0) with (-53)%Z.
    change (0 - -53)%Z with 53%Z. cbv iota beta zeta.
    change IntDef.Z.shiftl with Z.shiftl. change IntDef.Z.div_eucl with Z.div_eucl.
    rewrite Z.shiftl_mul_pow2 by lia.
    assert (Hd : Z.div_eucl (Z.pos m * 2 ^ 53) (Z.pos m) = (2 ^ 53, 0)%Z).
    { assert (Hqr : ∀ a b, Z.div_eucl a b = (a `div` b, a `mod` b)%Z).
      { intros a b. unfold Z.div, Z.modulo. by destruct (Z.div_eucl a b). }
      by rewrite Hqr, Z.mul_comm, Z.div_mul, Z.mod_mul by lia. }
    rewrite Hd.
    assert (Hl : new_location (Z.pos m) 0 = loc_Exact).
    { unfold new_location, new_location_even, new_location_odd.
      by destruct (IntDef.Z.even (Z.pos m)). }
    rewrite Hl. vm_compute. reflexivity.
Qed.

(** ** ThicknessToChordConstraint: values *)

Section ToCValues.
Context `{DVGeoAPI} `{GeoUtils} `{Numpy}.
Import ThicknessToChordConstraint.

Lemma ToC_init_body_fill coords i (D : list float) x :
  D !! i = Some x →
  init_body coords i D = (v ← baseline_ratio coords i; Some (<[i:=v]> D)).
Proof.
  intros HD. apply lookup_lt_Some in HD. unfold init_body, baseline_ratio.
  destruct (coords !! (4 * i)) as [p1|]; obind; [|done].
  destruct (coords !! (4 * i + 1)) as [p2|]; obind; [|done].
  destruct (coords !! (4 * i + 2)) as [p3|]; obind; [|done].
  destruct (coords !! (4 * i + 3)) as [p4|]; obind; [|done].
  by apply set_item_lt.
Qed.

Lemma ToC_eval_body_fill o i (D : list float) x :
  D !! i = Some x →
  eval_body o i D
  = (v ← (r ← current_ratio (coords o) i; r0 ← ToC0 o !! i; Some (r / r0)%float);
     Some (<[i:=v]> D)).
Proof.
  intros HD. apply lookup_lt_Some in HD. unfold eval_body, current_ratio.
  destruct (coords o !! (4 * i)) as [p1|]; obind; [|done].
  destruct (coords o !! (4 * i + 1)) as [p2|]; obind; [|done].
  destruct (coords o !! (4 * i + 2)) as [p3|]; obind; [|done].
  destruct (coords o !! (4 * i + 3)) as [p4|]; obind; [|done].
  destruct (ToC0 o !! i) as [r0|]; obind; [|done].
  by apply set_item_lt.
Qed.

Lemma ToC_init_spec nm coords0 lo up scl add cn w0 w1 o0 :
  init nm coords0 lo up scl add cn w0 = (w1, Some o0) →
  base o0 = mkBase nm (length coords0 / 4) lo up scl add
  ∧ mapM (baseline_ratio coords0) (seq 0 (length coords0 / 4)) = Some (ToC0 o0).
Proof.
  unfold init. run. unfold zeros.
  rewrite (for_range_fill (λ i _, baseline_ratio coords0 i))
    by apply ToC_init_body_fill.
  intros Hi. destruct (mapM _ _) as [D|]; [|done]. by simplify_eq.
Qed.

Lemma ToC_evalFunctions_run (s : Sys t) funcs config :
  evalFunctions funcs config s
  = let o := self s in
    let nm := name (base o) in
    let '(g, c) := dv_update (dvgeo (world s)) nm config in
    (mkSys (set_coords c o)
       (mkWorld g (calls (world s) ++ [CUpdate nm config]) (file (world s))),
     ToC ← mapM (λ i, r ← current_ratio c i; r0 ← ToC0 o !! i; Some (r / r0)%float)
              (seq 0 (nCon (base o)));
     Some (<[nm := FArray ToC]> funcs)).
Proof.
  unfold evalFunctions. run. destruct (dv_update _ _ _) as [g c].
  cbn [self world dvgeo calls file fst snd set_coords base coords ToC0].
  unfold zeros.
  rewrite (for_range_fill (λ i _, r ← current_ratio c i; r0 ← ToC0 (self s) !! i;
                                  Some (r / r0)%float)).
  2:{ intros i D x HD. by rewrite (ToC_eval_body_fill _ _ _ _ HD). }
  by destruct (mapM _ _).
Qed.

(** where the two norms agree the two ratios are the same number *)
Lemma ratios_agree coords n i :
  norms_agree coords n → i < n → current_ratio coords i = baseline_ratio coords i.
Proof.
  intros Hn Hi. unfold current_ratio, baseline_ratio.
  destruct (coords !! (4 * i)) as [p1|] eqn:E1; obind; [|done].
  destruct (coords !! (4 * i + 1)) as [p2|] eqn:E2; obind; [|done].
  destruct (coords !! (4 * i + 2)) as [p3|] eqn:E3; obind; [|done].
  destruct (coords !! (4 * i + 3)) as [p4|] eqn:E4; obind; [|done].
  destruct (Hn i p1 p2 p3 p4 Hi E1 E2 E3 E4) as [-> ->]. done.
Qed.
End ToCValues.

(** C10, amended.  ThicknessToChordConstraint has no [scaled] flag:
    [evalFunctions] always stores [ToC[i] = (t_i / c_i) / ToC0[i]], where
    [ToC0[i]] is the ratio the constructor computed.  When [DVGeo.update]
    returns the coordinates the constructor received, and [np.linalg.norm]
    and [geo_utils.eDist] agree on them, every entry whose baseline ratio
    [ToC0[i]] is finite and not zero equals 1. *)
Theorem ToC_evalFunctions_normalized `{DVGeoAPI} `{GeoUtils} `{Numpy}
    nm coords0 lo up scl add cn w0 w1 (o0 : ThicknessToChordConstraint.t)
    (s : Sys ThicknessToChordConstraint.t) funcs config g c :
  ThicknessToChordConstraint.init nm coords0 lo up scl add cn w0 = (w1, Some o0) →
  ThicknessToChordConstraint.base (self s) = ThicknessToChordConstraint.base o0 →
  ThicknessToChordConstraint.ToC0 (self s) = ThicknessToChordConstraint.ToC0 o0 →
  dv_update (dvgeo (world s)) nm config = (g, c) →
  4 * (length coords0 / 4) ≤ length c →
  ∃ ToC,
    (ThicknessToChordConstraint.evalFunctions funcs config s).2
    = Some (<[nm := FArray ToC]> funcs)
    ∧ length ToC = length coords0 / 4
    ∧ (∀ i, i < length coords0 / 4 →
         ∃ r r0, current_ratio c i = Some r
               ∧ baseline_ratio coords0 i = Some r0
               ∧ ThicknessToChordConstraint.ToC0 o0 !! i = Some r0
               ∧ ToC !! i = Some (r / r0)%float)
    ∧ (c = coords0 → norms_agree coords0 (length coords0 / 4) →
       ∀ i r0, ThicknessToChordConstraint.ToC0 o0 !! i = Some r0 →
               finite_nonzero r0 → ToC !! i = Some 1%float).
Proof.
  intros Hinit Hbase HT0 Hupd Hlen.
  apply ToC_init_spec in Hinit as (Hb0 & HmT0).
  destruct (mapM_seq_lookup _ _ _ HmT0) as [HlenT0 HT0i].
  rewrite ToC_evalFunctions_run. cbv zeta. rewrite Hbase, HT0, Hb0.
  cbn [name nCon]. rewrite Hupd. cbn [snd].
  destruct (mapM_seq_is_Some
              (λ i, r ← current_ratio c i;
                    r0 ← ThicknessToChordConstraint.ToC0 o0 !! i;
                    Some (r / r0)%float)
              (length coords0 / 4)) as [ToC HT].
  { intros i Hi. unfold current_ratio.
    destruct (lookup_lt_is_Some_2 c (4 * i)) as [p1 ->]; [lia|].
    destruct (lookup_lt_is_Some_2 c (4 * i + 1)) as [p2 ->]; [lia|].
    destruct (lookup_lt_is_Some_2 c (4 * i + 2)) as [p3 ->]; [lia|].
    destruct (lookup_lt_is_Some_2 c (4 * i + 3)) as [p4 ->]; [lia|].
    destruct (HT0i i Hi) as (r0 & _ & ->). obind. by eexists. }
  rewrite HT. obind. exists ToC. split; [done|].
  destruct (mapM_seq_lookup _ _ _ HT) as [HlenT HTi]. split; [done|].
  assert (Hentry : ∀ i, i < length coords0 / 4 →
            ∃ r r0, current_ratio c i = Some r
                  ∧ baseline_ratio coords0 i = Some r0
                  ∧ ThicknessToChordConstraint.ToC0 o0 !! i = Some r0
                  ∧ ToC !! i = Some (r / r0)%float).
  { intros i Hi. destruct (HTi i Hi) as (v & Hv & HTv).
    destruct (HT0i i Hi) as (r0 & Hr0 & HT0v).
    destruct (current_ratio c i) as [r|] eqn:Hr; [|done].
    exists r, r0. rewrite HT0v in Hv. cbn in Hv. by simplify_eq. }
  split; [done|].
  intros -> Hagree i r0 Hr0 Hfin.
  assert (Hi : i < length coords0 / 4).
  { apply lookup_lt_Some in Hr0. by rewrite HlenT0 in Hr0. }
  destruct (Hentry i Hi) as (r & r0' & Hr & Hb & Hr0' & ->).
  rewrite (ratios_agree _ _ _ Hagree Hi) in Hr. simplify_eq.
  by rewrite float_div_self.
Qed.

Section ToCInstance.
Import Model.

Lemma ToC_evalFunctions_normalized_witness :
  ∃ ToC,
    (ThicknessToChordConstraint.evalFunctions ∅ tt
       (mkSys Examples.toc Examples.toc_world)).2
    = Some (<["toc" := FArray ToC]> ∅)
    ∧ ToC !! 0 = Some 1%float.
Proof.
  destruct (@ToC_evalFunctions_normalized Model.engine Model.geo_utils Model.numpy
              "toc" Examples.toothpicks None None 1%float false tt
              (world0 [] 1) Examples.toc_world Examples.toc
              (mkSys Examples.toc Examples.toc_world) ∅ tt
              (dvgeo Examples.toc_world) Examples.toothpicks
              eq_refl eq_refl eq_refl eq_refl)
    as (ToC & Hres & _ & _ & Hone).
  - vm_compute. lia.
  - exists ToC. split; [exact Hres|].
    apply (Hone eq_refl) with (r0 := 0.5%float).
    + intros i p1 p2 p3 p4 _ _ _ _ _. split; reflexivity.
    + reflexivity.
    + split; reflexivity.
Defined.

(** C10 as stated fails where a toothpick has no thickness: the constructor
    stores the baseline ratio 0 / 1 = 0, and on the same coordinates
    [evalFunctions] stores (0 / 1) / 0, which is nan, not 1. *)
Lemma ToC_same_coordinates_not_one :
  ThicknessToChordConstraint.init "toc" Examples.flat None None 1%float false tt
    (world0 [] 1)
  = (Examples.flat_world, Some Examples.flat_toc)
  ∧ dv_update (dvgeo Examples.flat_world) "toc" tt
    = (dvgeo Examples.flat_world, Examples.flat)
  ∧ (ThicknessToChordConstraint.evalFunctions ∅ tt
       (mkSys Examples.flat_toc Examples.flat_world)).2
    = Some (<["toc" := FArray [nan]]> ∅)
  ∧ nan ≠ 1%float.
Proof.
  split; [reflexivity|]. split; [reflexivity|]. split; [by vm_compute|].
  intros Heq. discriminate Heq.
Qed.
End ToCInstance.

(** ** Jacobians filled row by row *)

Lemma set_item2_row {A} (i k : nat) (v : A) (J : list (list A)) (row : list A) :
  J !! i = Some row →
  set_item2 i k v J = (r ← set_item k v row; Some (<[i:=r]> J)).
Proof.
  intros HJ. unfold set_item2. rewrite HJ. obind.
  destruct (set_item k v row) as [r|]; obind; [|done].
  apply set_item_lt. by eapply lookup_lt_Some.
Qed.

Lemma scatter2_row {A} (i : nat) (es : list (nat * A)) :
  ∀ (J : list (list A)) (row : list A),
    J !! i = Some row →
    scatter2 i es J = (r ← scatter es row; Some (<[i:=r]> J)).
Proof.
  induction es as [|[k v] es IH]; intros J row HJ.
  - cbn. by rewrite list_insert_id.
  - destruct es as [|e es].
    + cbn [scatter2 scatter]. rewrite (set_item2_row _ _ _ _ _ HJ).
      by destruct (set_item k v row).
    + change (scatter2 i ((k, v) :: e :: es) J)
        with (J' ← set_item2 i k v J; scatter2 i (e :: es) J').
      change (scatter ((k, v) :: e :: es) row)
        with (row' ← set_item k v row; scatter (e :: es) row').
      rewrite (set_item2_row _ _ _ _ _ HJ).
      destruct (set_item k v row) as [r|]; obind; [|done].
      rewrite (IH _ r) by (apply list_lookup_insert_eq; by eapply lookup_lt_Some).
      destruct (scatter (e :: es) r) as [r'|]; obind; [|done].
      by rewrite list_insert_insert_eq.
Qed.

Lemma scatter_spec {A} (N : nat) (es : list (nat * A)) :
  ∀ row0, length row0 = N → NoDup es.*1 → Forall (λ e, e.1 < N) es →
    ∃ row, scatter es row0 = Some row
         ∧ length row = N
         ∧ (∀ k v, (k, v) ∈ es → row !! k = Some v)
         ∧ (∀ k, k ∉ es.*1 → row !! k = row0 !! k).
Proof.
  induction es as [|[k v] es IH]; intros row0 Hlen Hnd Hlt.
  - exists row0. cbn. repeat apply conj; try done. intros k v Hin. by inv Hin.
  - cbn in Hnd. apply NoDup_cons in Hnd as [Hk Hnd].
    apply Forall_cons in Hlt as [Hkl Hlt]. cbn in Hkl.
    destruct (IH (<[k:=v]> row0)) as (row & Hs & Hl & Hin & Hout); try done.
    { by rewrite length_insert. }
    exists row. cbn [scatter]. rewrite set_item_lt by lia. obind.
    repeat apply conj; try done.
    + intros k' v' Hel. apply elem_of_cons in Hel as [Heq | Hel]; [|by apply Hin].
      simplify_eq. rewrite Hout by done. apply list_lookup_insert_eq. lia.
    + intros k' Hk'. cbn in Hk'. apply not_elem_of_cons in Hk' as [Hne Hk'].
      rewrite Hout by done. by apply list_lookup_insert_ne.
Qed.

(** scattering seeds at distinct points of a row of zeros gives a sparse row *)
Lemma scatter_zeros (N : nat) (es : list (nat * vec3 float)) :
  NoDup es.*1 → Forall (λ e, e.1 < N) es →
  ∃ row, scatter es (zeros2 N) = Some row ∧ sparse_row N es row.
Proof.
  intros Hnd Hlt.
  destruct (scatter_spec N es (zeros2 N)) as (row & Hs & Hl & Hin & Hout);
    try done.
  { apply length_replicate. }
  exists row. split; [done|]. repeat apply conj; try done.
  intros k Hk Hnin. rewrite Hout by done. by apply lookup_replicate_2.
Qed.

(** a Jacobian whose rows are scattered seeds *)
Lemma mapM_scatter_is_jacobian (n N : nat)
    (seeds : nat → option (list (nat * vec3 float))) :
  (∀ i, i < n → ∃ es, seeds i = Some es ∧ NoDup es.*1 ∧ Forall (λ e, e.1 < N) es) →
  ∃ J, mapM (λ i, es ← seeds i; scatter es (zeros2 N)) (seq 0 n) = Some J
     ∧ is_jacobian n N seeds J.
Proof.
  intros Hseeds.
  destruct (mapM_seq_is_Some (λ i, es ← seeds i; scatter es (zeros2 N)) n)
    as [J HJ].
  { intros i Hi. destruct (Hseeds i Hi) as (es & -> & Hnd & Hlt). obind.
    destruct (scatter_zeros N es Hnd Hlt) as (row & -> & _). by eexists. }
  exists J. split; [done|].
  destruct (mapM_seq_lookup _ _ _ HJ) as [Hlen Hrows]. split; [done|].
  intros i Hi. destruct (Hrows i Hi) as (row & Hrow & HJi).
  destruct (Hseeds i Hi) as (es & Hes & Hnd & Hlt).
  rewrite Hes in Hrow. cbn in Hrow.
  destruct (scatter_zeros N es Hnd Hlt) as (row' & Hrow' & Hsp).
  exists row, es. by simplify_eq.
Qed.

Ltac distinct_points :=
  cbn [fmap list_fmap fst];
  repeat (apply NoDup_cons; split;
          [rewrite ?not_elem_of_cons, ?elem_of_nil; lia|]);
  apply NoDup_nil_2.

Ltac points_in_range :=
  repeat (apply Forall_cons; split; [cbn [fst]; lia|]); apply Forall_nil_2.

Section JacobianRows.
Context `{DVGeoAPI} `{GeoUtils} `{Numpy}.

Lemma Thickness_sens_body_fill o i J row :
  J !! i = Some row →
  ThicknessConstraint.sens_body o i J
  = (r ← (es ← thickness_seeds (ThicknessConstraint.scaled o)
                  (ThicknessConstraint.D0 o) (ThicknessConstraint.coords o) i;
          scatter es row);
     Some (<[i:=r]> J)).
Proof.
  intros HJ. unfold ThicknessConstraint.sens_body, thickness_seeds.
  destruct (ThicknessConstraint.coords o !! (2 * i)) as [p|]; obind; [|done].
  destruct (ThicknessConstraint.coords o !! (2 * i + 1)) as [q|]; obind; [|done].
  destruct (eDist_b p q) as [p1b p2b].
  destruct (ThicknessConstraint.scaled o).
  - destruct (ThicknessConstraint.D0 o !! i) as [d0|]; obind; [|done].
    apply (scatter2_row i [(_, _); (_, _)] _ _ HJ).
  - obind. apply (scatter2_row i [(_, _); (_, _)] _ _ HJ).
Qed.

Lemma Projected_sens_body_fill o i J row :
  J !! i = Some row →
  ProjectedThicknessConstraint.sens_body o i J
  = (r ← (es ← projected_seeds (ProjectedThicknessConstraint.scaled o)
                  (ProjectedThicknessConstraint.D0 o)
                  (ProjectedThicknessConstraint.dir_vec o) i;
          scatter es row);
     Some (<[i:=r]> J)).
Proof.
  intros HJ. unfold ProjectedThicknessConstraint.sens_body, projected_seeds.
  destruct (if ProjectedThicknessConstraint.scaled o then _ else _) as [D_b|];
    obind; [|done].
  destruct (ProjectedThicknessConstraint.dir_vec o !! i) as [n|]; obind; [|done].
  apply (scatter2_row i [(_, _); (_, _)] _ _ HJ).
Qed.

Lemma ToC_sens_body_fill o i J row :
  J !! i = Some row →
  ThicknessToChordConstraint.sens_body o i J
  = (r ← (es ← toc_seeds (ThicknessToChordConstraint.ToC0 o)
                  (ThicknessToChordConstraint.coords o) i;
          scatter es row);
     Some (<[i:=r]> J)).
Proof.
  intros HJ. unfold ThicknessToChordConstraint.sens_body, toc_seeds.
  destruct (ThicknessToChordConstraint.coords o !! (4 * i)) as [p1|]; obind; [|done].
  destruct (ThicknessToChordConstraint.coords o !! (4 * i + 1)) as [p2|]; obind; [|done].
  destruct (ThicknessToChordConstraint.coords o !! (4 * i + 2)) as [p3|]; obind; [|done].
  destruct (ThicknessToChordConstraint.coords o !! (4 * i + 3)) as [p4|]; obind; [|done].
  destruct (eDist_b p1 p2) as [p1b p2b]. destruct (eDist_b p3 p4) as [p3b p4b].
  destruct (ThicknessToChordConstraint.ToC0 o !! i) as [toc0|]; obind; [|done].
  apply (scatter2_row i [(_, _); (_, _); (_, _); (_, _)] _ _ HJ).
Qed.
End JacobianRows.

(** C6.  With at least one design variable, [evalFunctionsSens] of a
    ThicknessConstraint, a ProjectedThicknessConstraint and a
    ThicknessToChordConstraint builds the Jacobian of the constraint values
    with respect to the embedded points: [nCon] rows of [len(coords)] points,
    row [i] zero except at the points constraint [i] depends on, where it
    holds the seeds (for ThicknessConstraint the [eDist_b] seeds, divided by
    [D0[i]] when [scaled]).  The method hands the Jacobian to
    [DVGeo.totalSensitivity] for the point set named as the constraint and
    stores the dictionary it returns under [funcsSens[name]].  The object is
    taken to hold the points and baselines the constraints index. *)
Theorem evalFunctionsSens_jacobian `{DVGeoAPI} `{GeoUtils} `{Numpy}
    (funcsSens : gmap string (gmap string Sens)) (config : Config) :
  (∀ s : Sys ThicknessConstraint.t,
     let o := self s in
     let n := nCon (ThicknessConstraint.base o) in
     let nm := name (ThicknessConstraint.base o) in
     (0 < dv_getNDV (dvgeo (world s)))%Z →
     2 * n ≤ length (ThicknessConstraint.coords o) →
     n ≤ length (ThicknessConstraint.D0 o) →
     ∃ J, is_jacobian n (length (ThicknessConstraint.coords o))
            (thickness_seeds (ThicknessConstraint.scaled o)
               (ThicknessConstraint.D0 o) (ThicknessConstraint.coords o)) J
        ∧ ThicknessConstraint.evalFunctionsSens funcsSens config s
          = after_totalSensitivity s (Seed3 J) nm nm config funcsSens)
  ∧ (∀ s : Sys ProjectedThicknessConstraint.t,
     let o := self s in
     let n := nCon (ProjectedThicknessConstraint.base o) in
     let nm := name (ProjectedThicknessConstraint.base o) in
     (0 < dv_getNDV (dvgeo (world s)))%Z →
     2 * n ≤ length (ProjectedThicknessConstraint.coords o) →
     n ≤ length (ProjectedThicknessConstraint.D0 o) →
     n ≤ length (ProjectedThicknessConstraint.dir_vec o) →
     ∃ J, is_jacobian n (length (ProjectedThicknessConstraint.coords o))
            (projected_seeds (ProjectedThicknessConstraint.scaled o)
               (ProjectedThicknessConstraint.D0 o)
               (ProjectedThicknessConstraint.dir_vec o)) J
        ∧ ProjectedThicknessConstraint.evalFunctionsSens funcsSens config s
          = after_totalSensitivity s (Seed3 J) nm nm config funcsSens)
  ∧ (∀ s : Sys ThicknessToChordConstraint.t,
     let o := self s in
     let n := nCon (ThicknessToChordConstraint.base o) in
     let nm := name (ThicknessToChordConstraint.base o) in
     (0 < dv_getNDV (dvgeo (world s)))%Z →
     4 * n ≤ length (ThicknessToChordConstraint.coords o) →
     n ≤ length (ThicknessToChordConstraint.ToC0 o) →
     ∃ J, is_jacobian n (length (ThicknessToChordConstraint.coords o))
            (toc_seeds (ThicknessToChordConstraint.ToC0 o)
               (ThicknessToChordConstraint.coords o)) J
        ∧ ThicknessToChordConstraint.evalFunctionsSens funcsSens config s
          = after_totalSensitivity s (Seed3 J) nm nm config funcsSens).
Proof.
  repeat apply conj; intros s o n nm HnDV Hlen HlenD; cbv zeta in *.
  - destruct (mapM_scatter_is_jacobian n (length (ThicknessConstraint.coords o))
                (thickness_seeds (ThicknessConstraint.scaled o)
                   (ThicknessConstraint.D0 o) (ThicknessConstraint.coords o)))
      as (J & HJ & Hjac).
    { intros i Hi. unfold thickness_seeds.
      destruct (lookup_lt_is_Some_2 (ThicknessConstraint.coords o) (2 * i))
        as [p ->]; [lia|].
      destruct (lookup_lt_is_Some_2 (ThicknessConstraint.coords o) (2 * i + 1))
        as [q ->]; [lia|].
      destruct (lookup_lt_is_Some_2 (ThicknessConstraint.D0 o) i) as [d0 ->]; [lia|].
      obind. destruct (eDist_b p q) as [p1b p2b].
      destruct (ThicknessConstraint.scaled o); eexists;
        (split; [done|]); (split; [distinct_points | points_in_range]). }
    exists J. split; [done|].
    unfold ThicknessConstraint.evalFunctionsSens, after_totalSensitivity. run.
    apply Z.ltb_lt in HnDV. rewrite HnDV. run. unfold zeros3.
    rewrite (for_range_fill
               (λ i row, es ← thickness_seeds (ThicknessConstraint.scaled (self s))
                                (ThicknessConstraint.D0 (self s))
                                (ThicknessConstraint.coords (self s)) i;
                         scatter es row))
      by (intros; by apply Thickness_sens_body_fill).
    subst o n nm. rewrite HJ. destruct (dv_totalSensitivity _ _ _ _).
    by rewrite <- app_assoc.
  - intros Hlendv.
    destruct (mapM_scatter_is_jacobian n
                (length (ProjectedThicknessConstraint.coords o))
                (projected_seeds (ProjectedThicknessConstraint.scaled o)
                   (ProjectedThicknessConstraint.D0 o)
                   (ProjectedThicknessConstraint.dir_vec o)))
      as (J & HJ & Hjac).
    { intros i Hi. unfold projected_seeds.
      destruct (lookup_lt_is_Some_2 (ProjectedThicknessConstraint.D0 o) i)
        as [d0 ->]; [lia|].
      destruct (lookup_lt_is_Some_2 (ProjectedThicknessConstraint.dir_vec o) i)
        as [dv ->]; [lia|].
      destruct (ProjectedThicknessConstraint.scaled o); obind; eexists;
        (split; [done|]); (split; [distinct_points | points_in_range]). }
    exists J. split; [done|].
    unfold ProjectedThicknessConstraint.evalFunctionsSens, after_totalSensitivity.
    run. apply Z.ltb_lt in HnDV. rewrite HnDV. run. unfold zeros3.
    rewrite (for_range_fill
               (λ i row, es ← projected_seeds
                                (ProjectedThicknessConstraint.scaled (self s))
                                (ProjectedThicknessConstraint.D0 (self s))
                                (ProjectedThicknessConstraint.dir_vec (self s)) i;
                         scatter es row))
      by (intros; by apply Projected_sens_body_fill).
    subst o n nm. rewrite HJ. destruct (dv_totalSensitivity _ _ _ _).
    by rewrite <- app_assoc.
  - destruct (mapM_scatter_is_jacobian n
                (length (ThicknessToChordConstraint.coords o))
                (toc_seeds (ThicknessToChordConstraint.ToC0 o)
                   (ThicknessToChordConstraint.coords o)))
      as (J & HJ & Hjac).
    { intros i Hi. unfold toc_seeds.
      destruct (lookup_lt_is_Some_2 (ThicknessToChordConstraint.coords o) (4 * i))
        as [p1 ->]; [lia|].
      destruct (lookup_lt_is_Some_2 (ThicknessToChordConstraint.coords o) (4 * i + 1))
        as [p2 ->]; [lia|].
      destruct (lookup_lt_is_Some_2 (ThicknessToChordConstraint.coords o) (4 * i + 2))
        as [p3 ->]; [lia|].
      destruct (lookup_lt_is_Some_2 (ThicknessToChordConstraint.coords o) (4 * i + 3))
        as [p4 ->]; [lia|].
      destruct (lookup_lt_is_Some_2 (ThicknessToChordConstraint.ToC0 o) i)
        as [toc0 ->]; [lia|].
      obind. destruct (eDist_b p1 p2) as [p1b p2b].
      destruct (eDist_b p3 p4) as [p3b p4b]. eexists.
      split; [done|]. split; [distinct_points | points_in_range]. }
    exists J. split; [done|].
    unfold ThicknessToChordConstraint.evalFunctionsSens, after_totalSensitivity.
    run. apply Z.ltb_lt in HnDV. rewrite HnDV. run. unfold zeros3.
    rewrite (for_range_fill
               (λ i row, es ← toc_seeds (ThicknessToChordConstraint.ToC0 (self s))
                                (ThicknessToChordConstraint.coords (self s)) i;
                         scatter es row))
      by (intros; by apply ToC_sens_body_fill).
    subst o n nm. rewrite HJ. destruct (dv_totalSensitivity _ _ _ _).
    by rewrite <- app_assoc.
Qed.

Section JacobianInstance.
Import Model.

Lemma evalFunctionsSens_jacobian_witness :
  (∃ J, is_jacobian 2 4 (thickness_seeds true [1; 2]%float Examples.toothpicks) J
      ∧ ThicknessConstraint.evalFunctionsSens ∅ tt
          (mkSys Examples.thickness (Examples.thickness_world 1))
        = after_totalSensitivity
            (mkSys Examples.thickness (Examples.thickness_world 1))
            (Seed3 J) "t" "t" tt ∅)
  ∧ (∃ J, is_jacobian 2 4
            (projected_seeds true [1; 2]%float
               (ProjectedThicknessConstraint.dir_vec Examples.projected)) J
        ∧ ProjectedThicknessConstraint.evalFunctionsSens ∅ tt
            (mkSys Examples.projected (Examples.projected_world 1))
          = after_totalSensitivity
              (mkSys Examples.projected (Examples.projected_world 1))
              (Seed3 J) "pt" "pt" tt ∅)
  ∧ (∃ J, is_jacobian 1 4 (toc_seeds [0.5]%float Examples.toothpicks) J
        ∧ ThicknessToChordConstraint.evalFunctionsSens ∅ tt
            (mkSys Examples.toc Examples.toc_world)
          = after_totalSensitivity (mkSys Examples.toc Examples.toc_world)
              (Seed3 J) "toc" "toc" tt ∅).
Proof.
  pose proof (@evalFunctionsSens_jacobian Model.engine Model.geo_utils
                Model.numpy ∅ tt) as (Hthickness & Hprojected & Htoc).
  split; [|split].
  - apply (Hthickness (mkSys Examples.thickness (Examples.thickness_world 1)));
      [reflexivity | vm_compute; lia ..].
  - apply (Hprojected (mkSys Examples.projected (Examples.projected_world 1)));
      [reflexivity | vm_compute; lia ..].
  - apply (Htoc (mkSys Examples.toc Examples.toc_world));
      [reflexivity | vm_compute; lia ..].
Defined.
End JacobianInstance.

(** ** Loops on several arrays *)

(** a loop whose turns act on each of three arrays separately is three loops *)
Lemma for_each_prod3 {I A B C} (fA : I → A → option A) (fB : I → B → option B)
    (fC : I → C → option C) (body : I → A * B * C → option (A * B * C)) :
  (∀ i a b c, body i (a, b, c)
              = (a' ← fA i a; b' ← fB i b; c' ← fC i c; Some (a', b', c'))) →
  ∀ l a b c,
    for_each body l (a, b, c)
    = (a' ← for_each fA l a; b' ← for_each fB l b; c' ← for_each fC l c;
       Some (a', b', c')).
Proof.
  intros Hb l. induction l as [|i l IH]; intros a b c; [done|].
  cbn [for_each]. rewrite Hb.
  destruct (fA i a) as [a1|]; obind; [|done].
  destruct (fB i b) as [b1|]; obind.
  2:{ by destruct (for_each fA l a1). }
  destruct (fC i c) as [c1|]; obind.
  2:{ destruct (for_each fA l a1); obind; [|done].
      by destruct (for_each fB l b1). }
  apply IH.
Qed.

Lemma for_each_prod2 {I A B} (fA : I → A → option A) (fB : I → B → option B)
    (body : I → A * B → option (A * B)) :
  (∀ i a b, body i (a, b) = (a' ← fA i a; b' ← fB i b; Some (a', b'))) →
  ∀ l a b,
    for_each body l (a, b)
    = (a' ← for_each fA l a; b' ← for_each fB l b; Some (a', b')).
Proof.
  intros Hb l. induction l as [|i l IH]; intros a b; [done|].
  cbn [for_each]. rewrite Hb.
  destruct (fA i a) as [a1|]; obind; [|done].
  destruct (fB i b) as [b1|]; obind.
  2:{ by destruct (for_each fA l a1). }
  apply IH.
Qed.

(** ** KSMaxThicknessToChordConstraint: seeds *)

Section KSMaxSens.
Context `{DVGeoAPI} `{GeoUtils} `{Numpy}.
Import KSMaxThicknessToChordConstraint.


Lemma KSMax_sens_body_prod o i dC dL T :
  sens_body o i (dC, dL, T)
  = (dC' ← coords_step o i dC; dL' ← lete_step o i dL;
     T' ← toc_body (divideByChord o) (coords o) (leTePts o !! 0) (leTePts o !! 1) i T;
     Some (dC', dL', T')).
Proof.
  unfold sens_body, coords_step, lete_step, toc_body.
  destruct (coords o !! (2 * i)) as [p|]; obind; [|done].
  destruct (coords o !! (2 * i + 1)) as [q|]; obind; [|done].
  destruct (leTePts o !! 0) as [le|]; obind; [|done].
  destruct (leTePts o !! 1) as [te|]; obind; [|done].
  destruct (eDist_b p q) as [p1b p2b]. destruct (eDist_b le te) as [p3b p4b].
  destruct (divideByChord o); cbn [scatter2].
  - destruct (set_item i _ T) as [T'|]; obind.
    + destruct (set_item2 i 0 _ dC) as [dC1|]; obind; [|done].
      destruct (set_item2 i 1 _ dC1) as [dC2|]; obind; [|done].
      destruct (set_item2 i 0 _ dL) as [dL1|]; obind; [|done].
      by destruct (set_item2 i 1 _ dL1) as [dL2|].
    + destruct (set_item2 i 0 _ dC) as [dC1|]; obind; [|done].
      destruct (set_item2 i 1 _ dC1) as [dC2|]; obind; [|done].
      destruct (set_item2 i 0 _ dL) as [dL1|]; obind; [|done].
      by destruct (set_item2 i 1 _ dL1) as [dL2|].
  - destruct (set_item i _ T) as [T'|]; obind.
    + destruct (set_item2 i 0 _ dC) as [dC1|]; obind; [|done].
      by destruct (set_item2 i 1 _ dC1) as [dC2|].
    + destruct (set_item2 i 0 _ dC) as [dC1|]; obind; [|done].
      by destruct (set_item2 i 1 _ dC1) as [dC2|].
Qed.


Lemma coords_step_fill o le te rest :
  leTePts o = le :: te :: rest →
  ∀ i dC row, dC !! i = Some row →
    coords_step o i dC = (r ← coords_row o le te i row; Some (<[i:=r]> dC)).
Proof.
  intros Hlt i dC row HJ. unfold coords_step, coords_row.
  rewrite Hlt. cbn [lookup list_lookup].
  destruct (coords o !! (2 * i)) as [p|]; obind; [|done].
  destruct (coords o !! (2 * i + 1)) as [q|]; obind; [|done].
  destruct (eDist_b p q) as [p1b p2b]. by apply scatter2_row.
Qed.

Lemma lete_step_fill o le te rest :
  leTePts o = le :: te :: rest →
  ∀ i dL row, dL !! i = Some row →
    lete_step o i dL = (r ← lete_row o le te i row; Some (<[i:=r]> dL)).
Proof.
  intros Hlt i dL row HJ. unfold lete_step, lete_row.
  rewrite Hlt. cbn [lookup list_lookup].
  destruct (coords o !! (2 * i)) as [p|]; obind; [|done].
  destruct (coords o !! (2 * i + 1)) as [q|]; obind; [|done].
  destruct (eDist_b le te) as [p3b p4b].
  destruct (divideByChord o); [by apply scatter2_row|].
  obind. by rewrite list_insert_id.
Qed.

Lemma coords_row_zeros o le te i :
  coords_row o le te i (replicate 2 vzero)
  = coords_partials (divideByChord o) (coords o) le te i.
Proof.
  unfold coords_row, coords_partials.
  destruct (coords o !! (2 * i)) as [p|]; obind; [|done].
  destruct (coords o !! (2 * i + 1)) as [q|]; obind; [|done].
  destruct (eDist_b p q) as [p1b p2b]. by destruct (divideByChord o).
Qed.

Lemma lete_row_zeros o le te i :
  lete_row o le te i (replicate 2 vzero)
  = lete_partials (divideByChord o) (coords o) le te i.
Proof.
  unfold lete_row, lete_partials, chord_partials.
  destruct (divideByChord o).
  - destruct (coords o !! (2 * i)) as [p|]; obind; [|done].
    destruct (coords o !! (2 * i + 1)) as [q|]; obind; [|done].
    by destruct (eDist_b le te) as [p3b p4b].
  - destruct (coords o !! (2 * i)) as [p|]; obind; [|done].
    destruct (coords o !! (2 * i + 1)) as [q|]; obind; [|done].
    by destruct (eDist_b le te) as [p3b p4b].
Qed.

(** the loop of [evalFunctionsSens]: the three arrays it fills *)
Lemma KSMax_sens_loop o le te rest :
  leTePts o = le :: te :: rest →
  for_range (nPoint o) (sens_body o)
    (zeros3 (nPoint o) 2, zeros3 (nPoint o) 2, zeros (nPoint o))
  = (dC ← mapM (coords_partials (divideByChord o) (coords o) le te)
            (seq 0 (nPoint o));
     dL ← mapM (lete_partials (divideByChord o) (coords o) le te)
            (seq 0 (nPoint o));
     ToC ← mapM (toc_ratio (divideByChord o) (coords o) (Some le) (Some te))
             (seq 0 (nPoint o));
     Some (dC, dL, ToC)).
Proof.
  intros Hlt. unfold for_range.
  rewrite (for_each_prod3 _ _ _ _ (KSMax_sens_body_prod o)).
  fold (for_range (nPoint o) (coords_step o) (zeros3 (nPoint o) 2)).
  fold (for_range (nPoint o) (lete_step o) (zeros3 (nPoint o) 2)).
  fold (for_range (nPoint o)
          (toc_body (divideByChord o) (coords o) (leTePts o !! 0) (leTePts o !! 1))
          (zeros (nPoint o))).
  unfold zeros3, zeros, zeros2.
  rewrite (for_range_fill _ _ _ _ (coords_step_fill o le te rest Hlt)).
  rewrite (for_range_fill _ _ _ _ (lete_step_fill o le te rest Hlt)).
  rewrite (for_range_fill _ _ _ _
             (KSMax_toc_body_fill (divideByChord o) (coords o)
                (leTePts o !! 0) (leTePts o !! 1))).
  rewrite Hlt. cbn [lookup list_lookup].
  rewrite (mapM_ext_Forall (λ i, coords_row o le te i (replicate 2 vzero))
             (coords_partials (divideByChord o) (coords o) le te))
    by (apply Forall_forall; intros; apply coords_row_zeros).
  rewrite (mapM_ext_Forall (λ i, lete_row o le te i (replicate 2 vzero))
             (lete_partials (divideByChord o) (coords o) le te))
    by (apply Forall_forall; intros; apply lete_row_zeros).
  done.
Qed.
(** [evalFunctionsSens] with design variables, once the loop has run: the two
    calls to [totalSensitivity] and the combination of their results *)
Lemma KSMax_evalFunctionsSens_run (s : Sys t) fs config le te rest
    dC dL ToC sC seedL :
  (0 < dv_getNDV (dvgeo (world s)))%Z →
  leTePts (self s) = le :: te :: rest →
  mapM (coords_partials (divideByChord (self s)) (coords (self s)) le te)
    (seq 0 (nPoint (self s))) = Some dC →
  mapM (lete_partials (divideByChord (self s)) (coords (self s)) le te)
    (seq 0 (nPoint (self s))) = Some dL →
  mapM (toc_ratio (divideByChord (self s)) (coords (self s)) (Some le) (Some te))
    (seq 0 (nPoint (self s))) = Some ToC →
  einsum_scale (ks_weights (scaled (self s)) (max0 (self s)) (rho (self s))
                  (ksApproach (self s)) ToC) dC = Some sC →
  einsum_sum 2 (ks_weights (scaled (self s)) (max0 (self s)) (rho (self s))
                  (ksApproach (self s)) ToC) dL = Some seedL →
  evalFunctionsSens fs config s
  = let nm := name (base (self s)) in
    let '(g1, tmp0) := dv_totalSensitivity (dvgeo (world s)) (Seed2 (concat sC))
                         (coords_name nm) config in
    let '(g2, tmp1) := dv_totalSensitivity g1 (Seed2 seedL) (lete_name nm) config in
    (mkSys (self s)
       (mkWorld g2
          (calls (world s)
           ++ [CGetNDV;
               CTotalSensitivity (Seed2 (concat sC)) (coords_name nm) config;
               CTotalSensitivity (Seed2 seedL) (lete_name nm) config])
          (file (world s))),
     tmpTotal ← combine tmp0 tmp1; Some (<[nm := tmpTotal]> fs)).
Proof.
  intros HnDV Hlt HdC HdL HT HsC HsL.
  unfold evalFunctionsSens. run. apply Z.ltb_lt in HnDV. rewrite HnDV. run.
  rewrite (KSMax_sens_loop _ _ _ _ Hlt), HdC, HdL, HT. obind.
  unfold ks_weights in HsC, HsL. rewrite HsC, HsL. run.
  destruct (dv_totalSensitivity _ _ _ _) as [g1 tmp0]. run.
  destruct (dv_totalSensitivity _ _ _ _) as [g2 tmp1]. run.
  rewrite <- !app_assoc. cbn [app].
  by destruct (combine tmp0 tmp1).
Qed.
(** on an object that holds the points it indexes the arrays of the loop and
    the two seeds exist *)
Lemma KSMax_sens_arrays_exist (o : t) le te :
  2 * nPoint o ≤ length (coords o) →
  (∀ g, length (KS_derivatives g (rho o) (ksApproach o)).1 = length g) →
  ∃ dC dL ToC sC seedL,
    mapM (coords_partials (divideByChord o) (coords o) le te) (seq 0 (nPoint o))
    = Some dC
    ∧ mapM (lete_partials (divideByChord o) (coords o) le te) (seq 0 (nPoint o))
      = Some dL
    ∧ mapM (toc_ratio (divideByChord o) (coords o) (Some le) (Some te))
        (seq 0 (nPoint o)) = Some ToC
    ∧ einsum_scale (ks_weights (scaled o) (max0 o) (rho o) (ksApproach o) ToC) dC
      = Some sC
    ∧ einsum_sum 2 (ks_weights (scaled o) (max0 o) (rho o) (ksApproach o) ToC) dL
      = Some seedL.
Proof.
  intros Hlen Hks.
  destruct (mapM_seq_is_Some
              (toc_ratio (divideByChord o) (coords o) (Some le) (Some te))
              (nPoint o)) as [ToC HT].
  { intros i Hi. unfold toc_ratio.
    destruct (lookup_lt_is_Some_2 (coords o) (2 * i)) as [p ->]; [lia|].
    destruct (lookup_lt_is_Some_2 (coords o) (2 * i + 1)) as [q ->]; [lia|].
    obind. by eexists. }
  destruct (mapM_seq_is_Some
              (coords_partials (divideByChord o) (coords o) le te) (nPoint o))
    as [dC HdC].
  { intros i Hi. unfold coords_partials.
    destruct (lookup_lt_is_Some_2 (coords o) (2 * i)) as [p ->]; [lia|].
    destruct (lookup_lt_is_Some_2 (coords o) (2 * i + 1)) as [q ->]; [lia|].
    obind. destruct (eDist_b p q). by eexists. }
  destruct (mapM_seq_is_Some
              (lete_partials (divideByChord o) (coords o) le te) (nPoint o))
    as [dL HdL].
  { intros i Hi. unfold lete_partials, chord_partials.
    destruct (lookup_lt_is_Some_2 (coords o) (2 * i)) as [p ->]; [lia|].
    destruct (lookup_lt_is_Some_2 (coords o) (2 * i + 1)) as [q ->]; [lia|].
    obind. destruct (eDist_b le te). destruct (divideByChord o); by eexists. }
  destruct (mapM_seq_lookup _ _ _ HT) as [HlenT _].
  destruct (mapM_seq_lookup _ _ _ HdC) as [HlenC _].
  destruct (mapM_seq_lookup _ _ _ HdL) as [HlenL _].
  assert (Hw : length (ks_weights (scaled o) (max0 o) (rho o) (ksApproach o) ToC)
               = nPoint o).
  { unfold ks_weights. destruct (scaled o); rewrite ?length_map, Hks; done. }
  exists dC, dL, ToC. unfold einsum_scale, einsum_sum.
  rewrite !decide_True by lia. by eauto 10.
Qed.
End KSMaxSens.

Lemma concat_pairs_lookup {A} (l : list (list A)) :
  Forall (λ r, length r = 2) l →
  ∀ i k, k < 2 → concat l !! (2 * i + k) = l !! i ≫= (.!! k).
Proof.
  induction 1 as [|r l Hr _ IH]; intros i k Hk; [done|].
  cbn [concat]. destruct i as [|i].
  - cbn [lookup list_lookup mbind option_bind].
    rewrite lookup_app_l by lia. by replace (2 * 0 + k) with k by lia.
  - rewrite lookup_app_r by lia.
    replace (2 * S i + k - length r) with (2 * i + k) by lia. apply IH, Hk.
Qed.

Lemma concat_pairs_length {A} (l : list (list A)) :
  Forall (λ r, length r = 2) l → length (concat l) = 2 * length l.
Proof.
  induction 1 as [|r l Hr _ IH]; [done|].
  cbn [concat length]. rewrite length_app, IH. lia.
Qed.

(** C3, amended.  With at least one design variable, [evalFunctionsSens] of a
    KSMaxThicknessToChordConstraint hands two seeds to
    [DVGeo.totalSensitivity].  With [w = dKSdToC], the gradient of the KS
    aggregate divided by [max0] when [scaled]: the seed of toothpick end
    [(i, k)] is [w[i]] times the [eDist_b] seed of that end, divided by the
    chord [c] when [divideByChord]; the seed of the leading and trailing edge
    points is the sum over [i] of [w[i]] times [-seed * t_i / c**2] when
    [divideByChord], and the sum over [i] of [w[i]] times zero otherwise.
    [KSfunction.derivatives] is taken to return a gradient as long as its
    argument, and the object to hold the points the constraint indexes. *)
Theorem KSMax_evalFunctionsSens_seeds `{DVGeoAPI} `{GeoUtils} `{Numpy}
    (s : Sys KSMaxThicknessToChordConstraint.t)
    (funcsSens : gmap string (gmap string Sens)) (config : Config)
    (le te : vec3 float) (rest : list (vec3 float)) :
  let o := self s in
  let n := KSMaxThicknessToChordConstraint.nPoint o in
  let nm := name (KSMaxThicknessToChordConstraint.base o) in
  let coords := KSMaxThicknessToChordConstraint.coords o in
  let divide := KSMaxThicknessToChordConstraint.divideByChord o in
  let c := eDist le te in
  (0 < dv_getNDV (dvgeo (world s)))%Z →
  KSMaxThicknessToChordConstraint.leTePts o = le :: te :: rest →
  2 * n ≤ length coords →
  (∀ g, length (KS_derivatives g (KSMaxThicknessToChordConstraint.rho o)
                  (KSMaxThicknessToChordConstraint.ksApproach o)).1 = length g) →
  ∃ ToC seedC dL seedL,
    let w := ks_weights (KSMaxThicknessToChordConstraint.scaled o)
               (KSMaxThicknessToChordConstraint.max0 o)
               (KSMaxThicknessToChordConstraint.rho o)
               (KSMaxThicknessToChordConstraint.ksApproach o) ToC in
    is_ToC divide coords le te n ToC
    ∧ length seedC = 2 * n
    ∧ (∀ i, i < n →
         ∃ p q wi,
           coords !! (2 * i) = Some p ∧ coords !! (2 * i + 1) = Some q
           ∧ w !! i = Some wi
           ∧ seedC !! (2 * i)
             = Some (vmap (PrimFloat.mul wi)
                       (if divide then vdivs (eDist_b p q).1 c else (eDist_b p q).1))
           ∧ seedC !! (2 * i + 1)
             = Some (vmap (PrimFloat.mul wi)
                       (if divide then vdivs (eDist_b p q).2 c else (eDist_b p q).2)))
    ∧ mapM (lete_partials divide coords le te) (seq 0 n) = Some dL
    ∧ KSMaxThicknessToChordConstraint.einsum_sum 2 w dL = Some seedL
    ∧ calls (world (KSMaxThicknessToChordConstraint.evalFunctionsSens
                      funcsSens config s).1)
      = calls (world s)
        ++ [CGetNDV;
            CTotalSensitivity (Seed2 seedC) (nm +:+ "_coords") config;
            CTotalSensitivity (Seed2 seedL) (nm +:+ "_lete") config].
Proof.
  intros o n nm coords divide c HnDV Hlt Hlen Hks.
  destruct (mapM_seq_is_Some (toc_ratio divide coords (Some le) (Some te)) n)
    as [ToC HT].
  { intros i Hi. unfold toc_ratio.
    destruct (lookup_lt_is_Some_2 coords (2 * i)) as [p ->]; [lia|].
    destruct (lookup_lt_is_Some_2 coords (2 * i + 1)) as [q ->]; [lia|].
    obind. by eexists. }
  destruct (mapM_seq_is_Some (coords_partials divide coords le te) n) as [dC HdC].
  { intros i Hi. unfold coords_partials.
    destruct (lookup_lt_is_Some_2 coords (2 * i)) as [p ->]; [lia|].
    destruct (lookup_lt_is_Some_2 coords (2 * i + 1)) as [q ->]; [lia|].
    obind. destruct (eDist_b p q). by eexists. }
  destruct (mapM_seq_is_Some (lete_partials divide coords le te) n) as [dL HdL].
  { intros i Hi. unfold lete_partials, chord_partials.
    destruct (lookup_lt_is_Some_2 coords (2 * i)) as [p ->]; [lia|].
    destruct (lookup_lt_is_Some_2 coords (2 * i + 1)) as [q ->]; [lia|].
    obind. destruct (eDist_b le te). destruct divide; by eexists. }
  destruct (mapM_seq_lookup _ _ _ HT) as [HlenT _].
  destruct (mapM_seq_lookup _ _ _ HdC) as [HlenC HCi].
  destruct (mapM_seq_lookup _ _ _ HdL) as [HlenL _].
  set (w := ks_weights (KSMaxThicknessToChordConstraint.scaled o)
              (KSMaxThicknessToChordConstraint.max0 o)
              (KSMaxThicknessToChordConstraint.rho o)
              (KSMaxThicknessToChordConstraint.ksApproach o) ToC).
  assert (Hw : length w = n).
  { unfold w, ks_weights.
    destruct (KSMaxThicknessToChordConstraint.scaled o);
      rewrite ?length_map, Hks; done. }
  set (sC := zip_with (λ wi rows, map (vmap (PrimFloat.mul wi)) rows) w dC).
  assert (HsC : KSMaxThicknessToChordConstraint.einsum_scale w dC = Some sC).
  { unfold KSMaxThicknessToChordConstraint.einsum_scale.
    by rewrite decide_True by lia. }
  destruct (KSMaxThicknessToChordConstraint.einsum_sum 2 w dL) as [seedL|] eqn:HsL.
  2:{ unfold KSMaxThicknessToChordConstraint.einsum_sum in HsL.
      rewrite decide_True in HsL by lia. done. }
  exists ToC, (concat sC), dL, seedL. cbv zeta.
  assert (Hrows : Forall (λ r : list (vec3 float), length r = 2) sC).
  { apply Forall_lookup_2. intros i r Hr. unfold sC in Hr.
    apply lookup_zip_with_Some in Hr as (wi & row & -> & Hwi & Hrow).
    rewrite length_map.
    destruct (HCi i) as (row' & Hcp & Hrow').
    { apply lookup_lt_Some in Hrow. lia. }
    unfold coords_partials in Hcp.
    destruct (coords !! (2 * i)) as [p|]; [|done].
    destruct (coords !! (2 * i + 1)) as [q|]; [|done].
    cbn in Hcp. destruct (eDist_b p q). simplify_eq. by destruct divide. }
  split; [by apply toc_ratio_is_ToC|].
  split; [rewrite (concat_pairs_length _ Hrows); unfold sC;
          rewrite length_zip_with; lia|].
  split.
  { intros i Hi. destruct (HCi i Hi) as (row & Hcp & Hrow).
    destruct (lookup_lt_is_Some_2 w i) as [wi Hwi]; [lia|].
    unfold coords_partials in Hcp.
    destruct (coords !! (2 * i)) as [p|]; [|done].
    destruct (coords !! (2 * i + 1)) as [q|]; [|done].
    cbn in Hcp. exists p, q, wi. do 3 (split; [done|]).
    assert (HsCi : sC !! i = Some (map (vmap (PrimFloat.mul wi)) row)).
    { unfold sC. apply lookup_zip_with_Some. by exists wi, row. }
    pose proof (concat_pairs_lookup _ Hrows i 0 ltac:(lia)) as Hk0.
    pose proof (concat_pairs_lookup _ Hrows i 1 ltac:(lia)) as Hk1.
    rewrite HsCi in Hk0, Hk1. replace (2 * i + 0) with (2 * i) in Hk0 by lia.
    rewrite Hk0, Hk1. destruct (eDist_b p q) as [p1b p2b]. simplify_eq.
    by destruct divide. }
  split; [done|]. split; [done|].
  rewrite (KSMax_evalFunctionsSens_run s funcsSens config le te rest
             dC dL ToC sC seedL) by done.
  cbv zeta. destruct (dv_totalSensitivity _ _ _ _) as [g1 tmp0].
  by destruct (dv_totalSensitivity _ _ _ _) as [g2 tmp1].
Qed.

(** the gradient of the model's KS aggregate is as long as its argument *)
Lemma first_hit_length (m : float) (g : list float) :
  length (Model.first_hit m g) = length g.
Proof.
  induction g as [|x g IH]; [done|]. cbn.
  destruct (PrimFloat.eqb x m); cbn; [by rewrite length_map | by rewrite IH].
Qed.

Section KSMaxSeedsInstance.
Import Model.

Lemma KSMax_evalFunctionsSens_seeds_witness :
  ∃ seedC seedL,
    length seedC = 4
    ∧ calls (world (KSMaxThicknessToChordConstraint.evalFunctionsSens ∅ tt
                      (mkSys (Examples.ksmax true [0.5; 1]%float 1%float)
                             (Examples.ksmax_world [] 1))).1)
      = calls (Examples.ksmax_world [] 1)
        ++ [CGetNDV;
            CTotalSensitivity (Seed2 seedC) "ks_coords" tt;
            CTotalSensitivity (Seed2 seedL) "ks_lete" tt].
Proof.
  destruct (@KSMax_evalFunctionsSens_seeds Model.engine Model.geo_utils Model.numpy
              (mkSys (Examples.ksmax true [0.5; 1]%float 1%float)
                     (Examples.ksmax_world [] 1))
              ∅ tt Examples.le_pt Examples.te_pt [])
    as (ToC & seedC & dL & seedL & _ & Hlen & _ & _ & _ & Hcalls).
  - reflexivity.
  - reflexivity.
  - vm_compute. lia.
  - intros g. apply first_hit_length.
  - exists seedC, seedL. split; [exact Hlen | exact Hcalls].
Defined.

(** C3 as stated fails when [divideByChord] is false: the seed handed to the
    engine for the leading and trailing edge points is zero, while the sum
    over [i] of [dKSdToC[i]] times [-seed * t_i / c**2] is not. *)
Lemma KSMax_lete_seed_not_as_claimed :
  KSMaxThicknessToChordConstraint.init "ks" Examples.toothpicks Examples.le_pt
    Examples.te_pt 50%float "continuous" false None None true 1%float false tt
    (world0 [] 1)
  = (Examples.ksmax_world [] 1, Some (Examples.ksmax false [1; 2]%float 2%float))
  ∧ calls (world (KSMaxThicknessToChordConstraint.evalFunctionsSens ∅ tt
                    (mkSys (Examples.ksmax false [1; 2]%float 2%float)
                           (Examples.ksmax_world [] 1))).1) !! 4
    = Some (CTotalSensitivity (Seed2 [V3 0 0 0; V3 0 0 0]%float) "ks_lete" tt)
  ∧ claimed_lete_seed (Examples.ksmax false [1; 2]%float 2%float)
      Examples.le_pt Examples.te_pt
    = Some [V3 0.25 0 0; V3 (-0.25) 0 0]%float
  ∧ [V3 0 0 0; V3 0 0 0]%float ≠ [V3 0.25 0 0; V3 (-0.25) 0 0]%float.
Proof.
  split; [reflexivity|]. split; [by vm_compute|]. split; [by vm_compute|].
  intros Heq. discriminate Heq.
Qed.
End KSMaxSeedsInstance.

(** ** Combining the sensitivities of two point sets *)

Section Combine.
Context `{DVGeoAPI} `{GeoUtils} `{Numpy}.

(** the loop of KSMaxThicknessToChordConstraint over the keys of [tmp0] *)
Lemma combine_spec (tmp0 tmp1 : gmap string Sens) :
  (dom tmp0 ⊆ dom tmp1 → is_Some (KSMaxThicknessToChordConstraint.combine tmp0 tmp1))
  ∧ (∀ total, KSMaxThicknessToChordConstraint.combine tmp0 tmp1 = Some total →
       dom tmp0 ⊆ dom tmp1
       ∧ ∀ key, total !! key
                = (v0 ← tmp0 !! key; v1 ← tmp1 !! key; Some (sens_add v0 v1))).
Proof.
  unfold KSMaxThicknessToChordConstraint.combine.
  apply (map_fold_weak_ind
           (λ r (m : gmap string Sens),
              (dom m ⊆ dom tmp1 → is_Some r)
              ∧ (∀ total, r = Some total →
                   dom m ⊆ dom tmp1
                   ∧ ∀ key, total !! key
                            = (v0 ← m !! key; v1 ← tmp1 !! key;
                               Some (sens_add v0 v1))))).
  - split; [by eexists|]. intros total [= <-].
    split; [rewrite dom_empty_L; apply empty_subseteq|].
    intros key. by rewrite !lookup_empty.
  - intros i x m r Hi [IHsome IHspec]. split.
    + intros Hdom. rewrite dom_insert in Hdom.
      destruct IHsome as [total ->].
      { etrans; [apply union_subseteq_r|exact Hdom]. }
      obind.
      assert (i ∈ dom tmp1) as [v1 ->]%elem_of_dom.
      { apply Hdom, elem_of_union_l. by apply elem_of_singleton. }
      obind. by eexists.
    + intros total Hr. destruct r as [total0|]; [|done]. cbn in Hr.
      destruct (tmp1 !! i) as [v1|] eqn:Hv1; [|done]. cbn in Hr. simplify_eq.
      destruct (IHspec total0 eq_refl) as [Hdom Hlook]. split.
      * rewrite dom_insert. apply elem_of_dom_2 in Hv1.
        apply union_least; [by apply singleton_subseteq_l | done].
      * intros key. destruct (decide (key = i)) as [->|Hne].
        -- rewrite !lookup_insert_eq. obind. by rewrite Hv1.
        -- rewrite !lookup_insert_ne by done. apply Hlook.
Qed.

(** the two loops of ProximityConstraint *)
Lemma merge_sens_spec (funcSensA funcSensB : gmap string Sens) (key : string) :
  ProximityConstraint.merge_sens funcSensA funcSensB !! key
  = union_with (λ a b, Some (sens_add a b)) (funcSensA !! key) (funcSensB !! key).
Proof.
  unfold ProximityConstraint.merge_sens.
  assert (HA : map_fold (λ key value (d : gmap string Sens), <[key:=value]> d)
                 ∅ funcSensA = funcSensA).
  { apply (map_fold_weak_ind (λ r (m : gmap string Sens), r = m)); [done|].
    by intros i x m r _ ->. }
  rewrite HA. revert key.
  apply (map_fold_weak_ind
           (λ (r m : gmap string Sens),
              ∀ key, r !! key
                     = union_with (λ a b, Some (sens_add a b))
                         (funcSensA !! key) (m !! key))).
  - intros key. rewrite lookup_empty. by destruct (funcSensA !! key).
  - intros i x m r Hi IH key. pose proof (IH i) as IHi. rewrite Hi in IHi.
    destruct (decide (key = i)) as [->|Hne].
    + rewrite lookup_insert_eq.
      destruct (funcSensA !! i) as [a|]; cbn in IHi; rewrite IHi.
      * by rewrite lookup_insert_eq.
      * by rewrite lookup_insert_eq.
    + rewrite (lookup_insert_ne m) by done. rewrite <- IH.
      destruct (r !! i); by rewrite lookup_insert_ne.
Qed.
End Combine.

(** ** ProximityConstraint: seeds *)

Section ProximitySens.
Context `{DVGeoAPI} `{GeoUtils}.
Import ProximityConstraint.


Lemma Proximity_sens_body_prod o i dA dB :
  sens_body o i (dA, dB)
  = (dA' ← pair_step fst o i dA; dB' ← pair_step snd o i dB; Some (dA', dB')).
Proof.
  unfold sens_body, pair_step, pair_seed.
  destruct (coordsA o !! i) as [a|]; obind; [|done].
  destruct (coordsB o !! i) as [b|]; obind; [|done].
  destruct (eDist_b a b) as [pAb pBb].
  destruct (scaled o); [destruct (D0 o !! i) as [d0|]; obind; [|done]|]; obind;
    cbn [fst snd];
    (destruct (set_item2 i i _ dA) as [dA'|]; obind; [|done]);
    by destruct (set_item2 i i _ dB).
Qed.

Lemma pair_step_fill pick o i dTdPt row :
  dTdPt !! i = Some row →
  pair_step pick o i dTdPt
  = (r ← (v ← pair_seed pick o i; set_item i v row); Some (<[i:=r]> dTdPt)).
Proof.
  intros HJ. unfold pair_step.
  destruct (pair_seed pick o i) as [v|]; obind; [|done].
  by apply set_item2_row.
Qed.

(** the loop of [evalFunctionsSens] succeeds on an object that holds the
    points it indexes *)
Lemma Proximity_sens_loop o :
  nCon (base o) ≤ length (coordsA o) → nCon (base o) ≤ length (coordsB o) →
  nCon (base o) ≤ length (D0 o) →
  is_Some (for_range (nCon (base o)) (sens_body o)
             (zeros3 (nCon (base o)) (nCon (base o)),
              zeros3 (nCon (base o)) (nCon (base o)))).
Proof.
  intros HA HB HD. unfold for_range.
  rewrite (for_each_prod2 _ _ _ (Proximity_sens_body_prod o)).
  fold (for_range (nCon (base o)) (pair_step fst o)
          (zeros3 (nCon (base o)) (nCon (base o)))).
  fold (for_range (nCon (base o)) (pair_step snd o)
          (zeros3 (nCon (base o)) (nCon (base o)))).
  unfold zeros3.
  rewrite !(for_range_fill _ _ _ _ (pair_step_fill _ o)).
  assert (Hstep : ∀ pick,
            is_Some (mapM (λ i, v ← pair_seed pick o i;
                                set_item i v (zeros2 (nCon (base o))))
                       (seq 0 (nCon (base o))))).
  { intros pick. apply mapM_seq_is_Some. intros i Hi. unfold pair_seed.
    destruct (lookup_lt_is_Some_2 (coordsA o) i) as [a ->]; [lia|].
    destruct (lookup_lt_is_Some_2 (coordsB o) i) as [b ->]; [lia|].
    destruct (lookup_lt_is_Some_2 (D0 o) i) as [d0 ->]; [lia|].
    obind. destruct (eDist_b a b) as [pAb pBb].
    destruct (scaled o); obind;
      (rewrite set_item_lt by (unfold zeros2; rewrite length_replicate; lia));
      by eexists. }
  destruct (Hstep fst) as [dA ->]. destruct (Hstep snd) as [dB ->]. by eexists.
Qed.
End ProximitySens.

(** C9.  With at least one design variable: KSMaxThicknessToChordConstraint
    combines the dictionaries [tmp0] (toothpick points) and [tmp1] (leading
    and trailing edge points) returned by the engine by going over the keys of
    [tmp0] only.  When every key of [tmp0] is a key of [tmp1] it stores under
    [funcsSens[name]] a dictionary that holds [tmp0[key] + tmp1[key]] for the
    keys of [tmp0] and nothing else, so a key of [tmp1] alone is dropped
    without an exception.  ProximityConstraint stores a dictionary whose keys
    are the keys of either of its two results, the values added where both
    have the key. *)
Theorem evalFunctionsSens_combined_keys `{DVGeoAPI} `{GeoUtils} `{Numpy}
    (funcsSens : gmap string (gmap string Sens)) (config : Config) :
  (∀ (s : Sys KSMaxThicknessToChordConstraint.t) le te rest,
     let o := self s in
     let nm := name (KSMaxThicknessToChordConstraint.base o) in
     (0 < dv_getNDV (dvgeo (world s)))%Z →
     KSMaxThicknessToChordConstraint.leTePts o = le :: te :: rest →
     2 * KSMaxThicknessToChordConstraint.nPoint o
     ≤ length (KSMaxThicknessToChordConstraint.coords o) →
     (∀ g, length (KS_derivatives g (KSMaxThicknessToChordConstraint.rho o)
                     (KSMaxThicknessToChordConstraint.ksApproach o)).1 = length g) →
     ∃ seedC seedL g1 tmp0 g2 tmp1,
       dv_totalSensitivity (dvgeo (world s)) (Seed2 seedC) (nm +:+ "_coords") config
       = (g1, tmp0)
       ∧ dv_totalSensitivity g1 (Seed2 seedL) (nm +:+ "_lete") config = (g2, tmp1)
       ∧ (dom tmp0 ⊆ dom tmp1 →
          ∃ total,
            (KSMaxThicknessToChordConstraint.evalFunctionsSens funcsSens config s).2
            = Some (<[nm := total]> funcsSens)
            ∧ dom total = dom tmp0
            ∧ (∀ key v0 v1, tmp0 !! key = Some v0 → tmp1 !! key = Some v1 →
                 total !! key = Some (sens_add v0 v1))
            ∧ (∀ key, tmp0 !! key = None → total !! key = None)))
  ∧ (∀ s : Sys ProximityConstraint.t,
     let o := self s in
     let n := nCon (ProximityConstraint.base o) in
     let nm := name (ProximityConstraint.base o) in
     (0 < dv_getNDV (dvgeo (world s)))%Z →
     n ≤ length (ProximityConstraint.coordsA o) →
     n ≤ length (ProximityConstraint.coordsB o) →
     n ≤ length (ProximityConstraint.D0 o) →
     ∃ dTdPtA dTdPtB gA funcSensA gB funcSensB total,
       dv_totalSensitivity (dvgeo (world s)) (Seed3 dTdPtA) (nm +:+ "_A") config
       = (gA, funcSensA)
       ∧ dv_totalSensitivity gA (Seed3 dTdPtB) (nm +:+ "_B") config = (gB, funcSensB)
       ∧ (ProximityConstraint.evalFunctionsSens funcsSens config s).2
         = Some (<[nm := total]> funcsSens)
       ∧ dom total = dom funcSensA ∪ dom funcSensB
       ∧ ∀ key, total !! key
                = union_with (λ a b, Some (sens_add a b))
                    (funcSensA !! key) (funcSensB !! key)).
Proof.
  split.
  - intros s le te rest o nm HnDV Hlt Hlen Hks. subst o nm.
    destruct (KSMax_sens_arrays_exist (self s) le te Hlen Hks)
      as (dC & dL & ToC & sC & sL & HdC & HdL & HT & HsC & HsL).
    pose proof (KSMax_evalFunctionsSens_run s funcsSens config le te rest
                  dC dL ToC sC sL HnDV Hlt HdC HdL HT HsC HsL) as Hrun.
    cbv zeta in Hrun.
    unfold KSMaxThicknessToChordConstraint.coords_name,
      KSMaxThicknessToChordConstraint.lete_name in Hrun.
    destruct (dv_totalSensitivity (dvgeo (world s)) _ _ _) as [g1 tmp0] eqn:Ht0.
    destruct (dv_totalSensitivity g1 _ _ _) as [g2 tmp1] eqn:Ht1.
    exists (concat sC), sL, g1, tmp0, g2, tmp1.
    split; [done|]. split; [done|]. intros Hdom.
    destruct (combine_spec tmp0 tmp1) as [Hsome Hspec].
    destruct (Hsome Hdom) as [total Htotal].
    destruct (Hspec total Htotal) as [_ Hlook].
    exists total. rewrite Hrun. cbn [snd]. rewrite Htotal. obind.
    split; [done|]. split; [|split].
    + apply set_eq. intros key. rewrite !elem_of_dom, Hlook.
      destruct (tmp0 !! key) as [v0|] eqn:Hv0; obind.
      * assert (key ∈ dom tmp1) as [v1 ->]%elem_of_dom.
        { apply Hdom, elem_of_dom. by rewrite Hv0. }
        obind. split; by eexists.
      * split; by intros [? ?].
    + intros key v0 v1 Hv0 Hv1. by rewrite Hlook, Hv0, Hv1.
    + intros key Hv0. by rewrite Hlook, Hv0.
  - intros s o n nm HnDV HA HB HD. subst o n nm.
    destruct (Proximity_sens_loop (self s) HA HB HD) as [[dA dB] Hloop].
    destruct (dv_totalSensitivity (dvgeo (world s)) (Seed3 dA)
                (name (ProximityConstraint.base (self s)) +:+ "_A") config)
      as [gA fA] eqn:HfA.
    destruct (dv_totalSensitivity gA (Seed3 dB)
                (name (ProximityConstraint.base (self s)) +:+ "_B") config)
      as [gB fB] eqn:HfB.
    exists dA, dB, gA, fA, gB, fB, (ProximityConstraint.merge_sens fA fB).
    split; [done|]. split; [done|]. split; [|split].
    + unfold ProximityConstraint.evalFunctionsSens. run.
      apply Z.ltb_lt in HnDV. rewrite HnDV. run.
      rewrite Hloop. run.
      unfold ProximityConstraint.A_name, ProximityConstraint.B_name.
      rewrite HfA. run. by rewrite HfB.
    + apply set_eq. intros key.
      rewrite elem_of_union, !elem_of_dom, merge_sens_spec.
      destruct (fA !! key), (fB !! key); cbn; split;
        try (intros [? ?]; done); try (intros [[? ?]|[? ?]]; done);
        eauto.
    + intros key. apply merge_sens_spec.
Qed.

Section CombinedKeysInstance.
Import Model.

Lemma evalFunctionsSens_combined_keys_witness :
  (∃ total,
     (KSMaxThicknessToChordConstraint.evalFunctionsSens ∅ tt
        (mkSys (Examples.ksmax true [0.5; 1]%float 1%float)
               (Examples.ksmax_world Examples.ksmax_moves 1))).2
     = Some (<["ks" := total]> ∅)
     ∧ is_Some (total !! "twist") ∧ total !! "sweep" = None)
  ∧ (∃ total,
       (ProximityConstraint.evalFunctionsSens ∅ tt
          (mkSys Examples.proximity Examples.proximity_world_sweep)).2
       = Some (<["p" := total]> ∅)
       ∧ is_Some (total !! "twist") ∧ is_Some (total !! "sweep")).
Proof.
  pose proof (@evalFunctionsSens_combined_keys Model.engine Model.geo_utils
                Model.numpy ∅ tt) as [Hksmax Hproximity].
  split.
  - destruct (Hksmax (mkSys (Examples.ksmax true [0.5; 1]%float 1%float)
                        (Examples.ksmax_world Examples.ksmax_moves 1))
                Examples.le_pt Examples.te_pt [])
      as (seedC & seedL & g1 & tmp0 & g2 & tmp1 & Ht0 & Ht1 & Hcombine).
    + reflexivity.
    + reflexivity.
    + vm_compute. lia.
    + intros g. apply first_hit_length.
    + injection Ht0 as <- <-. injection Ht1 as <- <-.
      destruct Hcombine as (total & Hres & Hdom & Hadd & Hnone).
      { change (dom (<["twist" := [seed_sum seedC]]> (∅ : gmap string (list float)))
                ⊆ dom (<["twist" := [seed_sum seedL]]>
                         (<["sweep" := [seed_sum seedL]]>
                            (∅ : gmap string (list float))))).
        rewrite !dom_insert_L. apply union_mono_l, union_subseteq_r. }
      exists total. split; [exact Hres|]. split.
      * erewrite Hadd; [by eexists| |]; reflexivity.
      * apply Hnone. reflexivity.
  - destruct (Hproximity (mkSys Examples.proximity Examples.proximity_world_sweep))
      as (dA & dB & gA & fA & gB & fB & total & HfA & HfB & Hres & _ & Hlook).
    + reflexivity.
    + vm_compute. lia.
    + vm_compute. lia.
    + vm_compute. lia.
    + injection HfA as <- <-. injection HfB as <- <-.
      exists total. split; [exact Hres|]. rewrite !Hlook. split; by eexists.
Defined.
End CombinedKeysInstance.

(** ** TESlopeConstraint *)

Lemma stride2_length {A} (l : list A) : length (stride2 l) = (length l + 1) / 2.
Proof.
  induction l as [l IH] using (induction_ltof1 _ length). unfold ltof in IH.
  destruct l as [|x [|y l]]; [done..|].
  cbn [stride2 length]. rewrite IH by (cbn; lia).
  replace (S (S (length l)) + 1) with (length l + 1 + 1 * 2) by lia.
  rewrite Nat.div_add by lia. lia.
Qed.

Lemma broadcast2_same {A B C} (f : A → B → C) xs ys :
  length xs = length ys → broadcast2 f xs ys = Some (zip_with f xs ys).
Proof. intros Hl. unfold broadcast2. by rewrite decide_True. Qed.

Lemma broadcast_to_same {A} (n : nat) (xs : list A) :
  length xs = n → broadcast_to n xs = Some xs.
Proof. intros Hl. unfold broadcast_to. by rewrite decide_True. Qed.

Lemma cumsum_from_length acc l : length (cumsum_from acc l) = length l.
Proof. revert acc. induction l as [|x l IH]; intros acc; cbn; [done|]. by rewrite IH. Qed.

Lemma cumsum_length l : length (cumsum l) = length l.
Proof. destruct l; cbn; [done|]. by rewrite cumsum_from_length. Qed.

Lemma tail_length {A} (l : list A) : length (tail l) = length l - 1.
Proof. destruct l; cbn; lia. Qed.

Lemma but_last_length {A} (l : list A) : length (but_last l) = length l - 1.
Proof. unfold but_last. rewrite length_take. lia. Qed.

Section TESlopeShape.
Context `{DVGeoAPI} `{GeoUtils} `{Numpy}.
Import TESlopeConstraint.

(** on the coordinates of [n] toothpicks and a trailing edge point [_compute]
    returns [n] values *)
Lemma compute_shape {T} `{Dtype T} (n : nat) (ts0 : list float)
    (coords : list (vec3 T)) (scaled : bool) :
  length coords = 2 * n + 1 → (scaled = true → length ts0 = n) →
  ∃ r, _compute n ts0 coords scaled = Some r ∧ length r = n.
Proof.
  intros Hlen Hts0. unfold _compute.
  assert (Htop : length (stride2 (but_last coords)) = n).
  { rewrite stride2_length, but_last_length, Hlen.
    replace (2 * n + 1 - 1 + 1) with (1 + n * 2) by lia.
    rewrite Nat.div_add by lia. done. }
  assert (Hbot : length (stride2 (tail (but_last coords))) = n).
  { rewrite stride2_length, tail_length, but_last_length, Hlen.
    destruct n as [|n]; [done|].
    replace (2 * S n + 1 - 1 - 1 + 1) with (0 + S n * 2) by lia.
    rewrite Nat.div_add by lia. done. }
  rewrite broadcast2_same by lia. obind.
  rewrite broadcast2_same by (rewrite length_map, length_zip_with; lia). obind.
  rewrite broadcast_to_same
    by (rewrite length_map, length_zip_with, length_map, length_zip_with; lia).
  obind.
  destruct (last coords) as [te|] eqn:Hte.
  2:{ apply last_None in Hte. subst coords. cbn in Hlen. lia. }
  obind.
  set (mids := map (vmap t_to_float) _).
  assert (Hmids : length mids = n).
  { unfold mids.
    rewrite length_map, length_zip_with, length_map, length_zip_with. lia. }
  assert (HxMid : length (mids ++ drop n (zeros2 (n + 1))) = n + 1).
  { rewrite length_app, length_drop. unfold zeros2. rewrite length_replicate. lia. }
  rewrite set_item_lt by lia. obind.
  set (xMid := <[_ := _]> _).
  assert (HxMid' : length xMid = n + 1) by (unfold xMid; by rewrite length_insert).
  set (c := reverse (cumsum (reverse _))).
  assert (Hc : length c = n).
  { unfold c. rewrite length_reverse, cumsum_length, length_reverse, length_map,
      length_zip_with, but_last_length, tail_length. lia. }
  rewrite broadcast2_same by (rewrite length_map, length_zip_with; lia). obind.
  set (teSlope := zip_with _ _ c).
  assert (HteSlope : length teSlope = n).
  { unfold teSlope. rewrite length_zip_with, length_map, length_zip_with. lia. }
  destruct scaled.
  - rewrite broadcast_to_same by (rewrite Hts0; done). obind.
    eexists. split; [done|]. rewrite length_zip_with, Hts0 by done. lia.
  - by eexists.
Qed.
End TESlopeShape.



Lemma vget_vset {T} (j : axis) (v : T) (p : vec3 T) : vget j (vset j v p) = v.
Proof. by destruct j. Qed.

Lemma vget_vset_ne {T} (j j' : axis) (v : T) (p : vec3 T) :
  j ≠ j' → vget j' (vset j v p) = vget j' p.
Proof. by destruct j, j'. Qed.

Lemma vset_vget {T} (j : axis) (p : vec3 T) : vset j (vget j p) p = p.
Proof. by destruct j, p. Qed.

Lemma vset_vset {T} (j : axis) (v w : T) (p : vec3 T) :
  vset j v (vset j w p) = vset j v p.
Proof. by destruct j. Qed.

Lemma vget_vmap {A B} (f : A → B) (j : axis) (p : vec3 A) :
  vget j (vmap f p) = f (vget j p).
Proof. by destruct j. Qed.

Lemma for_each_invariant {A S} (body : A → S → option S)
    (P : list A → S → Prop) (l : list A) :
  ∀ pre s, P pre s →
    (∀ pre' a s, a ∈ l → P pre' s → ∃ s', body a s = Some s' ∧ P (pre' ++ [a]) s') →
    ∃ s', for_each body l s = Some s' ∧ P (pre ++ l) s'.
Proof.
  induction l as [|a l IH]; intros pre s HP Hstep.
  - exists s. by rewrite app_nil_r.
  - destruct (Hstep pre a s) as (s1 & Hs1 & HP1); [left|done|].
    destruct (IH (pre ++ [a]) s1 HP1) as (s' & Hs' & HP').
    { intros pre' a' s0 Ha'. apply Hstep. by right. }
    exists s'. cbn [for_each]. rewrite Hs1. obind.
    by rewrite <- app_assoc in HP'.
Qed.

Section TESlopeSens.
Context `{DVGeoAPI} `{GeoUtils} `{Numpy}.
Import TESlopeConstraint.

Lemma perturb_alter i j (f : complex128 → complex128) coords :
  i < length coords →
  perturb i j f coords = Some (alter (λ p, vset j (f (vget j p)) p) i coords).
Proof.
  intros Hi. unfold perturb.
  destruct (lookup_lt_is_Some_2 coords i Hi) as [p Hp]. rewrite Hp. obind.
  rewrite set_item_lt by done. f_equal. apply list_eq. intros k.
  destruct (decide (k = i)) as [->|Hne].
  - by rewrite list_lookup_insert_eq, list_lookup_alter_eq, Hp.
  - by rewrite list_lookup_insert_ne, list_lookup_alter_ne.
Qed.

(** removing the step from the perturbed entry gives the array back where
    adding and subtracting the step is exact on that entry *)
Lemma perturb_reset i j coords p :
  coords !! i = Some p →
  csub (cadd (vget j p) step_imag) step_imag = vget j p →
  perturb i j (λ z, csub z step_imag) (perturbed i j coords) = Some coords.
Proof.
  intros Hp Hexact. unfold perturbed.
  rewrite perturb_alter by (rewrite length_alter; by eapply lookup_lt_Some).
  f_equal. apply list_eq. intros k. destruct (decide (k = i)) as [->|Hne].
  - rewrite !list_lookup_alter_eq, Hp. cbn.
    by rewrite vget_vset, vset_vset, Hexact, vset_vget.
  - by rewrite !list_lookup_alter_ne.
Qed.

Lemma set_column_spec i j vals J N :
  length vals = length J → Forall (λ row : list (vec3 float), length row = N) J →
  i < N →
  ∃ J', set_column i j vals J = Some J'
      ∧ length J' = length J
      ∧ Forall (λ row : list (vec3 float), length row = N) J'
      ∧ column_is i j vals J'
      ∧ ∀ i' j' vals', (i', j') ≠ (i, j) →
          column_is i' j' vals' J → column_is i' j' vals' J'.
Proof.
  intros Hlen Hrows Hi. unfold set_column. rewrite broadcast_to_same by done. obind.
  set (f := λ '(row, v), p ← row !! i; set_item i (vset j v p) row).
  assert (Hf : ∀ row v, length row = N →
            ∃ p, row !! i = Some p ∧ f (row, v) = Some (<[i := vset j v p]> row)).
  { intros row v Hrow. destruct (lookup_lt_is_Some_2 row i) as [p Hp]; [lia|].
    exists p. split; [done|]. unfold f. rewrite Hp. obind.
    by rewrite set_item_lt by lia. }
  destruct (mapM f (zip J vals)) as [J'|] eqn:HJ'.
  2:{ apply mapM_None in HJ'. apply Exists_exists in HJ' as ([row v] & Hin & Hnone).
      apply elem_of_zip_l in Hin as Hrow.
      rewrite Forall_forall in Hrows.
      destruct (Hf row v (Hrows _ Hrow)) as (p & _ & Hsome). congruence. }
  exists J'. split; [done|]. apply mapM_Some in HJ'.
  assert (HlenJ' : length J' = length J).
  { apply Forall2_length in HJ'. rewrite length_zip in HJ'. lia. }
  assert (Hrow' : ∀ c row', J' !! c = Some row' →
            ∃ row v p, J !! c = Some row ∧ vals !! c = Some v
                     ∧ row !! i = Some p ∧ row' = <[i := vset j v p]> row).
  { intros c row' Hc.
    destruct (Forall2_lookup_r _ _ _ _ _ HJ' Hc) as ([row v] & Hz & Hfz).
    apply lookup_zip_with_Some in Hz as (row0 & v0 & Heq & Hrow & Hv).
    simplify_eq.
    destruct (Hf row0 v0) as (p & Hp & Hsome).
    { rewrite Forall_lookup in Hrows. by eapply Hrows. }
    exists row0, v0, p. rewrite Hsome in Hfz. by simplify_eq. }
  split; [done|]. split; [|split; [split|]].
  - apply Forall_lookup_2. intros c row' Hc.
    destruct (Hrow' c row' Hc) as (row & v & p & Hrow & _ & _ & ->).
    rewrite length_insert. rewrite Forall_lookup in Hrows. by eapply Hrows.
  - lia.
  - intros c v Hv.
    destruct (lookup_lt_is_Some_2 J' c) as [row' Hc].
    { apply lookup_lt_Some in Hv. lia. }
    destruct (Hrow' c row' Hc) as (row & v' & p & Hrow & Hv' & Hp & ->).
    exists (<[i := vset j v' p]> row), (vset j v' p).
    split; [done|]. split.
    + apply list_lookup_insert_eq. by eapply lookup_lt_Some.
    + rewrite vget_vset. congruence.
  - intros i' j' vals' Hne [Hl Hcol]. split; [lia|].
    intros c v Hv. destruct (Hcol c v Hv) as (row & q & Hrow & Hq & Hget).
    destruct (lookup_lt_is_Some_2 J' c) as [row' Hc].
    { apply lookup_lt_Some in Hrow. lia. }
    destruct (Hrow' c row' Hc) as (row0 & v' & p & Hrow0 & Hv' & Hp & ->).
    simplify_eq. exists (<[i := vset j v' p]> row).
    destruct (decide (i' = i)) as [->|Hi'].
    + exists (vset j v' p). split; [done|]. split.
      * apply list_lookup_insert_eq. by eapply lookup_lt_Some.
      * simplify_eq. apply vget_vset_ne. congruence.
    + exists q. split; [done|]. split; [|done].
      by rewrite list_lookup_insert_ne.
Qed.
End TESlopeSens.


Section TESlopeLoop.
Context `{DVGeoAPI} `{GeoUtils} `{Numpy}.
Import TESlopeConstraint.


Lemma columns_done_weaken o coordsD (done done' : nat → axis → Prop) J :
  (∀ i j, done' i j → done i j) →
  columns_done o coordsD done J → columns_done o coordsD done' J.
Proof. intros Hsub (Hl & Hr & Hc). repeat apply conj; try done. eauto. Qed.

Lemma sens_step_spec o coordsD done J i j p :
  length coordsD = 2 * nCon (base o) + 1 →
  (scaled o = true → length (teSlope0 o) = nCon (base o)) →
  coordsD !! i = Some p →
  csub (cadd (vget j p) step_imag) step_imag = vget j p →
  columns_done o coordsD done J →
  ∃ J', sens_step o i j (coordsD, J) = Some (coordsD, J')
      ∧ columns_done o coordsD (λ i' j', done i' j' ∨ (i' = i ∧ j' = j)) J'.
Proof.
  intros Hshape Hts0 Hp Hexact (HlenJ & Hrows & Hcols).
  pose proof (lookup_lt_Some _ _ _ Hp) as Hi.
  unfold sens_step. rewrite perturb_alter by done. obind.
  fold (perturbed i j coordsD).
  destruct (compute_shape (nCon (base o)) (teSlope0 o) (perturbed i j coordsD)
              (scaled o)) as (conVal & HconVal & HlenV); [|done|].
  { unfold perturbed. by rewrite length_alter. }
  rewrite HconVal. obind.
  destruct (set_column_spec i j (map (λ z, im z / step_real)%float conVal) J
              (length coordsD))
    as (J' & HJ' & HlenJ' & Hrows' & Hcol & Hkeep); [|done|done|].
  { rewrite length_map. lia. }
  rewrite HJ'. obind. rewrite (perturb_reset i j coordsD p Hp Hexact). obind.
  exists J'. split; [done|]. split; [lia|]. split; [done|].
  intros i' j' Hdone.
  destruct (decide ((i', j') = (i, j))) as [Heq|Hne].
  - simplify_eq. by exists conVal.
  - destruct Hdone as [Hdone|[-> ->]]; [|done].
    destruct (Hcols i' j' Hdone) as (conVal' & Hc' & Hcol').
    exists conVal'. split; [done|]. by apply Hkeep.
Qed.

(** the double loop of [evalFunctionsSens] *)
Lemma sens_loop_spec o coordsD :
  length coordsD = 2 * nCon (base o) + 1 →
  (scaled o = true → length (teSlope0 o) = nCon (base o)) →
  (∀ i p j, coordsD !! i = Some p →
            csub (cadd (vget j p) step_imag) step_imag = vget j p) →
  ∃ J, for_range (length coordsD) (λ i st, for_each (sens_step o i) axes st)
         (coordsD, zeros3 (nCon (base o)) (length coordsD))
       = Some (coordsD, J)
     ∧ columns_done o coordsD (λ i _, i < length coordsD) J.
Proof.
  intros Hshape Hts0 Hexact. unfold for_range.
  destruct (for_each_invariant
              (λ i st, for_each (sens_step o i) axes st)
              (λ pre st, st.1 = coordsD
                         ∧ columns_done o coordsD (λ i _, i ∈ pre) st.2)
              (seq 0 (length coordsD)) []
              (coordsD, zeros3 (nCon (base o)) (length coordsD)))
    as ([coords' J] & Hloop & Hcoords & Hdone).
  - split; [done|]. cbn [snd]. unfold zeros3, zeros2. repeat apply conj.
    + apply length_replicate.
    + apply Forall_replicate, length_replicate.
    + intros i j Hin. by apply elem_of_nil in Hin.
  - intros pre i [coords J] Hi [Hcoords Hdone]. cbn [fst snd] in *. subst coords.
    apply elem_of_seq in Hi.
    destruct (lookup_lt_is_Some_2 coordsD i) as [p Hp]; [lia|].
    destruct (for_each_invariant (sens_step o i)
                (λ prej st, st.1 = coordsD
                            ∧ columns_done o coordsD
                                (λ i' j', i' ∈ pre ∨ (i' = i ∧ j' ∈ prej)) st.2)
                axes [] (coordsD, J))
      as ([coords' J'] & Hloop & Hcoords & Hdone').
    + split; [done|]. cbn [snd]. eapply columns_done_weaken; [|exact Hdone].
      intros i' j' [Hin|[_ Hin]]; [done|]. by apply elem_of_nil in Hin.
    + intros prej j [coords J0] _ [Hcoords Hdone0]. cbn [fst snd] in *.
      subst coords.
      destruct (sens_step_spec o coordsD _ J0 i j p Hshape Hts0 Hp
                  (Hexact i p j Hp) Hdone0) as (J1 & Hstep & Hdone1).
      exists (coordsD, J1). split; [done|]. split; [done|]. cbn [snd].
      eapply columns_done_weaken; [|exact Hdone1].
      intros i' j' [Hin|[-> Hin]]; [by left; left|].
      apply elem_of_app in Hin as [Hin|Hin]; [left; right; done|].
      apply list_elem_of_singleton in Hin. by right.
    + cbn [fst snd] in *. subst coords'. exists (coordsD, J').
      split; [done|]. split; [done|]. cbn [snd].
      eapply columns_done_weaken; [|exact Hdone'].
      intros i' j' Hin. apply elem_of_app in Hin as [Hin|Hin]; [by left|].
      apply list_elem_of_singleton in Hin. right. split; [done|].
      unfold axes. destruct j'; repeat constructor.
  - cbn [fst snd] in *. subst coords'. exists J. split; [done|].
    eapply columns_done_weaken; [|exact Hdone].
    intros i j Hi. cbn. apply elem_of_seq. lia.
Qed.
End TESlopeLoop.

(** adding zero to a float64 number other than -0 and subtracting zero from
    any float64 number are exact *)
Lemma float_add_zero (x : float) : x ≠ (-0)%float → (x + 0)%float = x.
Proof.
  intros Hx. apply Prim2SF_inj. rewrite add_spec.
  change (Prim2SF 0) with (S754_zero false).
  destruct (Prim2SF x) as [sg|sg| |sg m e] eqn:E; try reflexivity.
  destruct sg; [|reflexivity]. exfalso. apply Hx, Prim2SF_inj. by rewrite E.
Qed.

Lemma float_sub_zero (x : float) : (x - 0)%float = x.
Proof.
  apply Prim2SF_inj. rewrite sub_spec.
  change (Prim2SF 0) with (S754_zero false).
  destruct (Prim2SF x) as [sg|sg| |sg m e] eqn:E; try reflexivity.
  all: by destruct sg.
Qed.

(** the complex step is removed exactly from a coordinate other than -0 *)
Lemma step_exact (x : float) :
  x ≠ (-0)%float → csub (cadd (astypeD x) step_imag) step_imag = astypeD x.
Proof.
  intros Hx. unfold csub, cadd, astypeD, step_imag, fzero. cbn [re im].
  by rewrite (float_add_zero x Hx), float_sub_zero.
Qed.

(** C4.  With at least one design variable, [evalFunctionsSens] of a
    TESlopeConstraint on [n] toothpicks and a trailing edge point fills the
    Jacobian by complex steps: for every point [i] and coordinate [j] the
    column [dTeSlopePt[:, i, j]] is the imaginary part of [_compute] on the
    coordinates with [1e-40j] added to entry [(i, j)], divided by [1e-40].
    The step is removed after each column, so every column is computed from
    the unperturbed coordinates with that one entry perturbed.  The Jacobian
    is handed to [DVGeo.totalSensitivity] and the result stored under
    [funcsSens[name]].  No coordinate is taken to be the float64 number -0. *)
Theorem TESlope_evalFunctionsSens_complex_step `{DVGeoAPI} `{GeoUtils} `{Numpy}
    (s : Sys TESlopeConstraint.t)
    (funcsSens : gmap string (gmap string Sens)) (config : Config) :
  let o := self s in
  let n := nCon (TESlopeConstraint.base o) in
  let nm := name (TESlopeConstraint.base o) in
  let coords := TESlopeConstraint.coords o in
  (0 < dv_getNDV (dvgeo (world s)))%Z →
  length coords = 2 * n + 1 →
  (TESlopeConstraint.scaled o = true → length (TESlopeConstraint.teSlope0 o) = n) →
  (∀ p j, p ∈ coords → vget j p ≠ (-0)%float) →
  ∃ J,
    TESlopeConstraint.evalFunctionsSens funcsSens config s
    = after_totalSensitivity s (Seed3 J) nm nm config funcsSens
    ∧ length J = n
    ∧ ∀ i j, i < length coords →
        ∃ conVal,
          TESlopeConstraint._compute n (TESlopeConstraint.teSlope0 o)
            (perturbed i j (map (vmap astypeD) coords))
            (TESlopeConstraint.scaled o)
          = Some conVal
          ∧ column_is i j (map (λ z, im z / step_real)%float conVal) J.
Proof.
  intros o n nm coords HnDV Hshape Hts0 Hnz. subst o n nm coords.
  destruct (sens_loop_spec (self s)
              (map (vmap astypeD) (TESlopeConstraint.coords (self s))))
    as (J & Hloop & HlenJ & _ & Hcols).
  { by rewrite length_map. }
  { done. }
  { intros i p j Hp. rewrite list_lookup_fmap in Hp.
    destruct (TESlopeConstraint.coords (self s) !! i) as [p0|] eqn:Hp0; [|done].
    cbn in Hp. simplify_eq. rewrite vget_vmap. apply step_exact, Hnz.
    by eapply list_elem_of_lookup_2. }
  rewrite length_map in Hloop, Hcols.
  exists J. split; [|split; [done|]].
  - unfold TESlopeConstraint.evalFunctionsSens, after_totalSensitivity. run.
    apply Z.ltb_lt in HnDV. rewrite HnDV. run. rewrite Hloop. run.
    destruct (dv_totalSensitivity _ _ _ _). by rewrite <- app_assoc.
  - intros i j Hi. by apply Hcols.
Qed.

Section ComplexStepInstance.
Import Model.

Lemma TESlope_evalFunctionsSens_complex_step_witness :
  TESlopeConstraint.init "te" Examples.closeout None None true 1%float false tt
    (Examples.world_with ["te"] 1)
  = (Examples.teslope_world, Some Examples.teslope)
  ∧ ∃ J,
      TESlopeConstraint.evalFunctionsSens ∅ tt
        (mkSys Examples.teslope Examples.teslope_world)
      = after_totalSensitivity (mkSys Examples.teslope Examples.teslope_world)
          (Seed3 J) "te" "te" tt ∅
      ∧ length J = 2
      ∧ ∀ i j, i < 5 →
          ∃ conVal,
            TESlopeConstraint._compute 2 [1; 1]%float
              (perturbed i j (map (vmap astypeD) Examples.closeout)) true
            = Some conVal
            ∧ column_is i j (map (λ z, im z / step_real)%float conVal) J.
Proof.
  split; [reflexivity|].
  apply (@TESlope_evalFunctionsSens_complex_step Model.engine Model.geo_utils
           Model.numpy (mkSys Examples.teslope Examples.teslope_world) ∅ tt).
  - reflexivity.
  - reflexivity.
  - reflexivity.
  - intros p j Hin Hzero.
    repeat (apply elem_of_cons in Hin as [->|Hin];
            [destruct j; discriminate Hzero|]).
    by apply elem_of_nil in Hin.
Defined.
End ComplexStepInstance.

(** * Further properties *)

(** ** What the evaluation methods leave alone *)

(** X1.  [evalFunctions] of a constraint on one point set
    (ThicknessConstraint, ProjectedThicknessConstraint,
    ThicknessToChordConstraint, TESlopeConstraint), whether it returns or
    raises, calls [DVGeo.update] once and nothing else, replaces [self.coords]
    by what the engine returned and leaves every other attribute (the
    baseline among them) and the file as they were; when it returns, every
    entry of [funcs] other than [funcs[name]] is as before. *)
Theorem evalFunctions_frame `{DVGeoAPI} `{GeoUtils} `{Numpy}
    (funcs : gmap string FuncVal) (config : Config) :
  (∀ s : Sys ThicknessConstraint.t,
     let nm := name (ThicknessConstraint.base (self s)) in
     let r := ThicknessConstraint.evalFunctions funcs config s in
     r.1 = mkSys (ThicknessConstraint.set_coords
                    (dv_update (dvgeo (world s)) nm config).2 (self s))
             (mkWorld (dv_update (dvgeo (world s)) nm config).1
                (calls (world s) ++ [CUpdate nm config]) (file (world s)))
     ∧ keeps_other_keys nm funcs r.2)
  ∧ (∀ s : Sys ProjectedThicknessConstraint.t,
     let nm := name (ProjectedThicknessConstraint.base (self s)) in
     let r := ProjectedThicknessConstraint.evalFunctions funcs config s in
     r.1 = mkSys (ProjectedThicknessConstraint.set_coords
                    (dv_update (dvgeo (world s)) nm config).2 (self s))
             (mkWorld (dv_update (dvgeo (world s)) nm config).1
                (calls (world s) ++ [CUpdate nm config]) (file (world s)))
     ∧ keeps_other_keys nm funcs r.2)
  ∧ (∀ s : Sys ThicknessToChordConstraint.t,
     let nm := name (ThicknessToChordConstraint.base (self s)) in
     let r := ThicknessToChordConstraint.evalFunctions funcs config s in
     r.1 = mkSys (ThicknessToChordConstraint.set_coords
                    (dv_update (dvgeo (world s)) nm config).2 (self s))
             (mkWorld (dv_update (dvgeo (world s)) nm config).1
                (calls (world s) ++ [CUpdate nm config]) (file (world s)))
     ∧ keeps_other_keys nm funcs r.2)
  ∧ (∀ s : Sys TESlopeConstraint.t,
     let nm := name (TESlopeConstraint.base (self s)) in
     let r := TESlopeConstraint.evalFunctions funcs config s in
     r.1 = mkSys (TESlopeConstraint.set_coords
                    (dv_update (dvgeo (world s)) nm config).2 (self s))
             (mkWorld (dv_update (dvgeo (world s)) nm config).1
                (calls (world s) ++ [CUpdate nm config]) (file (world s)))
     ∧ keeps_other_keys nm funcs r.2).
Proof.
  repeat apply conj; intros s nm r; subst nm r.
  - unfold ThicknessConstraint.evalFunctions. run.
    destruct (dv_update _ _ _) as [g c]. run.
    destruct (for_range _ _ _); (split; [done|]); intros funcs' Hr key Hkey;
      cbn in Hr; simplify_eq. by rewrite lookup_insert_ne.
  - unfold ProjectedThicknessConstraint.evalFunctions. run.
    destruct (dv_update _ _ _) as [g c]. run.
    destruct (for_range _ _ _); (split; [done|]); intros funcs' Hr key Hkey;
      cbn in Hr; simplify_eq. by rewrite lookup_insert_ne.
  - unfold ThicknessToChordConstraint.evalFunctions. run.
    destruct (dv_update _ _ _) as [g c]. run.
    destruct (for_range _ _ _); (split; [done|]); intros funcs' Hr key Hkey;
      cbn in Hr; simplify_eq. by rewrite lookup_insert_ne.
  - unfold TESlopeConstraint.evalFunctions. run.
    destruct (dv_update _ _ _) as [g c]. run.
    destruct (TESlopeConstraint._compute _ _ _ _);
      (split; [done|]); intros funcs' Hr key Hkey;
      cbn in Hr; simplify_eq. by rewrite lookup_insert_ne.
Qed.

(** X2.  [evalFunctions] of a constraint on two point sets
    (KSMaxThicknessToChordConstraint, ProximityConstraint), whether it returns
    or raises, calls [DVGeo.update] once for each point set, the second call
    on the engine the first one left, replaces the two coordinate attributes
    by what the engine returned and leaves every other attribute and the file
    as they were; when it returns, every entry of [funcs] other than
    [funcs[name]] is as before. *)
Theorem evalFunctions_frame_two_point_sets `{DVGeoAPI} `{GeoUtils} `{Numpy}
    (funcs : gmap string FuncVal) (config : Config) :
  (∀ s : Sys KSMaxThicknessToChordConstraint.t,
     let nm := name (KSMaxThicknessToChordConstraint.base (self s)) in
     let r := KSMaxThicknessToChordConstraint.evalFunctions funcs config s in
     let u1 := dv_update (dvgeo (world s)) (nm +:+ "_coords") config in
     let u2 := dv_update u1.1 (nm +:+ "_lete") config in
     r.1 = mkSys (KSMaxThicknessToChordConstraint.set_leTePts u2.2
                    (KSMaxThicknessToChordConstraint.set_coords u1.2 (self s)))
             (mkWorld u2.1
                (calls (world s) ++ [CUpdate (nm +:+ "_coords") config;
                                     CUpdate (nm +:+ "_lete") config])
                (file (world s)))
     ∧ keeps_other_keys nm funcs r.2)
  ∧ (∀ s : Sys ProximityConstraint.t,
     let nm := name (ProximityConstraint.base (self s)) in
     let r := ProximityConstraint.evalFunctions funcs config s in
     let uA := dv_update (dvgeo (world s)) (nm +:+ "_A") config in
     let uB := dv_update uA.1 (nm +:+ "_B") config in
     r.1 = mkSys (ProximityConstraint.set_coordsB uB.2
                    (ProximityConstraint.set_coordsA uA.2 (self s)))
             (mkWorld uB.1
                (calls (world s) ++ [CUpdate (nm +:+ "_A") config;
                                     CUpdate (nm +:+ "_B") config])
                (file (world s)))
     ∧ keeps_other_keys nm funcs r.2).
Proof.
  repeat apply conj; intros s nm r; subst nm r.
  - unfold KSMaxThicknessToChordConstraint.evalFunctions,
      KSMaxThicknessToChordConstraint.coords_name,
      KSMaxThicknessToChordConstraint.lete_name. run.
    destruct (dv_update _ _ _) as [g1 c]. run.
    destruct (dv_update _ _ _) as [g2 lt]. run. rewrite <- app_assoc.
    destruct (for_range _ _ _); (split; [done|]); intros funcs' Hr key Hkey;
      cbn in Hr; simplify_eq. by rewrite lookup_insert_ne.
  - unfold ProximityConstraint.evalFunctions, ProximityConstraint.A_name,
      ProximityConstraint.B_name. run.
    destruct (dv_update _ _ _) as [gA cA]. run.
    destruct (dv_update _ _ _) as [gB cB]. run. rewrite <- app_assoc.
    destruct (for_range _ _ _); (split; [done|]); intros funcs' Hr key Hkey;
      cbn in Hr; simplify_eq. by rewrite lookup_insert_ne.
Qed.

Lemma sens_frame_getNDV `{DVGeoAPI} {O} (s : Sys O) : sens_frame s (after_getNDV s).
Proof. repeat apply conj; try done. by exists []. Qed.

Lemma sens_frame_one `{DVGeoAPI} {O} (s : Sys O) g J nm config :
  sens_frame s
    (mkSys (self s)
       (mkWorld g
          ((calls (world s) ++ [CGetNDV]) ++ [CTotalSensitivity J nm config])
          (file (world s)))).
Proof.
  repeat apply conj; try done.
  exists [CTotalSensitivity J nm config]. rewrite <- app_assoc.
  split; [done|]. by repeat constructor.
Qed.

Lemma sens_frame_two `{DVGeoAPI} {O} (s : Sys O) g J1 nm1 J2 nm2 config :
  sens_frame s
    (mkSys (self s)
       (mkWorld g
          (((calls (world s) ++ [CGetNDV]) ++ [CTotalSensitivity J1 nm1 config])
           ++ [CTotalSensitivity J2 nm2 config])
          (file (world s)))).
Proof.
  repeat apply conj; try done.
  exists [CTotalSensitivity J1 nm1 config; CTotalSensitivity J2 nm2 config].
  rewrite <- !app_assoc. split; [done|]. by repeat constructor.
Qed.

(** X3.  [evalFunctionsSens] of a constraint on one point set, whatever the
    number of design variables and whether it returns or raises, leaves the
    object and the file as they were and calls the engine for [getNDV] and
    then for [totalSensitivity] only: it never calls [DVGeo.update], so the
    sensitivities are taken at the coordinates the object holds from the last
    [evalFunctions] (or from the constructor). *)
Theorem evalFunctionsSens_frame `{DVGeoAPI} `{GeoUtils} `{Numpy}
    (funcsSens : gmap string (gmap string Sens)) (config : Config) :
  (∀ s, sens_frame s (ThicknessConstraint.evalFunctionsSens funcsSens config s).1)
  ∧ (∀ s, sens_frame s
            (ProjectedThicknessConstraint.evalFunctionsSens funcsSens config s).1)
  ∧ (∀ s, sens_frame s
            (ThicknessToChordConstraint.evalFunctionsSens funcsSens config s).1)
  ∧ (∀ s, sens_frame s (TESlopeConstraint.evalFunctionsSens funcsSens config s).1).
Proof.
  repeat apply conj; intros s.
  - unfold ThicknessConstraint.evalFunctionsSens. run.
    destruct (0 <? _)%Z; run; [|apply sens_frame_getNDV].
    destruct (for_range _ _ _); run; [|apply sens_frame_getNDV].
    destruct (dv_totalSensitivity _ _ _ _). apply sens_frame_one.
  - unfold ProjectedThicknessConstraint.evalFunctionsSens. run.
    destruct (0 <? _)%Z; run; [|apply sens_frame_getNDV].
    destruct (for_range _ _ _); run; [|apply sens_frame_getNDV].
    destruct (dv_totalSensitivity _ _ _ _). apply sens_frame_one.
  - unfold ThicknessToChordConstraint.evalFunctionsSens. run.
    destruct (0 <? _)%Z; run; [|apply sens_frame_getNDV].
    destruct (for_range _ _ _); run; [|apply sens_frame_getNDV].
    destruct (dv_totalSensitivity _ _ _ _). apply sens_frame_one.
  - unfold TESlopeConstraint.evalFunctionsSens. run.
    destruct (0 <? _)%Z; run; [|apply sens_frame_getNDV].
    destruct (for_range _ _ _); run; [|apply sens_frame_getNDV].
    destruct (dv_totalSensitivity _ _ _ _). apply sens_frame_one.
Qed.

(** X4.  [evalFunctionsSens] of a constraint on two point sets, in every
    outcome (also when [KeyError] is raised while the two sensitivity
    dictionaries of a KSMaxThicknessToChordConstraint are combined), leaves
    the object and the file as they were and calls the engine for [getNDV]
    and then for [totalSensitivity] only. *)
Theorem evalFunctionsSens_frame_two_point_sets `{DVGeoAPI} `{GeoUtils} `{Numpy}
    (funcsSens : gmap string (gmap string Sens)) (config : Config) :
  (∀ s, sens_frame s
          (KSMaxThicknessToChordConstraint.evalFunctionsSens funcsSens config s).1)
  ∧ (∀ s, sens_frame s (ProximityConstraint.evalFunctionsSens funcsSens config s).1).
Proof.
  repeat apply conj; intros s.
  - unfold KSMaxThicknessToChordConstraint.evalFunctionsSens. run.
    destruct (0 <? _)%Z; run; [|apply sens_frame_getNDV].
    destruct (for_range _ _ _) as [[[dC dL] ToC]|]; run; [|apply sens_frame_getNDV].
    destruct (KSMaxThicknessToChordConstraint.einsum_scale _ _); run;
      [|apply sens_frame_getNDV].
    destruct (KSMaxThicknessToChordConstraint.einsum_sum _ _ _); run;
      [|apply sens_frame_getNDV].
    destruct (dv_totalSensitivity _ _ _ _). run.
    destruct (dv_totalSensitivity _ _ _ _). run.
    destruct (KSMaxThicknessToChordConstraint.combine _ _); apply sens_frame_two.
  - unfold ProximityConstraint.evalFunctionsSens. run.
    destruct (0 <? _)%Z; run; [|apply sens_frame_getNDV].
    destruct (for_range _ _ _); run; [|apply sens_frame_getNDV].
    destruct (dv_totalSensitivity _ _ _ _). run.
    destruct (dv_totalSensitivity _ _ _ _). apply sens_frame_two.
Qed.

(** ** Which indices the loops reach *)

Lemma mapM_seq_is_Some_iff {A} (g : nat → option A) (n : nat) :
  is_Some (mapM g (seq 0 n)) ↔ ∀ i, i < n → is_Some (g i).
Proof.
  split; [|apply mapM_seq_is_Some].
  intros [vs Hvs] i Hi. destruct (mapM_seq_lookup _ _ _ Hvs) as [_ Hl].
  destruct (Hl i Hi) as (v & -> & _). by eexists.
Qed.

(** the indices [k i + c] for [i < n] lie below [L] exactly when [k n ≤ L],
    for an offset [c] that is the last of a block of [k] *)
Lemma all_below_iff (k n L : nat) :
  0 < k → (∀ i, i < n → k * i + (k - 1) < L) ↔ k * n ≤ L.
Proof.
  intros Hk. split.
  - intros Hall. destruct n as [|n]; [lia|]. specialize (Hall n). nia.
  - intros Hn i Hi. nia.
Qed.

Section Bounds.
Context `{GeoUtils} `{Numpy}.

Lemma toothpick_length_is_Some coords i :
  is_Some (toothpick_length coords i) ↔ 2 * i + 1 < length coords.
Proof.
  unfold toothpick_length. split.
  - intros [v Hv]. destruct (coords !! (2 * i)) as [p|]; [|done].
    destruct (coords !! (2 * i + 1)) as [q|] eqn:Hq; [|done].
    by apply lookup_lt_Some in Hq.
  - intros Hlt.
    destruct (lookup_lt_is_Some_2 coords (2 * i)) as [p ->]; [lia|].
    destruct (lookup_lt_is_Some_2 coords (2 * i + 1)) as [q ->]; [lia|].
    by eexists.
Qed.

Lemma toothpick_direction_is_Some coords i :
  is_Some (toothpick_direction coords i) ↔ 2 * i + 1 < length coords.
Proof.
  unfold toothpick_direction. split.
  - intros [v Hv]. destruct (coords !! (2 * i)) as [p|]; [|done].
    destruct (coords !! (2 * i + 1)) as [q|] eqn:Hq; [|done].
    by apply lookup_lt_Some in Hq.
  - intros Hlt.
    destruct (lookup_lt_is_Some_2 coords (2 * i)) as [p ->]; [lia|].
    destruct (lookup_lt_is_Some_2 coords (2 * i + 1)) as [q ->]; [lia|].
    by eexists.
Qed.

Lemma projected_thickness_is_Some coords dir_vec i :
  is_Some (projected_thickness coords dir_vec i)
  ↔ 2 * i + 1 < length coords ∧ i < length dir_vec.
Proof.
  unfold projected_thickness. split.
  - intros [v Hv]. destruct (coords !! (2 * i)) as [p|]; [|done].
    destruct (coords !! (2 * i + 1)) as [q|] eqn:Hq; [|done].
    destruct (dir_vec !! i) as [n|] eqn:Hn; [|done].
    apply lookup_lt_Some in Hq, Hn. lia.
  - intros [Hlt Hdv].
    destruct (lookup_lt_is_Some_2 coords (2 * i)) as [p ->]; [lia|].
    destruct (lookup_lt_is_Some_2 coords (2 * i + 1)) as [q ->]; [lia|].
    destruct (lookup_lt_is_Some_2 dir_vec i) as [n ->]; [lia|].
    by eexists.
Qed.

Lemma pair_distance_is_Some cA cB i :
  is_Some (pair_distance cA cB i) ↔ i < length cA ∧ i < length cB.
Proof.
  unfold pair_distance. split.
  - intros [v Hv]. destruct (cA !! i) as [p|] eqn:Hp; [|done].
    destruct (cB !! i) as [q|] eqn:Hq; [|done].
    apply lookup_lt_Some in Hp, Hq. lia.
  - intros [HA HB].
    destruct (lookup_lt_is_Some_2 cA i) as [p ->]; [lia|].
    destruct (lookup_lt_is_Some_2 cB i) as [q ->]; [lia|].
    by eexists.
Qed.

Lemma baseline_ratio_is_Some coords i :
  is_Some (baseline_ratio coords i) ↔ 4 * i + 3 < length coords.
Proof.
  unfold baseline_ratio. split.
  - intros [v Hv]. destruct (coords !! (4 * i)) as [p1|]; [|done].
    destruct (coords !! (4 * i + 1)) as [p2|]; [|done].
    destruct (coords !! (4 * i + 2)) as [p3|]; [|done].
    destruct (coords !! (4 * i + 3)) as [p4|] eqn:Hq; [|done].
    by apply lookup_lt_Some in Hq.
  - intros Hlt.
    destruct (lookup_lt_is_Some_2 coords (4 * i)) as [p1 ->]; [lia|].
    destruct (lookup_lt_is_Some_2 coords (4 * i + 1)) as [p2 ->]; [lia|].
    destruct (lookup_lt_is_Some_2 coords (4 * i + 2)) as [p3 ->]; [lia|].
    destruct (lookup_lt_is_Some_2 coords (4 * i + 3)) as [p4 ->]; [lia|].
    by eexists.
Qed.

Lemma current_ratio_is_Some coords i :
  is_Some (current_ratio coords i) ↔ 4 * i + 3 < length coords.
Proof.
  unfold current_ratio. split.
  - intros [v Hv]. destruct (coords !! (4 * i)) as [p1|]; [|done].
    destruct (coords !! (4 * i + 1)) as [p2|]; [|done].
    destruct (coords !! (4 * i + 2)) as [p3|]; [|done].
    destruct (coords !! (4 * i + 3)) as [p4|] eqn:Hq; [|done].
    by apply lookup_lt_Some in Hq.
  - intros Hlt.
    destruct (lookup_lt_is_Some_2 coords (4 * i)) as [p1 ->]; [lia|].
    destruct (lookup_lt_is_Some_2 coords (4 * i + 1)) as [p2 ->]; [lia|].
    destruct (lookup_lt_is_Some_2 coords (4 * i + 2)) as [p3 ->]; [lia|].
    destruct (lookup_lt_is_Some_2 coords (4 * i + 3)) as [p4 ->]; [lia|].
    by eexists.
Qed.

Lemma toc_ratio_is_Some divide coords (le te : option (vec3 float)) i :
  is_Some (toc_ratio divide coords le te i)
  ↔ 2 * i + 1 < length coords ∧ is_Some le ∧ is_Some te.
Proof.
  unfold toc_ratio. split.
  - intros [v Hv]. destruct (coords !! (2 * i)) as [p|]; [|done].
    destruct (coords !! (2 * i + 1)) as [q|] eqn:Hq; [|done].
    destruct le as [l|]; [|done]. destruct te as [t|]; [|done].
    apply lookup_lt_Some in Hq. by eauto.
  - intros (Hlt & [l ->] & [t ->]).
    destruct (lookup_lt_is_Some_2 coords (2 * i)) as [p ->]; [lia|].
    destruct (lookup_lt_is_Some_2 coords (2 * i + 1)) as [q ->]; [lia|].
    by eexists.
Qed.

Lemma scaled_by_is_Some (sc : bool) (D0 : list float) i d :
  is_Some (scaled_by sc D0 i d) ↔ (sc = true → i < length D0).
Proof.
  unfold scaled_by. destruct sc.
  - split.
    + intros [v Hv] _. destruct (D0 !! i) as [d0|] eqn:Hd; [|done].
      by apply lookup_lt_Some in Hd.
    + intros Hlt. destruct (lookup_lt_is_Some_2 D0 i) as [d0 ->]; [by apply Hlt|].
      by eexists.
  - split; [done|]. intros _. by eexists.
Qed.
End Bounds.

(** ** The constructors as equations *)

Section Constructors.
Context `{DVGeoAPI} `{GeoUtils} `{Numpy}.

Lemma Thickness_init_run nm coords lo up sc scl add cn w :
  ThicknessConstraint.init nm coords lo up sc scl add cn w
  = (mkWorld (dv_addPointSet (dvgeo w) coords nm cn None)
       (calls w ++ [CAddPointSet coords nm cn None]) (file w),
     D0 ← mapM (toothpick_length coords) (seq 0 (length coords / 2));
     Some (ThicknessConstraint.mk (mkBase nm (length coords / 2) lo up scl add)
             coords sc D0)).
Proof.
  unfold ThicknessConstraint.init. run. unfold zeros. cbn [nCon].
  rewrite (for_range_fill (λ i _, toothpick_length coords i))
    by apply Thickness_init_body_fill.
  by destruct (mapM _ _).
Qed.

Lemma ToC_init_run nm coords lo up scl add cn w :
  ThicknessToChordConstraint.init nm coords lo up scl add cn w
  = (mkWorld (dv_addPointSet (dvgeo w) coords nm cn None)
       (calls w ++ [CAddPointSet coords nm cn None]) (file w),
     ToC0 ← mapM (baseline_ratio coords) (seq 0 (length coords / 4));
     Some (ThicknessToChordConstraint.mk
             (mkBase nm (length coords / 4) lo up scl add) coords ToC0)).
Proof.
  unfold ThicknessToChordConstraint.init. run. unfold zeros. cbn [nCon].
  rewrite (for_range_fill (λ i _, baseline_ratio coords i))
    by apply ToC_init_body_fill.
  by destruct (mapM _ _).
Qed.

Lemma Proximity_init_run nm cA cB kwA kwB lo up sc scl add cn w :
  ProximityConstraint.init nm cA cB kwA kwB lo up sc scl add cn w
  = (mkWorld
       (dv_addPointSet
          (dv_addPointSet (dvgeo w) cA (ProximityConstraint.A_name nm) cn (Some kwA))
          cB (ProximityConstraint.B_name nm) cn (Some kwB))
       (calls w ++ [CAddPointSet cA (ProximityConstraint.A_name nm) cn (Some kwA);
                    CAddPointSet cB (ProximityConstraint.B_name nm) cn (Some kwB)])
       (file w),
     D0 ← mapM (pair_distance cA cB) (seq 0 (length cA));
     Some (ProximityConstraint.mk (mkBase nm (length cA) lo up scl add)
             cA cB sc D0)).
Proof.
  unfold ProximityConstraint.init. run. unfold zeros. cbn [nCon].
  rewrite (for_range_fill (λ i _, pair_distance cA cB i))
    by apply Proximity_init_body_fill.
  rewrite <- app_assoc. by destruct (mapM _ _).
Qed.

Lemma KSMax_init_run nm coords lePt tePt rh ks divide lo up sc scl add cn w :
  KSMaxThicknessToChordConstraint.init nm coords lePt tePt rh ks divide lo up sc
    scl add cn w
  = (mkWorld
       (dv_addPointSet
          (dv_addPointSet (dvgeo w) coords
             (KSMaxThicknessToChordConstraint.coords_name nm) cn None)
          [lePt; tePt] (KSMaxThicknessToChordConstraint.lete_name nm) cn None)
       (calls w
        ++ [CAddPointSet coords (KSMaxThicknessToChordConstraint.coords_name nm)
              cn None;
            CAddPointSet [lePt; tePt]
              (KSMaxThicknessToChordConstraint.lete_name nm) cn None])
       (file w),
     ToC0 ← mapM (toc_ratio divide coords (Some lePt) (Some tePt))
               (seq 0 (length coords / 2));
     Some (KSMaxThicknessToChordConstraint.mk (length coords / 2)
             (mkBase nm 1 lo up scl add) coords [lePt; tePt] sc rh ks divide ToC0
             (KS_compute ToC0 rh ks))).
Proof.
  unfold KSMaxThicknessToChordConstraint.init. run. unfold zeros.
  rewrite (for_range_fill (λ i _, toc_ratio divide coords (Some lePt) (Some tePt) i))
    by apply KSMax_toc_body_fill.
  rewrite <- app_assoc. by destruct (mapM _ _).
Qed.

(** a turn of the loop of the constructor of ProjectedThicknessConstraint,
    array by array: [D0[i]] is read back right after it is written *)
Lemma Projected_init_body_prod coords i (D : list float) (dv : list (vec3 float)) :
  ProjectedThicknessConstraint.init_body coords i (D, dv)
  = (D' ← ThicknessConstraint.init_body coords i D;
     dv' ← (d ← toothpick_direction coords i; set_item i d dv);
     Some (D', dv')).
Proof.
  unfold ProjectedThicknessConstraint.init_body, ThicknessConstraint.init_body,
    toothpick_direction.
  destruct (coords !! (2 * i)) as [p|]; obind; [|done].
  destruct (coords !! (2 * i + 1)) as [q|]; obind; [|done].
  destruct (set_item i _ D) as [D'|] eqn:HD; obind; [|done].
  unfold set_item in HD. destruct (decide (i < length D)) as [Hi|]; [|done].
  simplify_eq. rewrite list_lookup_insert_eq by done. obind.
  by destruct (set_item i _ dv).
Qed.

Lemma Projected_init_run nm coords lo up sc scl add cn w :
  ProjectedThicknessConstraint.init nm coords lo up sc scl add cn w
  = (mkWorld (dv_addPointSet (dvgeo w) coords nm cn None)
       (calls w ++ [CAddPointSet coords nm cn None]) (file w),
     D0 ← mapM (toothpick_length coords) (seq 0 (length coords / 2));
     dir_vec ← mapM (toothpick_direction coords) (seq 0 (length coords / 2));
     Some (ProjectedThicknessConstraint.mk
             (mkBase nm (length coords / 2) lo up scl add) coords sc D0 dir_vec)).
Proof.
  unfold ProjectedThicknessConstraint.init. run. cbn [nCon]. unfold for_range.
  rewrite (for_each_prod2 _ _ _ (Projected_init_body_prod coords)).
  fold (for_range (length coords / 2) (ThicknessConstraint.init_body coords)
          (zeros (length coords / 2))).
  fold (for_range (length coords / 2)
          (λ i dv, d ← toothpick_direction coords i; set_item i d dv)
          (zeros2 (length coords / 2))).
  unfold zeros, zeros2.
  rewrite (for_range_fill (λ i _, toothpick_length coords i))
    by apply Thickness_init_body_fill.
  rewrite (for_range_fill (λ i _, toothpick_direction coords i)).
  2:{ intros i dv x Hx. apply lookup_lt_Some in Hx.
      destruct (toothpick_direction coords i) as [d|]; obind; [|done].
      by apply set_item_lt. }
  change (λ i : nat, toothpick_length coords i) with (toothpick_length coords).
  change (λ i : nat, toothpick_direction coords i)
    with (toothpick_direction coords).
  destruct (mapM (toothpick_length coords) _) as [D0|]; obind; [|done].
  by destruct (mapM (toothpick_direction coords) _).
Qed.
End Constructors.

(** X5.  The constructors of ThicknessConstraint,
    ProjectedThicknessConstraint, ThicknessToChordConstraint and
    KSMaxThicknessToChordConstraint never raise, whatever the number of
    points: they keep the coordinates as given, count
    [len(coords) // 2] (or [// 4]) constraints, so that points left over at
    the end are ignored, and store a baseline of that many entries. *)
Theorem constructors_never_raise `{DVGeoAPI} `{GeoUtils} `{Numpy} :
  (∀ name coords lower upper scaled scale addToPyOpt compNames w,
     ∃ D0,
       (ThicknessConstraint.init name coords lower upper scaled scale addToPyOpt
          compNames w).2
       = Some (ThicknessConstraint.mk
                 (mkBase name (length coords / 2) lower upper scale addToPyOpt)
                 coords scaled D0)
       ∧ length D0 = length coords / 2)
  ∧ (∀ name coords lower upper scaled scale addToPyOpt compNames w,
     ∃ D0 dir_vec,
       (ProjectedThicknessConstraint.init name coords lower upper scaled scale
          addToPyOpt compNames w).2
       = Some (ProjectedThicknessConstraint.mk
                 (mkBase name (length coords / 2) lower upper scale addToPyOpt)
                 coords scaled D0 dir_vec)
       ∧ length D0 = length coords / 2
       ∧ length dir_vec = length coords / 2)
  ∧ (∀ name coords lower upper scale addToPyOpt compNames w,
     ∃ ToC0,
       (ThicknessToChordConstraint.init name coords lower upper scale addToPyOpt
          compNames w).2
       = Some (ThicknessToChordConstraint.mk
                 (mkBase name (length coords / 4) lower upper scale addToPyOpt)
                 coords ToC0)
       ∧ length ToC0 = length coords / 4)
  ∧ (∀ name coords lePt tePt rho ksApproach divideByChord lower upper scaled
       scale addToPyOpt compNames w,
     ∃ ToC0,
       (KSMaxThicknessToChordConstraint.init name coords lePt tePt rho ksApproach
          divideByChord lower upper scaled scale addToPyOpt compNames w).2
       = Some (KSMaxThicknessToChordConstraint.mk (length coords / 2)
                 (mkBase name 1 lower upper scale addToPyOpt) coords [lePt; tePt]
                 scaled rho ksApproach divideByChord ToC0
                 (KS_compute ToC0 rho ksApproach))
       ∧ length ToC0 = length coords / 2).
Proof.
  assert (Hdiv2 : ∀ L i, i < L / 2 → 2 * i + 1 < L).
  { intros L i Hi. pose proof (Nat.Div0.mul_div_le L 2). lia. }
  assert (Hdiv4 : ∀ L i, i < L / 4 → 4 * i + 3 < L).
  { intros L i Hi. pose proof (Nat.Div0.mul_div_le L 4). lia. }
  repeat apply conj.
  - intros nm coords lo up sc scl add cn w. rewrite Thickness_init_run. cbn [snd].
    destruct (mapM_seq_is_Some (toothpick_length coords) (length coords / 2))
      as [D0 HD0].
    { intros i Hi. apply toothpick_length_is_Some. by apply Hdiv2. }
    exists D0. rewrite HD0. split; [done|].
    by destruct (mapM_seq_lookup _ _ _ HD0).
  - intros nm coords lo up sc scl add cn w. rewrite Projected_init_run. cbn [snd].
    destruct (mapM_seq_is_Some (toothpick_length coords) (length coords / 2))
      as [D0 HD0].
    { intros i Hi. apply toothpick_length_is_Some. by apply Hdiv2. }
    destruct (mapM_seq_is_Some (toothpick_direction coords) (length coords / 2))
      as [dv Hdv].
    { intros i Hi. apply toothpick_direction_is_Some. by apply Hdiv2. }
    exists D0, dv. rewrite HD0, Hdv. split; [done|].
    destruct (mapM_seq_lookup _ _ _ HD0). by destruct (mapM_seq_lookup _ _ _ Hdv).
  - intros nm coords lo up scl add cn w. rewrite ToC_init_run. cbn [snd].
    destruct (mapM_seq_is_Some (baseline_ratio coords) (length coords / 4))
      as [T0 HT0].
    { intros i Hi. apply baseline_ratio_is_Some. by apply Hdiv4. }
    exists T0. rewrite HT0. split; [done|].
    by destruct (mapM_seq_lookup _ _ _ HT0).
  - intros nm coords lePt tePt rh ks divide lo up sc scl add cn w.
    rewrite KSMax_init_run. cbn [snd].
    destruct (mapM_seq_is_Some (toc_ratio divide coords (Some lePt) (Some tePt))
                (length coords / 2)) as [T0 HT0].
    { intros i Hi. apply toc_ratio_is_Some. split; [by apply Hdiv2|]. by eauto. }
    exists T0. rewrite HT0. split; [done|].
    by destruct (mapM_seq_lookup _ _ _ HT0).
Qed.

(** X6.  The constructor of ProximityConstraint pairs point [i] of the first
    set with point [i] of the second, for every point of the first set: it
    returns exactly when the second set has at least as many points as the
    first, and raises [IndexError] otherwise, after both point sets were
    handed to the engine.  Points of the second set beyond the length of the
    first are ignored. *)
Theorem Proximity_init_returns_iff `{DVGeoAPI} `{GeoUtils}
    name coordsA coordsB kwA kwB lower upper scaled scale addToPyOpt compNames w :
  let r := ProximityConstraint.init name coordsA coordsB kwA kwB lower upper
             scaled scale addToPyOpt compNames w in
  (is_Some r.2 ↔ length coordsA ≤ length coordsB)
  ∧ calls r.1
    = calls w ++ [CAddPointSet coordsA (name +:+ "_A") compNames (Some kwA);
                  CAddPointSet coordsB (name +:+ "_B") compNames (Some kwB)]
  ∧ ∀ o, r.2 = Some o →
      ProximityConstraint.coordsA o = coordsA
      ∧ ProximityConstraint.coordsB o = coordsB
      ∧ nCon (ProximityConstraint.base o) = length coordsA
      ∧ length (ProximityConstraint.D0 o) = length coordsA.
Proof.
  intros r. subst r. rewrite Proximity_init_run. cbn [fst snd calls].
  repeat apply conj.
  - intros [o Ho].
    destruct (mapM _ _) as [D0|] eqn:HD0; [|done].
    assert (Hall : ∀ i, i < length coordsA → is_Some (pair_distance coordsA coordsB i)).
    { apply mapM_seq_is_Some_iff. by eexists. }
    destruct (decide (length coordsA = 0)) as [|Hne]; [lia|].
    specialize (Hall (length coordsA - 1)).
    rewrite pair_distance_is_Some in Hall. lia.
  - intros Hle.
    destruct (mapM_seq_is_Some (pair_distance coordsA coordsB) (length coordsA))
      as [D0 HD0].
    { intros i Hi. apply pair_distance_is_Some. lia. }
    rewrite HD0. by eexists.
  - done.
  - intros o Ho. destruct (mapM _ _) as [D0|] eqn:HD0; [|done].
    cbn in Ho. simplify_eq. cbn. repeat apply conj; try done.
    by destruct (mapM_seq_lookup _ _ _ HD0).
Qed.

(** ** When [evalFunctions] returns *)

Lemma is_Some_bind_Some {A B} (m : option A) (f : A → B) :
  is_Some (x ← m; Some (f x)) ↔ is_Some m.
Proof. destruct m; cbn; split; intros [? ?]; by eauto. Qed.

Lemma is_Some_bind_const {A B} (m : option A) (f : A → option B) (P : Prop) :
  (∀ x, is_Some (f x) ↔ P) → is_Some (m ≫= f) ↔ is_Some m ∧ P.
Proof.
  intros Hf. destruct m as [x|]; cbn.
  - rewrite Hf. split; [by eauto|by intros [_ ?]].
  - split; [by intros [? ?]|by intros [[? ?] _]].
Qed.

Section EvalRuns.
Context `{DVGeoAPI} `{GeoUtils} `{Numpy}.

Lemma Projected_eval_body_fill o i (D : list float) x :
  D !! i = Some x →
  ProjectedThicknessConstraint.eval_body o i D
  = (v ← (d ← projected_thickness (ProjectedThicknessConstraint.coords o)
                 (ProjectedThicknessConstraint.dir_vec o) i;
          scaled_by (ProjectedThicknessConstraint.scaled o)
            (ProjectedThicknessConstraint.D0 o) i d);
     Some (<[i:=v]> D)).
Proof.
  intros HD. apply lookup_lt_Some in HD.
  unfold ProjectedThicknessConstraint.eval_body, projected_thickness, scaled_by.
  destruct (ProjectedThicknessConstraint.coords o !! (2 * i)) as [p|]; obind; [|done].
  destruct (ProjectedThicknessConstraint.coords o !! (2 * i + 1)) as [q|];
    obind; [|done].
  destruct (ProjectedThicknessConstraint.dir_vec o !! i) as [n|]; obind; [|done].
  rewrite set_item_lt by done. obind.
  destruct (ProjectedThicknessConstraint.scaled o); [|done].
  rewrite list_lookup_insert_eq by done. obind.
  destruct (ProjectedThicknessConstraint.D0 o !! i) as [d0|]; obind; [|done].
  rewrite set_item_lt by (by rewrite length_insert).
  by rewrite list_insert_insert_eq.
Qed.

(** [evalFunctions] of ProjectedThicknessConstraint as one equation *)
Lemma Projected_evalFunctions_run (s : Sys ProjectedThicknessConstraint.t)
    funcs config :
  ProjectedThicknessConstraint.evalFunctions funcs config s
  = let o := self s in
    let nm := name (ProjectedThicknessConstraint.base o) in
    let '(g, c) := dv_update (dvgeo (world s)) nm config in
    (mkSys (ProjectedThicknessConstraint.set_coords c o)
       (mkWorld g (calls (world s) ++ [CUpdate nm config]) (file (world s))),
     D ← mapM (λ i, d ← projected_thickness c
                          (ProjectedThicknessConstraint.dir_vec o) i;
                    scaled_by (ProjectedThicknessConstraint.scaled o)
                      (ProjectedThicknessConstraint.D0 o) i d)
            (seq 0 (nCon (ProjectedThicknessConstraint.base o)));
     Some (<[nm := FArray D]> funcs)).
Proof.
  unfold ProjectedThicknessConstraint.evalFunctions. run.
  destruct (dv_update _ _ _) as [g c].
  cbn [self world dvgeo calls file fst snd ProjectedThicknessConstraint.set_coords
       ProjectedThicknessConstraint.base ProjectedThicknessConstraint.coords
       ProjectedThicknessConstraint.scaled ProjectedThicknessConstraint.D0
       ProjectedThicknessConstraint.dir_vec].
  unfold zeros.
  rewrite (for_range_fill
             (λ i _, d ← projected_thickness c
                           (ProjectedThicknessConstraint.dir_vec (self s)) i;
                     scaled_by (ProjectedThicknessConstraint.scaled (self s))
                       (ProjectedThicknessConstraint.D0 (self s)) i d)).
  2:{ intros i D x HD. by rewrite (Projected_eval_body_fill _ _ _ _ HD). }
  by destruct (mapM _ _).
Qed.
End EvalRuns.

(** X7.  [evalFunctions] of ThicknessConstraint,
    ProjectedThicknessConstraint and ThicknessToChordConstraint returns
    exactly when the arrays hold every entry its loop reads: the engine
    returned at least [2 nCon] points ([4 nCon] for
    ThicknessToChordConstraint), the baseline has [nCon] entries where it is
    read (only when [scaled]; for ThicknessToChordConstraint always), and a
    ProjectedThicknessConstraint has [nCon] directions.  Otherwise it raises
    [IndexError]. *)
Theorem evalFunctions_returns_iff `{DVGeoAPI} `{GeoUtils} `{Numpy}
    (funcs : gmap string FuncVal) (config : Config) :
  (∀ s : Sys ThicknessConstraint.t,
     let o := self s in
     let n := nCon (ThicknessConstraint.base o) in
     let c := (dv_update (dvgeo (world s)) (name (ThicknessConstraint.base o))
                 config).2 in
     is_Some (ThicknessConstraint.evalFunctions funcs config s).2
     ↔ 2 * n ≤ length c
       ∧ (ThicknessConstraint.scaled o = true
          → n ≤ length (ThicknessConstraint.D0 o)))
  ∧ (∀ s : Sys ProjectedThicknessConstraint.t,
     let o := self s in
     let n := nCon (ProjectedThicknessConstraint.base o) in
     let c := (dv_update (dvgeo (world s))
                 (name (ProjectedThicknessConstraint.base o)) config).2 in
     is_Some (ProjectedThicknessConstraint.evalFunctions funcs config s).2
     ↔ 2 * n ≤ length c
       ∧ n ≤ length (ProjectedThicknessConstraint.dir_vec o)
       ∧ (ProjectedThicknessConstraint.scaled o = true
          → n ≤ length (ProjectedThicknessConstraint.D0 o)))
  ∧ (∀ s : Sys ThicknessToChordConstraint.t,
     let o := self s in
     let n := nCon (ThicknessToChordConstraint.base o) in
     let c := (dv_update (dvgeo (world s))
                 (name (ThicknessToChordConstraint.base o)) config).2 in
     is_Some (ThicknessToChordConstraint.evalFunctions funcs config s).2
     ↔ 4 * n ≤ length c ∧ n ≤ length (ThicknessToChordConstraint.ToC0 o)).
Proof.
  repeat apply conj; intros s; cbv zeta.
  - rewrite Thickness_evalFunctions_run. cbv zeta.
    destruct (dv_update _ _ _) as [g c]. cbn [fst snd].
    rewrite is_Some_bind_Some, mapM_seq_is_Some_iff.
    set (n := nCon _). set (sc := ThicknessConstraint.scaled _).
    set (D0 := ThicknessConstraint.D0 _).
    assert (Hi : ∀ i, is_Some (d ← toothpick_length c i; scaled_by sc D0 i d)
                      ↔ 2 * i + 1 < length c ∧ (sc = true → i < length D0)).
    { intros i. rewrite is_Some_bind_const by (intros; apply scaled_by_is_Some).
      by rewrite toothpick_length_is_Some. }
    split.
    + intros Hall. destruct n as [|n]; [split; [lia|intros; lia]|].
      specialize (Hall n). rewrite Hi in Hall.
      destruct Hall as [Hc HD]; [lia|]. split; [lia|]. intros Hs.
      specialize (HD Hs). lia.
    + intros [Hc HD] i Hlt. apply Hi. split; [lia|]. intros Hs.
      specialize (HD Hs). lia.
  - rewrite Projected_evalFunctions_run. cbv zeta.
    destruct (dv_update _ _ _) as [g c]. cbn [fst snd].
    rewrite is_Some_bind_Some, mapM_seq_is_Some_iff.
    set (n := nCon _). set (sc := ProjectedThicknessConstraint.scaled _).
    set (D0 := ProjectedThicknessConstraint.D0 _).
    set (dv := ProjectedThicknessConstraint.dir_vec _).
    assert (Hi : ∀ i, is_Some (d ← projected_thickness c dv i; scaled_by sc D0 i d)
                      ↔ (2 * i + 1 < length c ∧ i < length dv)
                        ∧ (sc = true → i < length D0)).
    { intros i. rewrite is_Some_bind_const by (intros; apply scaled_by_is_Some).
      by rewrite projected_thickness_is_Some. }
    split.
    + intros Hall. destruct n as [|n]; [repeat split; intros; lia|].
      specialize (Hall n). rewrite Hi in Hall.
      destruct Hall as [[Hc Hdv] HD]; [lia|]. repeat split; try lia. intros Hs.
      specialize (HD Hs). lia.
    + intros (Hc & Hdv & HD) i Hlt. apply Hi. repeat split; try lia. intros Hs.
      specialize (HD Hs). lia.
  - rewrite ToC_evalFunctions_run. cbv zeta.
    destruct (dv_update _ _ _) as [g c]. cbn [fst snd].
    rewrite is_Some_bind_Some, mapM_seq_is_Some_iff.
    set (n := nCon _). set (T0 := ThicknessToChordConstraint.ToC0 _).
    assert (Hi : ∀ i, is_Some (r ← current_ratio c i; r0 ← T0 !! i;
                               Some (r / r0)%float)
                      ↔ 4 * i + 3 < length c ∧ i < length T0).
    { intros i. rewrite (is_Some_bind_const _ _ (i < length T0)).
      - by rewrite current_ratio_is_Some.
      - intros r. rewrite is_Some_bind_Some. apply lookup_lt_is_Some. }
    split.
    + intros Hall. destruct n as [|n]; [lia|].
      specialize (Hall n). rewrite Hi in Hall. lia.
    + intros [Hc HT] i Hlt. apply Hi. lia.
Qed.

(** X8.  [evalFunctions] of a KSMaxThicknessToChordConstraint with no
    toothpick returns whatever the engine gives; with toothpicks it returns
    exactly when the engine gave [2 nPoint] points and a leading and a
    trailing edge point.  [evalFunctions] of a ProximityConstraint returns
    exactly when the engine gave [nCon] points in both sets and, when
    [scaled], the baseline has [nCon] entries.  Otherwise they raise
    [IndexError]. *)
Theorem evalFunctions_returns_iff_two_point_sets `{DVGeoAPI} `{GeoUtils} `{Numpy}
    (funcs : gmap string FuncVal) (config : Config) :
  (∀ s : Sys KSMaxThicknessToChordConstraint.t,
     let o := self s in
     let n := KSMaxThicknessToChordConstraint.nPoint o in
     let nm := name (KSMaxThicknessToChordConstraint.base o) in
     let u1 := dv_update (dvgeo (world s)) (nm +:+ "_coords") config in
     let u2 := dv_update u1.1 (nm +:+ "_lete") config in
     is_Some (KSMaxThicknessToChordConstraint.evalFunctions funcs config s).2
     ↔ n = 0 ∨ (2 * n ≤ length u1.2 ∧ 2 ≤ length u2.2))
  ∧ (∀ s : Sys ProximityConstraint.t,
     let o := self s in
     let n := nCon (ProximityConstraint.base o) in
     let nm := name (ProximityConstraint.base o) in
     let uA := dv_update (dvgeo (world s)) (nm +:+ "_A") config in
     let uB := dv_update uA.1 (nm +:+ "_B") config in
     is_Some (ProximityConstraint.evalFunctions funcs config s).2
     ↔ n ≤ length uA.2 ∧ n ≤ length uB.2
       ∧ (ProximityConstraint.scaled o = true
          → n ≤ length (ProximityConstraint.D0 o))).
Proof.
  repeat apply conj; intros s; cbv zeta.
  - rewrite KSMax_evalFunctions_run. cbv zeta.
    unfold KSMaxThicknessToChordConstraint.coords_name,
      KSMaxThicknessToChordConstraint.lete_name.
    destruct (dv_update _ _ _) as [g1 c]. cbn [fst snd].
    destruct (dv_update _ _ _) as [g2 lt]. cbn [fst snd].
    rewrite is_Some_bind_Some, mapM_seq_is_Some_iff.
    set (n := KSMaxThicknessToChordConstraint.nPoint _).
    assert (Hlt : is_Some (lt !! 0) ∧ is_Some (lt !! 1) ↔ 2 ≤ length lt).
    { rewrite !lookup_lt_is_Some. lia. }
    split.
    + intros Hall. destruct n as [|n]; [by left|right].
      specialize (Hall n). rewrite toc_ratio_is_Some in Hall.
      destruct Hall as [Hc Hle]; [lia|]. split; [lia|]. by apply Hlt.
    + intros [Hn|[Hc Hle]] i Hi; [lia|]. apply toc_ratio_is_Some.
      split; [lia|]. by apply Hlt.
  - rewrite Proximity_evalFunctions_run. cbv zeta.
    unfold ProximityConstraint.A_name, ProximityConstraint.B_name.
    destruct (dv_update _ _ _) as [gA cA]. cbn [fst snd].
    destruct (dv_update _ _ _) as [gB cB]. cbn [fst snd].
    rewrite is_Some_bind_Some, mapM_seq_is_Some_iff.
    set (n := nCon _). set (sc := ProximityConstraint.scaled _).
    set (D0 := ProximityConstraint.D0 _).
    assert (Hi : ∀ i, is_Some (d ← pair_distance cA cB i; scaled_by sc D0 i d)
                      ↔ (i < length cA ∧ i < length cB)
                        ∧ (sc = true → i < length D0)).
    { intros i. rewrite is_Some_bind_const by (intros; apply scaled_by_is_Some).
      by rewrite pair_distance_is_Some. }
    split.
    + intros Hall. destruct n as [|n]; [repeat split; intros; lia|].
      specialize (Hall n). rewrite Hi in Hall.
      destruct Hall as [[HA HB] HD]; [lia|]. repeat split; try lia. intros Hs.
      specialize (HD Hs). lia.
    + intros (HA & HB & HD) i Hlt. apply Hi. repeat split; try lia. intros Hs.
      specialize (HD Hs). lia.
Qed.

(** ** The constructor of TESlopeConstraint *)

Lemma broadcast2_None {A B C} (f : A → B → C) (xs : list A) (ys : list B) :
  length xs ≠ length ys → length xs ≠ 1 → length ys ≠ 1 →
  broadcast2 f xs ys = None.
Proof.
  intros Hne Hx Hy. unfold broadcast2. rewrite decide_False by done.
  destruct xs as [|x [|x' xs]]; destruct ys as [|y [|y' ys]]; cbn in *;
    done || lia.
Qed.

Section TESlopeInit.
Context `{DVGeoAPI} `{GeoUtils} `{Numpy}.
Import TESlopeConstraint.

(** an even number of points, six or more: the tops and the bottoms of the
    toothpicks cannot be paired *)
Lemma compute_even_raises {T} `{Dtype T} (n : nat) (ts0 : list float)
    (coords : list (vec3 T)) (sc : bool) (m : nat) :
  length coords = 2 * m → 3 ≤ m → _compute n ts0 coords sc = None.
Proof.
  intros Hlen Hm. unfold _compute.
  assert (Htop : length (stride2 (but_last coords)) = m).
  { rewrite stride2_length, but_last_length, Hlen.
    replace (2 * m - 1 + 1) with (0 + m * 2) by lia.
    by rewrite Nat.div_add by lia. }
  assert (Hbot : length (stride2 (tail (but_last coords))) = m - 1).
  { rewrite stride2_length, tail_length, but_last_length, Hlen.
    replace (2 * m - 1 - 1 + 1) with (1 + (m - 1) * 2) by lia.
    by rewrite Nat.div_add by lia. }
  rewrite broadcast2_None by lia. done.
Qed.

Lemma compute_init_iff (coords : list (vec3 float)) :
  is_Some (_compute ((length coords - 1) / 2) [] coords false)
  ↔ Nat.Odd (length coords) ∨ length coords = 2.
Proof.
  split.
  - intros Hsome.
    destruct (Nat.Even_or_Odd (length coords)) as [[m Hm]|Hodd]; [|by left].
    right. destruct (decide (3 ≤ m)) as [H3|H3].
    { rewrite (compute_even_raises _ _ _ _ m) in Hsome by done.
      by destruct Hsome. }
    destruct coords as [|a [|b [|c [|d [|e coords]]]]]; cbn in Hm; try lia.
    + by destruct Hsome.
    + done.
    + by destruct Hsome.
  - intros [[m Hm]|H2].
    + destruct (compute_shape m [] coords false) as (r & Hr & _); [done..|].
      replace ((length coords - 1) / 2) with m.
      * by eexists.
      * rewrite Hm. replace (2 * m + 1 - 1) with (m * 2) by lia.
        by rewrite Nat.div_mul.
    + destruct coords as [|a [|b [|c coords]]]; cbn in H2; try lia.
      by eexists.
Qed.
End TESlopeInit.

(** X9.  The constructor of TESlopeConstraint returns exactly when it is
    given an odd number of points (pairs of toothpick ends followed by the
    trailing edge point) or two points; with no point it raises [IndexError]
    and with four or a larger even number of points the arrays of its
    computation do not fit.  The object it returns counts
    [(len(coords) - 1) // 2] constraints and holds a baseline of that many
    entries. *)
Theorem TESlope_init_returns_iff `{DVGeoAPI} `{GeoUtils} `{Numpy}
    name coords lower upper scaled scale addToPyOpt compNames w :
  let r := TESlopeConstraint.init name coords lower upper scaled scale addToPyOpt
             compNames w in
  (is_Some r.2 ↔ Nat.Odd (length coords) ∨ length coords = 2)
  ∧ ∀ o, r.2 = Some o →
      TESlopeConstraint.base o
      = mkBase name ((length coords - 1) / 2) lower upper scale addToPyOpt
      ∧ TESlopeConstraint.coords o = coords
      ∧ TESlopeConstraint.scaled o = scaled
      ∧ length (TESlopeConstraint.teSlope0 o) = (length coords - 1) / 2.
Proof.
  intros r. subst r. unfold TESlopeConstraint.init. run.
  pose proof (compute_init_iff coords) as Hiff.
  destruct (TESlopeConstraint._compute _ _ coords false) as [ts0|] eqn:Hc.
  - split.
    + split; [intros _; by apply Hiff|by eexists].
    + intros o Ho. cbn [snd] in Ho. simplify_eq.
      cbn [TESlopeConstraint.base TESlopeConstraint.coords
           TESlopeConstraint.scaled TESlopeConstraint.teSlope0].
      repeat apply conj; try done.
      assert (Hshape : Nat.Odd (length coords) ∨ length coords = 2)
        by (by apply Hiff).
      destruct Hshape as [[m Hm]|H2].
      * destruct (compute_shape m [] coords false) as (r & Hr & Hlen); [done..|].
        assert (Hn : (length coords - 1) / 2 = m).
        { rewrite Hm. replace (2 * m + 1 - 1) with (m * 2) by lia.
          by rewrite Nat.div_mul. }
        rewrite Hn in Hc |- *. by simplify_eq.
      * destruct coords as [|a [|b [|c coords]]]; cbn in H2; try lia.
        vm_compute in Hc. by simplify_eq.
  - split.
    + split; [by intros [? ?]|]. intros Hshape. apply Hiff in Hshape.
      by destruct Hshape.
    + by intros o Ho.
Qed.

(** ** The scaled value on the constructor's own geometry *)

Lemma float_div_self_nan (x : float) :
  PrimFloat.is_finite x = false ∨ PrimFloat.is_zero x = true → (x / x)%float = nan.
Proof.
  intros Hx. apply Prim2SF_inj. rewrite div_spec.
  unfold is_finite, is_nan, is_infinity, is_zero in Hx.
  rewrite !FloatAxioms.eqb_spec, FloatAxioms.abs_spec in Hx.
  destruct (Prim2SF x) as [sg|sg| |sg m e] eqn:E.
  - by destruct sg.
  - by destruct sg.
  - done.
  - exfalso.
    assert (Hrefl : SFeqb (S754_finite sg m e) (S754_finite sg m e) = true).
    { unfold SFeqb, SFcompare. 
      change IntDef.Z.compare with Z.compare.
      rewrite Z.compare_refl, Pos.compare_cont_refl. by destruct sg. }
    rewrite Hrefl in Hx. destruct Hx as [Hx|Hx]; destruct sg; cbn in Hx; done.
Qed.

Lemma float_div_self_ratio (x : float) : (x / x)%float = self_ratio x.
Proof.
  unfold self_ratio.
  destruct (PrimFloat.is_finite x) eqn:Hf; cbn [andb];
    [|apply float_div_self_nan; by left].
  destruct (PrimFloat.is_zero x) eqn:Hz; cbn [negb].
  - apply float_div_self_nan. by right.
  - by apply float_div_self.
Qed.

Lemma zip_with_self_lookup {A B} (f : A → A → B) (l : list A) (i : nat) (x : A) :
  l !! i = Some x → zip_with f l l !! i = Some (f x x).
Proof. intros Hx. apply lookup_zip_with_Some. by eauto. Qed.

Section ScaledCompute.
Context `{DVGeoAPI} `{GeoUtils} `{Numpy}.
Import TESlopeConstraint.

(** [_compute] with [scaled=True] is [_compute] with [scaled=False] divided
    by the baseline; without scaling the baseline is not read *)
Lemma compute_scaled {T} `{Dtype T} (n : nat) (ts0 ts0' : list float)
    (coords : list (vec3 T)) :
  _compute n ts0 coords true
  = (teSlope ← _compute n ts0' coords false;
     s0 ← broadcast_to (length teSlope) ts0;
     Some (zip_with (λ x s, t_div x (t_of_float s)) teSlope s0)).
Proof.
  unfold _compute.
  destruct (broadcast2 _ _ _) as [dVec|]; obind; [|done].
  destruct (broadcast2 _ _ _) as [mids|]; obind; [|done].
  destruct (broadcast_to _ _) as [mids'|]; obind; [|done].
  destruct (last coords) as [te|]; obind; [|done].
  destruct (set_item _ _ _) as [xMid|]; obind; [|done].
  by destruct (broadcast2 _ _ _) as [teSlope|].
Qed.
End ScaledCompute.

(** X10.  A scaled ThicknessConstraint or ProximityConstraint evaluated on the
    coordinates it was built from gives, for every toothpick or pair,
    [D0[i] / D0[i]]: 1 where the baseline length is a finite number other
    than zero, and nan where it is zero (coincident points), infinite or
    nan. *)
Theorem scaled_distances_on_baseline `{DVGeoAPI} `{GeoUtils} :
  (∀ nm coords0 lo up scl add cn w0 w1 (o0 : ThicknessConstraint.t),
     ThicknessConstraint.init nm coords0 lo up true scl add cn w0 = (w1, Some o0) →
     ∀ (s : Sys ThicknessConstraint.t) funcs config g,
       ThicknessConstraint.base (self s) = ThicknessConstraint.base o0 →
       ThicknessConstraint.scaled (self s) = true →
       ThicknessConstraint.D0 (self s) = ThicknessConstraint.D0 o0 →
       dv_update (dvgeo (world s)) nm config = (g, coords0) →
       ∃ D, (ThicknessConstraint.evalFunctions funcs config s).2
            = Some (<[nm := FArray D]> funcs)
          ∧ length D = length coords0 / 2
          ∧ ∀ i d0, ThicknessConstraint.D0 o0 !! i = Some d0 →
                    D !! i = Some (self_ratio d0))
  ∧ (∀ nm cA0 cB0 kwA kwB lo up scl add cn w0 w1 (o0 : ProximityConstraint.t),
     ProximityConstraint.init nm cA0 cB0 kwA kwB lo up true scl add cn w0
     = (w1, Some o0) →
     ∀ (s : Sys ProximityConstraint.t) funcs config gA gB,
       ProximityConstraint.base (self s) = ProximityConstraint.base o0 →
       ProximityConstraint.scaled (self s) = true →
       ProximityConstraint.D0 (self s) = ProximityConstraint.D0 o0 →
       dv_update (dvgeo (world s)) (nm +:+ "_A") config = (gA, cA0) →
       dv_update gA (nm +:+ "_B") config = (gB, cB0) →
       ∃ D, (ProximityConstraint.evalFunctions funcs config s).2
            = Some (<[nm := FArray D]> funcs)
          ∧ length D = length cA0
          ∧ ∀ i d0, ProximityConstraint.D0 o0 !! i = Some d0 →
                    D !! i = Some (self_ratio d0)).
Proof.
  split.
  - intros nm coords0 lo up scl add cn w0 w1 o0 Hinit s funcs config g
      Hbase Hsc HD0 Hupd.
    apply Thickness_init_spec in Hinit as (Hb0 & Hs0 & HmD0).
    destruct (mapM_seq_lookup _ _ _ HmD0) as [HlenD0 HD0i].
    rewrite Thickness_evalFunctions_run. cbv zeta.
    rewrite Hbase, Hsc, HD0, Hb0. cbn [name nCon]. rewrite Hupd. cbn [snd].
    destruct (mapM_seq_is_Some
                (λ i, d ← toothpick_length coords0 i;
                      scaled_by true (ThicknessConstraint.D0 o0) i d)
                (length coords0 / 2)) as [D HD].
    { intros i Hi. destruct (HD0i i Hi) as (d0 & -> & Hd0). cbn.
      rewrite Hd0. by eexists. }
    rewrite HD. obind. exists D. split; [done|].
    destruct (mapM_seq_lookup _ _ _ HD) as [HlenD HDi]. split; [done|].
    intros i d0 Hd0.
    assert (Hi : i < length coords0 / 2)
      by (rewrite <- HlenD0; by eapply lookup_lt_Some).
    destruct (HDi i Hi) as (v & Hv & ->).
    destruct (HD0i i Hi) as (d & Hd & Hd'). rewrite Hd in Hv. cbn in Hv.
    rewrite Hd' in Hv. cbn in Hv. simplify_eq.
    by rewrite float_div_self_ratio.
  - intros nm cA0 cB0 kwA kwB lo up scl add cn w0 w1 o0 Hinit s funcs config
      gA gB Hbase Hsc HD0 HupdA HupdB.
    apply Proximity_init_spec in Hinit as (Hb0 & Hs0 & HmD0).
    destruct (mapM_seq_lookup _ _ _ HmD0) as [HlenD0 HD0i].
    rewrite Proximity_evalFunctions_run. cbv zeta.
    rewrite Hbase, Hsc, HD0, Hb0. cbn [name nCon].
    unfold ProximityConstraint.A_name, ProximityConstraint.B_name.
    rewrite HupdA, HupdB. cbn [snd].
    destruct (mapM_seq_is_Some
                (λ i, d ← pair_distance cA0 cB0 i;
                      scaled_by true (ProximityConstraint.D0 o0) i d)
                (length cA0)) as [D HD].
    { intros i Hi. destruct (HD0i i Hi) as (d0 & -> & Hd0). cbn.
      rewrite Hd0. by eexists. }
    rewrite HD. obind. exists D. split; [done|].
    destruct (mapM_seq_lookup _ _ _ HD) as [HlenD HDi]. split; [done|].
    intros i d0 Hd0.
    assert (Hi : i < length cA0) by (rewrite <- HlenD0; by eapply lookup_lt_Some).
    destruct (HDi i Hi) as (v & Hv & ->).
    destruct (HD0i i Hi) as (d & Hd & Hd'). rewrite Hd in Hv. cbn in Hv.
    rewrite Hd' in Hv. cbn in Hv. simplify_eq.
    by rewrite float_div_self_ratio.
Qed.

Section ScaledDistancesInstance.
Import Model.

Lemma scaled_distances_on_baseline_witness :
  (∃ D, (ThicknessConstraint.evalFunctions ∅ tt
           (mkSys Examples.thickness (Examples.thickness_world 1))).2
        = Some (<["t" := FArray D]> ∅)
      ∧ length D = 2
      ∧ ∀ i d0, [1; 2]%float !! i = Some d0 → D !! i = Some (self_ratio d0))
  ∧ (∃ D, (ProximityConstraint.evalFunctions ∅ tt
             (mkSys Examples.proximity (Examples.proximity_world 1))).2
          = Some (<["p" := FArray D]> ∅)
        ∧ length D = 2
        ∧ ∀ i d0, [1; 2]%float !! i = Some d0 → D !! i = Some (self_ratio d0)).
Proof.
  split.
  - apply (proj1 (@scaled_distances_on_baseline Model.engine Model.geo_utils)
             "t" Examples.toothpicks None None 1%float false tt
             (Examples.world_with ["t"] 1) (Examples.thickness_world 1)
             Examples.thickness eq_refl
             (mkSys Examples.thickness (Examples.thickness_world 1)) ∅ tt
             (dvgeo (Examples.thickness_world 1))
             eq_refl eq_refl eq_refl eq_refl).
  - apply (proj2 (@scaled_distances_on_baseline Model.engine Model.geo_utils)
             "p" Examples.lower_ends Examples.upper_ends tt tt None None
             1%float false tt
             (Examples.world_with ["p_A"; "p_B"] 1) (Examples.proximity_world 1)
             Examples.proximity eq_refl
             (mkSys Examples.proximity (Examples.proximity_world 1)) ∅ tt
             (dvgeo (Examples.proximity_world 1))
             (dvgeo (Examples.proximity_world 1))
             eq_refl eq_refl eq_refl eq_refl eq_refl).
Defined.
End ScaledDistancesInstance.

(** X11.  A scaled KSMaxThicknessToChordConstraint evaluated on the
    coordinates and the leading and trailing edge points it was built from
    gives [max0 / max0]: the constructor and [evalFunctions] compute the same
    ratios and the same KS aggregate, so the value is 1 when the baseline
    aggregate is a finite number other than zero, and nan otherwise. *)
Theorem KSMax_scaled_value_on_baseline `{DVGeoAPI} `{GeoUtils} `{Numpy}
    nm coords0 lePt tePt rh ks divide lo up scl add cn w0 w1
    (o0 : KSMaxThicknessToChordConstraint.t)
    (s : Sys KSMaxThicknessToChordConstraint.t) funcs config g1 g2 :
  KSMaxThicknessToChordConstraint.init nm coords0 lePt tePt rh ks divide lo up
    true scl add cn w0 = (w1, Some o0) →
  KSMaxThicknessToChordConstraint.nPoint (self s)
  = KSMaxThicknessToChordConstraint.nPoint o0 →
  KSMaxThicknessToChordConstraint.base (self s)
  = KSMaxThicknessToChordConstraint.base o0 →
  KSMaxThicknessToChordConstraint.scaled (self s) = true →
  KSMaxThicknessToChordConstraint.rho (self s) = rh →
  KSMaxThicknessToChordConstraint.ksApproach (self s) = ks →
  KSMaxThicknessToChordConstraint.divideByChord (self s) = divide →
  KSMaxThicknessToChordConstraint.max0 (self s)
  = KSMaxThicknessToChordConstraint.max0 o0 →
  dv_update (dvgeo (world s)) (nm +:+ "_coords") config = (g1, coords0) →
  dv_update g1 (nm +:+ "_lete") config = (g2, [lePt; tePt]) →
  (KSMaxThicknessToChordConstraint.evalFunctions funcs config s).2
  = Some (<[nm := FScalar (self_ratio (KSMaxThicknessToChordConstraint.max0 o0))]>
            funcs).
Proof.
  intros Hinit Hn Hbase Hsc Hrho Hks Hdiv Hmax Hupd1 Hupd2.
  rewrite KSMax_init_run in Hinit.
  destruct (mapM _ _) as [ToC0|] eqn:HT0; [|done].
  cbn [mbind option_bind] in Hinit. apply (f_equal snd) in Hinit.
  cbn [snd] in Hinit. apply (inj Some) in Hinit. subst o0.
  rewrite KSMax_evalFunctions_run. cbv zeta.
  rewrite Hn, Hbase, Hsc, Hrho, Hks, Hdiv, Hmax.
  cbn [name KSMaxThicknessToChordConstraint.base
       KSMaxThicknessToChordConstraint.nPoint
       KSMaxThicknessToChordConstraint.max0].
  unfold KSMaxThicknessToChordConstraint.coords_name,
    KSMaxThicknessToChordConstraint.lete_name.
  rewrite Hupd1, Hupd2. cbn [snd lookup list_lookup].
  rewrite HT0. obind. by rewrite float_div_self_ratio.
Qed.

Section KSMaxScaledInstance.
Import Model.

Lemma KSMax_scaled_value_on_baseline_witness :
  (KSMaxThicknessToChordConstraint.evalFunctions ∅ tt
     (mkSys (Examples.ksmax true [0.5; 1]%float 1%float)
            (Examples.ksmax_world [] 1))).2
  = Some (<["ks" := FScalar (self_ratio 1%float)]> ∅).
Proof.
  apply (@KSMax_scaled_value_on_baseline Model.engine Model.geo_utils Model.numpy
           "ks" Examples.toothpicks Examples.le_pt Examples.te_pt 50%float
           "continuous" true None None 1%float false tt
           (world0 [] 1) (Examples.ksmax_world [] 1)
           (Examples.ksmax true [0.5; 1]%float 1%float)
           (mkSys (Examples.ksmax true [0.5; 1]%float 1%float)
                  (Examples.ksmax_world [] 1)) ∅ tt
           (dvgeo (Examples.ksmax_world [] 1)) (dvgeo (Examples.ksmax_world [] 1))
           eq_refl eq_refl eq_refl eq_refl eq_refl eq_refl eq_refl eq_refl
           eq_refl eq_refl).
Defined.
End KSMaxScaledInstance.

(** X12.  A scaled TESlopeConstraint evaluated on the coordinates it was built
    from gives [teSlope0[i] / teSlope0[i]] for every toothpick: 1 where the
    baseline slope is a finite number other than zero and nan elsewhere. *)
Theorem TESlope_scaled_value_on_baseline `{DVGeoAPI} `{GeoUtils} `{Numpy}
    nm coords0 lo up scl add cn w0 w1 (o0 : TESlopeConstraint.t)
    (s : Sys TESlopeConstraint.t) funcs config g :
  TESlopeConstraint.init nm coords0 lo up true scl add cn w0 = (w1, Some o0) →
  TESlopeConstraint.base (self s) = TESlopeConstraint.base o0 →
  TESlopeConstraint.scaled (self s) = true →
  TESlopeConstraint.teSlope0 (self s) = TESlopeConstraint.teSlope0 o0 →
  dv_update (dvgeo (world s)) nm config = (g, coords0) →
  ∃ teSlope,
    (TESlopeConstraint.evalFunctions funcs config s).2
    = Some (<[nm := FArray teSlope]> funcs)
    ∧ length teSlope = length (TESlopeConstraint.teSlope0 o0)
    ∧ ∀ i t0, TESlopeConstraint.teSlope0 o0 !! i = Some t0 →
              teSlope !! i = Some (self_ratio t0).
Proof.
  intros Hinit Hbase Hsc Hts0 Hupd.
  unfold TESlopeConstraint.init in Hinit. run.
  destruct (TESlopeConstraint._compute _ _ coords0 false) as [ts0|] eqn:Hc;
    [|done].
  apply (f_equal snd) in Hinit. cbn [snd] in Hinit.
  apply (inj Some) in Hinit. subst o0.
  cbn [TESlopeConstraint.base TESlopeConstraint.teSlope0] in Hbase, Hts0 |- *.
  unfold TESlopeConstraint.evalFunctions. run. rewrite Hbase. cbn [name].
  rewrite Hupd. run.
  cbn [TESlopeConstraint.set_coords TESlopeConstraint.base TESlopeConstraint.coords
       TESlopeConstraint.scaled TESlopeConstraint.teSlope0].
  rewrite Hbase, Hsc, Hts0. cbn [name nCon].
  rewrite (compute_scaled _ _ []), Hc. obind.
  rewrite broadcast_to_same by done. obind.
  eexists. split; [done|]. split.
  - rewrite length_zip_with. lia.
  - intros i t0 Ht0. rewrite (zip_with_self_lookup _ _ _ _ Ht0). f_equal.
    apply float_div_self_ratio.
Qed.

Section TESlopeScaledInstance.
Import Model.

Lemma TESlope_scaled_value_on_baseline_witness :
  ∃ teSlope,
    (TESlopeConstraint.evalFunctions ∅ tt
       (mkSys Examples.teslope Examples.teslope_world)).2
    = Some (<["te" := FArray teSlope]> ∅)
    ∧ length teSlope = 2
    ∧ ∀ i t0, [1; 1]%float !! i = Some t0 → teSlope !! i = Some (self_ratio t0).
Proof.
  apply (@TESlope_scaled_value_on_baseline Model.engine Model.geo_utils
           Model.numpy "te" Examples.closeout None None 1%float false tt
           (Examples.world_with ["te"] 1) Examples.teslope_world Examples.teslope
           (mkSys Examples.teslope Examples.teslope_world) ∅ tt
           (dvgeo Examples.teslope_world)
           eq_refl eq_refl eq_refl eq_refl eq_refl).
Defined.
End TESlopeScaledInstance.

(** ** ProjectedThicknessConstraint: values *)

(** X13.  The constructor of ProjectedThicknessConstraint stores for each
    toothpick the Euclidean length of the vector from point [2 i + 1] to point
    [2 i] and that vector divided by its length; [evalFunctions] returns for
    each toothpick the dot product of the current vector with the stored
    direction, divided by the stored length when [scaled]. *)
Theorem Projected_evalFunctions_projection `{DVGeoAPI} `{GeoUtils}
    nm coords0 lo up sc scl add cn w0 w1 (o0 : ProjectedThicknessConstraint.t) :
  ProjectedThicknessConstraint.init nm coords0 lo up sc scl add cn w0
  = (w1, Some o0) →
  (∀ i, i < length coords0 / 2 →
     ∃ d0 n, toothpick_length coords0 i = Some d0
           ∧ toothpick_direction coords0 i = Some n
           ∧ ProjectedThicknessConstraint.D0 o0 !! i = Some d0
           ∧ ProjectedThicknessConstraint.dir_vec o0 !! i = Some n)
  ∧ ∀ (s : Sys ProjectedThicknessConstraint.t) funcs config g c,
      ProjectedThicknessConstraint.base (self s)
      = ProjectedThicknessConstraint.base o0 →
      ProjectedThicknessConstraint.scaled (self s)
      = ProjectedThicknessConstraint.scaled o0 →
      ProjectedThicknessConstraint.D0 (self s)
      = ProjectedThicknessConstraint.D0 o0 →
      ProjectedThicknessConstraint.dir_vec (self s)
      = ProjectedThicknessConstraint.dir_vec o0 →
      dv_update (dvgeo (world s)) nm config = (g, c) →
      2 * (length coords0 / 2) ≤ length c →
      ∃ D, (ProjectedThicknessConstraint.evalFunctions funcs config s).2
           = Some (<[nm := FArray D]> funcs)
         ∧ length D = length coords0 / 2
         ∧ ∀ i, i < length coords0 / 2 →
             ∃ d d0,
               projected_thickness c (ProjectedThicknessConstraint.dir_vec o0) i
               = Some d
               ∧ ProjectedThicknessConstraint.D0 o0 !! i = Some d0
               ∧ D !! i = Some (if sc then (d / d0)%float else d).
Proof.
  intros Hinit. rewrite Projected_init_run in Hinit.
  destruct (mapM (toothpick_length coords0) _) as [D0|] eqn:HD0; [|done].
  destruct (mapM (toothpick_direction coords0) _) as [dv|] eqn:Hdv; [|done].
  cbn [mbind option_bind] in Hinit. apply (f_equal snd) in Hinit.
  cbn [snd] in Hinit. apply (inj Some) in Hinit. subst o0.
  cbn [ProjectedThicknessConstraint.base ProjectedThicknessConstraint.scaled
       ProjectedThicknessConstraint.D0 ProjectedThicknessConstraint.dir_vec].
  destruct (mapM_seq_lookup _ _ _ HD0) as [HlenD0 HD0i].
  destruct (mapM_seq_lookup _ _ _ Hdv) as [Hlendv Hdvi].
  split.
  - intros i Hi. destruct (HD0i i Hi) as (d0 & Hd0 & Hd0').
    destruct (Hdvi i Hi) as (n & Hn & Hn'). by exists d0, n.
  - intros s funcs config g c Hbase Hsc HD Hdir Hupd Hlen.
    rewrite Projected_evalFunctions_run. cbv zeta.
    rewrite Hbase, Hsc, HD, Hdir. cbn [name nCon]. rewrite Hupd. cbn [snd].
    destruct (mapM_seq_is_Some
                (λ i, d ← projected_thickness c dv i; scaled_by sc D0 i d)
                (length coords0 / 2)) as [D HDm].
    { intros i Hi. apply is_Some_bind_const with (P := sc = true → i < length D0).
      - intros d. apply scaled_by_is_Some.
      - split; [|lia]. apply projected_thickness_is_Some. lia. }
    rewrite HDm. obind. exists D. split; [done|].
    destruct (mapM_seq_lookup _ _ _ HDm) as [HlenD HDi]. split; [done|].
    intros i Hi. destruct (HDi i Hi) as (v & Hv & HDv).
    destruct (HD0i i Hi) as (d0 & _ & Hd0).
    destruct (projected_thickness c dv i) as [d|] eqn:Hd; [|done].
    exists d, d0. repeat apply conj; try done.
    rewrite HDv. f_equal. unfold scaled_by in Hv. cbn in Hv.
    destruct sc; [|by simplify_eq]. rewrite Hd0 in Hv. cbn in Hv. by simplify_eq.
Qed.

Section ProjectedInstance.
Import Model.

Lemma Projected_evalFunctions_projection_witness :
  (∀ i, i < 2 →
     ∃ d0 n, toothpick_length Examples.toothpicks i = Some d0
           ∧ toothpick_direction Examples.toothpicks i = Some n
           ∧ [1; 2]%float !! i = Some d0
           ∧ [V3 0 (-1) 0; V3 0 (-1) 0]%float !! i = Some n)
  ∧ ∃ D, (ProjectedThicknessConstraint.evalFunctions ∅ tt
            (mkSys Examples.projected (Examples.projected_world 1))).2
         = Some (<["pt" := FArray D]> ∅)
       ∧ length D = 2
       ∧ ∀ i, i < 2 →
           ∃ d d0,
             projected_thickness Examples.toothpicks
               [V3 0 (-1) 0; V3 0 (-1) 0]%float i = Some d
             ∧ [1; 2]%float !! i = Some d0
             ∧ D !! i = Some (d / d0)%float.
Proof.
  pose proof (@Projected_evalFunctions_projection Model.engine Model.geo_utils
                "pt" Examples.toothpicks None None true 1%float false tt
                (Examples.world_with ["pt"] 1) (Examples.projected_world 1)
                Examples.projected eq_refl) as [Hinit Heval].
  split; [exact Hinit|].
  apply (Heval (mkSys Examples.projected (Examples.projected_world 1)) ∅ tt
           (dvgeo (Examples.projected_world 1)) Examples.toothpicks
           eq_refl eq_refl eq_refl eq_refl eq_refl).
  vm_compute. lia.
Defined.
End ProjectedInstance.

(** ** ProximityConstraint: the two Jacobians *)

Section ProximityJacobians.
Context `{DVGeoAPI} `{GeoUtils}.
Import ProximityConstraint.

Lemma pair_seed_is_Some pick o i :
  is_Some (pair_seed pick o i)
  ↔ i < length (coordsA o) ∧ i < length (coordsB o)
    ∧ (scaled o = true → i < length (D0 o)).
Proof.
  unfold pair_seed. split.
  - intros [v Hv]. destruct (coordsA o !! i) as [a|] eqn:Ha; [|done].
    destruct (coordsB o !! i) as [b|] eqn:Hb; [|done].
    apply lookup_lt_Some in Ha, Hb. cbn in Hv.
    destruct (eDist_b a b) as [pAb pBb]. repeat split; try done.
    intros Hs. rewrite Hs in Hv.
    destruct (D0 o !! i) as [d0|] eqn:Hd; [|done]. by apply lookup_lt_Some in Hd.
  - intros (HA & HB & HD).
    destruct (lookup_lt_is_Some_2 (coordsA o) i) as [a ->]; [lia|].
    destruct (lookup_lt_is_Some_2 (coordsB o) i) as [b ->]; [lia|].
    cbn. destruct (eDist_b a b) as [pAb pBb]. destruct (scaled o); [|by eexists].
    destruct (lookup_lt_is_Some_2 (D0 o) i) as [d0 ->]; [by apply HD|].
    by eexists.
Qed.

(** the loop of [evalFunctionsSens]: the two arrays it fills, row by row *)
Lemma Proximity_sens_loop_run o :
  for_range (nCon (base o)) (sens_body o)
    (zeros3 (nCon (base o)) (nCon (base o)), zeros3 (nCon (base o)) (nCon (base o)))
  = (dA ← mapM (λ i, es ← proximity_seeds fst o i;
                     scatter es (zeros2 (nCon (base o))))
            (seq 0 (nCon (base o)));
     dB ← mapM (λ i, es ← proximity_seeds snd o i;
                     scatter es (zeros2 (nCon (base o))))
            (seq 0 (nCon (base o)));
     Some (dA, dB)).
Proof.
  unfold for_range.
  rewrite (for_each_prod2 _ _ _ (Proximity_sens_body_prod o)).
  fold (for_range (nCon (base o)) (pair_step fst o)
          (zeros3 (nCon (base o)) (nCon (base o)))).
  fold (for_range (nCon (base o)) (pair_step snd o)
          (zeros3 (nCon (base o)) (nCon (base o)))).
  unfold zeros3.
  rewrite !(for_range_fill _ _ _ _ (pair_step_fill _ o)).
  assert (Hrow : ∀ pick,
            mapM (λ i, v ← pair_seed pick o i;
                       set_item i v (zeros2 (nCon (base o))))
              (seq 0 (nCon (base o)))
            = mapM (λ i, es ← proximity_seeds pick o i;
                         scatter es (zeros2 (nCon (base o))))
                (seq 0 (nCon (base o)))).
  { intros pick. apply mapM_ext_Forall, Forall_forall. intros i _.
    unfold proximity_seeds. destruct (pair_seed pick o i) as [v|]; [|done].
    cbn. by destruct (set_item i v _). }
  by rewrite !Hrow.
Qed.

Lemma proximity_rows_exist pick o :
  nCon (base o) ≤ length (coordsA o) → nCon (base o) ≤ length (coordsB o) →
  (scaled o = true → nCon (base o) ≤ length (D0 o)) →
  ∃ J, mapM (λ i, es ← proximity_seeds pick o i;
                  scatter es (zeros2 (nCon (base o))))
         (seq 0 (nCon (base o))) = Some J
     ∧ is_jacobian (nCon (base o)) (nCon (base o)) (proximity_seeds pick o) J.
Proof.
  intros HA HB HD. apply mapM_scatter_is_jacobian. intros i Hi.
  destruct (proj2 (pair_seed_is_Some pick o i)) as [v Hv].
  { repeat split; try lia. intros Hs. specialize (HD Hs). lia. }
  exists [(i, v)]. unfold proximity_seeds. rewrite Hv.
  split; [done|]. split; [distinct_points | points_in_range].
Qed.
End ProximityJacobians.

(** X14.  With design variables and enough points, [evalFunctionsSens] of a
    ProximityConstraint hands the engine two Jacobians of shape
    [(nCon, nCon, 3)], one for each point set: row [i] of the first holds the
    seed of [eDist] for the point of set A at point [i] (divided by [D0[i]]
    when [scaled]) and zero everywhere else, row [i] of the second the seed
    for the point of set B.  It calls [totalSensitivity] for set A and then
    for set B, and stores the combination of the two results. *)
Theorem Proximity_evalFunctionsSens_jacobians `{DVGeoAPI} `{GeoUtils}
    (funcsSens : gmap string (gmap string Sens)) (config : Config)
    (s : Sys ProximityConstraint.t) :
  let o := self s in
  let n := nCon (ProximityConstraint.base o) in
  let nm := name (ProximityConstraint.base o) in
  (0 < dv_getNDV (dvgeo (world s)))%Z →
  n ≤ length (ProximityConstraint.coordsA o) →
  n ≤ length (ProximityConstraint.coordsB o) →
  (ProximityConstraint.scaled o = true → n ≤ length (ProximityConstraint.D0 o)) →
  ∃ JA JB,
    is_jacobian n n (proximity_seeds fst o) JA
    ∧ is_jacobian n n (proximity_seeds snd o) JB
    ∧ ProximityConstraint.evalFunctionsSens funcsSens config s
      = let '(gA, funcSensA) :=
          dv_totalSensitivity (dvgeo (world s)) (Seed3 JA) (nm +:+ "_A") config in
        let '(gB, funcSensB) :=
          dv_totalSensitivity gA (Seed3 JB) (nm +:+ "_B") config in
        (mkSys o
           (mkWorld gB
              (calls (world s)
               ++ [CGetNDV; CTotalSensitivity (Seed3 JA) (nm +:+ "_A") config;
                   CTotalSensitivity (Seed3 JB) (nm +:+ "_B") config])
              (file (world s))),
         Some (<[nm := ProximityConstraint.merge_sens funcSensA funcSensB]>
                 funcsSens)).
Proof.
  intros o n nm HnDV HA HB HD. subst o n nm.
  destruct (proximity_rows_exist fst (self s) HA HB HD) as (JA & HJA & HjacA).
  destruct (proximity_rows_exist snd (self s) HA HB HD) as (JB & HJB & HjacB).
  exists JA, JB. split; [done|]. split; [done|].
  unfold ProximityConstraint.evalFunctionsSens. run.
  apply Z.ltb_lt in HnDV. rewrite HnDV. run.
  rewrite Proximity_sens_loop_run, HJA, HJB. obind. run.
  unfold ProximityConstraint.A_name, ProximityConstraint.B_name.
  destruct (dv_totalSensitivity _ _ _ _) as [gA fA]. run.
  destruct (dv_totalSensitivity _ _ _ _) as [gB fB]. run.
  by rewrite <- !app_assoc.
Qed.

Section ProximityJacobiansInstance.
Import Model.

Lemma Proximity_evalFunctionsSens_jacobians_witness :
  ∃ JA JB,
    is_jacobian 2 2 (proximity_seeds fst Examples.proximity) JA
    ∧ is_jacobian 2 2 (proximity_seeds snd Examples.proximity) JB
    ∧ ProximityConstraint.evalFunctionsSens ∅ tt
        (mkSys Examples.proximity (Examples.proximity_world 1))
      = (mkSys Examples.proximity
           (mkWorld (dvgeo (Examples.proximity_world 1))
              (calls (Examples.proximity_world 1)
               ++ [CGetNDV; CTotalSensitivity (Seed3 JA) "p_A" tt;
                   CTotalSensitivity (Seed3 JB) "p_B" tt])
              []),
         Some (<["p" := ProximityConstraint.merge_sens
                           (total_sens (dvgeo (Examples.proximity_world 1))
                              (Seed3 JA) "p_A")
                           (total_sens (dvgeo (Examples.proximity_world 1))
                              (Seed3 JB) "p_B")]> ∅)).
Proof.
  apply (@Proximity_evalFunctionsSens_jacobians Model.engine Model.geo_utils ∅ tt
           (mkSys Examples.proximity (Examples.proximity_world 1))).
  - reflexivity.
  - vm_compute. lia.
  - vm_compute. lia.
  - intros _. vm_compute. lia.
Defined.
End ProximityJacobiansInstance.

(** ** When the sensitivities can be computed *)

Lemma scatter_is_Some {A} (es : list (nat * A)) :
  ∀ row, is_Some (scatter es row) ↔ Forall (λ e, e.1 < length row) es.
Proof.
  induction es as [|[k v] es IH]; intros row; cbn [scatter].
  - split; [by constructor|by eexists].
  - rewrite Forall_cons. cbn [fst]. unfold set_item.
    destruct (decide (k < length row)) as [Hk|Hk]; cbn.
    + rewrite IH, length_insert. by intuition.
    + split; [by intros [? ?]|by intros [? _]].
Qed.

Lemma rows_is_Some_iff (n N : nat)
    (seeds : nat → option (list (nat * vec3 float))) :
  is_Some (mapM (λ i, es ← seeds i; scatter es (zeros2 N)) (seq 0 n))
  ↔ ∀ i, i < n → ∃ es, seeds i = Some es ∧ Forall (λ e, e.1 < N) es.
Proof.
  rewrite mapM_seq_is_Some_iff. apply forall_proper; intros i.
  apply forall_proper; intros Hi. destruct (seeds i) as [es|]; cbn.
  - rewrite scatter_is_Some. unfold zeros2. rewrite length_replicate.
    split; [by eauto|]. by intros (es' & [= <-] & Hes).
  - split; [by intros [? ?]|by intros (? & ? & _)].
Qed.

Section SensResults.
Context `{DVGeoAPI} `{GeoUtils} `{Numpy}.

Lemma thickness_seeds_in_range sc (D0 : list float) coords i :
  (∃ es, thickness_seeds sc D0 coords i = Some es
       ∧ Forall (λ e, e.1 < length coords) es)
  ↔ 2 * i + 1 < length coords ∧ (sc = true → i < length D0).
Proof.
  unfold thickness_seeds. split.
  - intros (es & Hes & _). destruct (coords !! (2 * i)) as [p|]; [|done].
    destruct (coords !! (2 * i + 1)) as [q|] eqn:Hq; [|done].
    apply lookup_lt_Some in Hq. split; [done|]. intros ->. cbn in Hes.
    destruct (eDist_b p q). destruct (D0 !! i) as [d0|] eqn:Hd; [|done].
    by apply lookup_lt_Some in Hd.
  - intros [Hlt HD].
    destruct (lookup_lt_is_Some_2 coords (2 * i)) as [p ->]; [lia|].
    destruct (lookup_lt_is_Some_2 coords (2 * i + 1)) as [q ->]; [lia|].
    cbn. destruct (eDist_b p q) as [p1b p2b]. destruct sc.
    + destruct (lookup_lt_is_Some_2 D0 i) as [d0 ->]; [by apply HD|].
      eexists. split; [done|]. points_in_range.
    + eexists. split; [done|]. points_in_range.
Qed.

Lemma projected_seeds_in_range sc (D0 : list float) dir_vec N i :
  (∃ es, projected_seeds sc D0 dir_vec i = Some es ∧ Forall (λ e, e.1 < N) es)
  ↔ 2 * i + 1 < N ∧ i < length dir_vec ∧ (sc = true → i < length D0).
Proof.
  unfold projected_seeds. split.
  - intros (es & Hes & Hin). destruct sc.
    + destruct (D0 !! i) as [d0|] eqn:Hd; [|done]. cbn in Hes.
      destruct (dir_vec !! i) as [n|] eqn:Hn; [|done]. cbn in Hes.
      simplify_eq. apply lookup_lt_Some in Hd, Hn.
      apply Forall_cons in Hin as [_ Hin]. apply Forall_cons in Hin as [Hin _].
      cbn in Hin. by eauto.
    + cbn in Hes. destruct (dir_vec !! i) as [n|] eqn:Hn; [|done]. cbn in Hes.
      simplify_eq. apply lookup_lt_Some in Hn.
      apply Forall_cons in Hin as [_ Hin]. apply Forall_cons in Hin as [Hin _].
      cbn in Hin. by eauto.
  - intros (Hlt & Hdv & HD).
    destruct (lookup_lt_is_Some_2 dir_vec i) as [n Hn]; [lia|]. destruct sc.
    + destruct (lookup_lt_is_Some_2 D0 i) as [d0 ->]; [by apply HD|]. cbn.
      rewrite Hn. eexists. split; [done|]. points_in_range.
    + cbn. rewrite Hn. eexists. split; [done|]. points_in_range.
Qed.

Lemma toc_seeds_in_range (ToC0 : list float) coords i :
  (∃ es, toc_seeds ToC0 coords i = Some es ∧ Forall (λ e, e.1 < length coords) es)
  ↔ 4 * i + 3 < length coords ∧ i < length ToC0.
Proof.
  unfold toc_seeds. split.
  - intros (es & Hes & _). destruct (coords !! (4 * i)) as [p1|]; [|done].
    destruct (coords !! (4 * i + 1)) as [p2|]; [|done].
    destruct (coords !! (4 * i + 2)) as [p3|]; [|done].
    destruct (coords !! (4 * i + 3)) as [p4|] eqn:Hq; [|done].
    apply lookup_lt_Some in Hq. split; [done|]. cbn in Hes.
    destruct (eDist_b p1 p2). destruct (eDist_b p3 p4).
    destruct (ToC0 !! i) as [t0|] eqn:Hd; [|done]. by apply lookup_lt_Some in Hd.
  - intros [Hlt HT].
    destruct (lookup_lt_is_Some_2 coords (4 * i)) as [p1 ->]; [lia|].
    destruct (lookup_lt_is_Some_2 coords (4 * i + 1)) as [p2 ->]; [lia|].
    destruct (lookup_lt_is_Some_2 coords (4 * i + 2)) as [p3 ->]; [lia|].
    destruct (lookup_lt_is_Some_2 coords (4 * i + 3)) as [p4 ->]; [lia|].
    destruct (lookup_lt_is_Some_2 ToC0 i) as [t0 ->]; [lia|].
    cbn. destruct (eDist_b p1 p2). destruct (eDist_b p3 p4).
    eexists. split; [done|]. points_in_range.
Qed.

Lemma proximity_seeds_in_range pick (o : ProximityConstraint.t) N i :
  (∃ es, proximity_seeds pick o i = Some es ∧ Forall (λ e, e.1 < N) es)
  ↔ i < N ∧ i < length (ProximityConstraint.coordsA o)
    ∧ i < length (ProximityConstraint.coordsB o)
    ∧ (ProximityConstraint.scaled o = true
       → i < length (ProximityConstraint.D0 o)).
Proof.
  unfold proximity_seeds. split.
  - intros (es & Hes & Hin).
    destruct (pair_seed pick o i) as [v|] eqn:Hv; [|done]. cbn in Hes.
    simplify_eq. apply Forall_cons in Hin as [Hin _]. cbn in Hin.
    split; [done|]. apply (proj1 (pair_seed_is_Some pick o i)). by eexists.
  - intros (HN & Hrest).
    apply (proj2 (pair_seed_is_Some pick o i)) in Hrest as [v ->].
    eexists. split; [done|]. points_in_range.
Qed.

(** the result of [evalFunctionsSens] when the engine has design variables *)
Lemma Thickness_sens_result (s : Sys ThicknessConstraint.t) fs config :
  (0 < dv_getNDV (dvgeo (world s)))%Z →
  (ThicknessConstraint.evalFunctionsSens fs config s).2
  = (let o := self s in
     J ← mapM (λ i, es ← thickness_seeds (ThicknessConstraint.scaled o)
                           (ThicknessConstraint.D0 o)
                           (ThicknessConstraint.coords o) i;
                    scatter es (zeros2 (length (ThicknessConstraint.coords o))))
            (seq 0 (nCon (ThicknessConstraint.base o)));
     Some (<[name (ThicknessConstraint.base o)
             := (dv_totalSensitivity (dvgeo (world s)) (Seed3 J)
                   (name (ThicknessConstraint.base o)) config).2]> fs)).
Proof.
  intros HnDV. unfold ThicknessConstraint.evalFunctionsSens. run.
  apply Z.ltb_lt in HnDV. rewrite HnDV. run. unfold zeros3.
  rewrite (for_range_fill
             (λ i row, es ← thickness_seeds (ThicknessConstraint.scaled (self s))
                              (ThicknessConstraint.D0 (self s))
                              (ThicknessConstraint.coords (self s)) i;
                       scatter es row))
    by (intros; by apply Thickness_sens_body_fill).
  destruct (mapM _ _) as [J|]; [|done]. cbn.
  by destruct (dv_totalSensitivity _ _ _ _).
Qed.

Lemma Projected_sens_result (s : Sys ProjectedThicknessConstraint.t) fs config :
  (0 < dv_getNDV (dvgeo (world s)))%Z →
  (ProjectedThicknessConstraint.evalFunctionsSens fs config s).2
  = (let o := self s in
     J ← mapM (λ i, es ← projected_seeds (ProjectedThicknessConstraint.scaled o)
                           (ProjectedThicknessConstraint.D0 o)
                           (ProjectedThicknessConstraint.dir_vec o) i;
                    scatter es
                      (zeros2 (length (ProjectedThicknessConstraint.coords o))))
            (seq 0 (nCon (ProjectedThicknessConstraint.base o)));
     Some (<[name (ProjectedThicknessConstraint.base o)
             := (dv_totalSensitivity (dvgeo (world s)) (Seed3 J)
                   (name (ProjectedThicknessConstraint.base o)) config).2]> fs)).
Proof.
  intros HnDV. unfold ProjectedThicknessConstraint.evalFunctionsSens. run.
  apply Z.ltb_lt in HnDV. rewrite HnDV. run. unfold zeros3.
  rewrite (for_range_fill
             (λ i row, es ← projected_seeds
                              (ProjectedThicknessConstraint.scaled (self s))
                              (ProjectedThicknessConstraint.D0 (self s))
                              (ProjectedThicknessConstraint.dir_vec (self s)) i;
                       scatter es row))
    by (intros; by apply Projected_sens_body_fill).
  destruct (mapM _ _) as [J|]; [|done]. cbn.
  by destruct (dv_totalSensitivity _ _ _ _).
Qed.

Lemma ToC_sens_result (s : Sys ThicknessToChordConstraint.t) fs config :
  (0 < dv_getNDV (dvgeo (world s)))%Z →
  (ThicknessToChordConstraint.evalFunctionsSens fs config s).2
  = (let o := self s in
     J ← mapM (λ i, es ← toc_seeds (ThicknessToChordConstraint.ToC0 o)
                           (ThicknessToChordConstraint.coords o) i;
                    scatter es
                      (zeros2 (length (ThicknessToChordConstraint.coords o))))
            (seq 0 (nCon (ThicknessToChordConstraint.base o)));
     Some (<[name (ThicknessToChordConstraint.base o)
             := (dv_totalSensitivity (dvgeo (world s)) (Seed3 J)
                   (name (ThicknessToChordConstraint.base o)) config).2]> fs)).
Proof.
  intros HnDV. unfold ThicknessToChordConstraint.evalFunctionsSens. run.
  apply Z.ltb_lt in HnDV. rewrite HnDV. run. unfold zeros3.
  rewrite (for_range_fill
             (λ i row, es ← toc_seeds (ThicknessToChordConstraint.ToC0 (self s))
                              (ThicknessToChordConstraint.coords (self s)) i;
                       scatter es row))
    by (intros; by apply ToC_sens_body_fill).
  destruct (mapM _ _) as [J|]; [|done]. cbn.
  by destruct (dv_totalSensitivity _ _ _ _).
Qed.

Lemma Proximity_sens_is_Some (s : Sys ProximityConstraint.t) fs config :
  (0 < dv_getNDV (dvgeo (world s)))%Z →
  is_Some (ProximityConstraint.evalFunctionsSens fs config s).2
  ↔ is_Some (mapM (λ i, es ← proximity_seeds fst (self s) i;
                        scatter es
                          (zeros2 (nCon (ProximityConstraint.base (self s)))))
               (seq 0 (nCon (ProximityConstraint.base (self s)))))
    ∧ is_Some (mapM (λ i, es ← proximity_seeds snd (self s) i;
                          scatter es
                            (zeros2 (nCon (ProximityConstraint.base (self s)))))
                 (seq 0 (nCon (ProximityConstraint.base (self s))))).
Proof.
  intros HnDV. unfold ProximityConstraint.evalFunctionsSens. run.
  apply Z.ltb_lt in HnDV. rewrite HnDV. run.
  rewrite Proximity_sens_loop_run.
  set (mA := mapM (λ i, es ← proximity_seeds fst (self s) i; _) _).
  set (mB := mapM (λ i, es ← proximity_seeds snd (self s) i; _) _).
  destruct mA as [JA|]; cbn.
  - destruct mB as [JB|]; cbn.
    + destruct (dv_totalSensitivity _ _ _ _). run.
      destruct (dv_totalSensitivity _ _ _ _). run. cbn.
      split; [intros _; split; by eexists|intros _; by eexists].
    + split; [by intros [? ?]|by intros [[? ?] [? ?]]].
  - split; [by intros [? ?]|by intros [[? ?] [? ?]]].
Qed.
End SensResults.

(** X15.  [evalFunctionsSens] of ThicknessConstraint,
    ProjectedThicknessConstraint, ThicknessToChordConstraint and
    ProximityConstraint returns exactly when the engine has no design variable
    (nothing is read then) or the stored arrays hold every entry the loop
    reads: [2 nCon] points ([4 nCon] for ThicknessToChordConstraint, [nCon] in
    both sets for ProximityConstraint), [nCon] baseline entries where the
    baseline is read, [nCon] directions.  Otherwise it raises
    [IndexError]. *)
Theorem evalFunctionsSens_returns_iff `{DVGeoAPI} `{GeoUtils} `{Numpy}
    (funcsSens : gmap string (gmap string Sens)) (config : Config) :
  (∀ s : Sys ThicknessConstraint.t,
     let o := self s in
     let n := nCon (ThicknessConstraint.base o) in
     is_Some (ThicknessConstraint.evalFunctionsSens funcsSens config s).2
     ↔ (dv_getNDV (dvgeo (world s)) ≤ 0)%Z
       ∨ (2 * n ≤ length (ThicknessConstraint.coords o)
          ∧ (ThicknessConstraint.scaled o = true
             → n ≤ length (ThicknessConstraint.D0 o))))
  ∧ (∀ s : Sys ProjectedThicknessConstraint.t,
     let o := self s in
     let n := nCon (ProjectedThicknessConstraint.base o) in
     is_Some (ProjectedThicknessConstraint.evalFunctionsSens funcsSens config s).2
     ↔ (dv_getNDV (dvgeo (world s)) ≤ 0)%Z
       ∨ (2 * n ≤ length (ProjectedThicknessConstraint.coords o)
          ∧ n ≤ length (ProjectedThicknessConstraint.dir_vec o)
          ∧ (ProjectedThicknessConstraint.scaled o = true
             → n ≤ length (ProjectedThicknessConstraint.D0 o))))
  ∧ (∀ s : Sys ThicknessToChordConstraint.t,
     let o := self s in
     let n := nCon (ThicknessToChordConstraint.base o) in
     is_Some (ThicknessToChordConstraint.evalFunctionsSens funcsSens config s).2
     ↔ (dv_getNDV (dvgeo (world s)) ≤ 0)%Z
       ∨ (4 * n ≤ length (ThicknessToChordConstraint.coords o)
          ∧ n ≤ length (ThicknessToChordConstraint.ToC0 o)))
  ∧ (∀ s : Sys ProximityConstraint.t,
     let o := self s in
     let n := nCon (ProximityConstraint.base o) in
     is_Some (ProximityConstraint.evalFunctionsSens funcsSens config s).2
     ↔ (dv_getNDV (dvgeo (world s)) ≤ 0)%Z
       ∨ (n ≤ length (ProximityConstraint.coordsA o)
          ∧ n ≤ length (ProximityConstraint.coordsB o)
          ∧ (ProximityConstraint.scaled o = true
             → n ≤ length (ProximityConstraint.D0 o)))).
Proof.
  repeat apply conj; intros s; cbv zeta.
  - destruct (decide (0 < dv_getNDV (dvgeo (world s)))%Z) as [HnDV|HnDV].
    + rewrite Thickness_sens_result by done. cbv zeta.
      rewrite is_Some_bind_Some, rows_is_Some_iff.
      set (n := nCon _). split.
      * intros Hall. right. destruct n as [|n]; [split; [lia|intros; lia]|].
        specialize (Hall n). rewrite thickness_seeds_in_range in Hall.
        destruct Hall as [Hc HD]; [lia|]. split; [lia|]. intros Hs.
        specialize (HD Hs). lia.
      * intros [Hle|[Hc HD]] i Hi; [lia|]. apply thickness_seeds_in_range.
        split; [lia|]. intros Hs. specialize (HD Hs). lia.
    + split; [intros _; left; lia|]. intros _.
      unfold ThicknessConstraint.evalFunctionsSens. run.
      rewrite (proj2 (Z.ltb_ge _ _)) by lia. by eexists.
  - destruct (decide (0 < dv_getNDV (dvgeo (world s)))%Z) as [HnDV|HnDV].
    + rewrite Projected_sens_result by done. cbv zeta.
      rewrite is_Some_bind_Some, rows_is_Some_iff.
      set (n := nCon _). split.
      * intros Hall. right. destruct n as [|n]; [repeat split; intros; lia|].
        specialize (Hall n). rewrite projected_seeds_in_range in Hall.
        destruct Hall as (Hc & Hdv & HD); [lia|]. repeat split; try lia.
        intros Hs. specialize (HD Hs). lia.
      * intros [Hle|(Hc & Hdv & HD)] i Hi; [lia|].
        apply projected_seeds_in_range. repeat split; try lia.
        intros Hs. specialize (HD Hs). lia.
    + split; [intros _; left; lia|]. intros _.
      unfold ProjectedThicknessConstraint.evalFunctionsSens. run.
      rewrite (proj2 (Z.ltb_ge _ _)) by lia. by eexists.
  - destruct (decide (0 < dv_getNDV (dvgeo (world s)))%Z) as [HnDV|HnDV].
    + rewrite ToC_sens_result by done. cbv zeta.
      rewrite is_Some_bind_Some, rows_is_Some_iff.
      set (n := nCon _). split.
      * intros Hall. right. destruct n as [|n]; [lia|].
        specialize (Hall n). rewrite toc_seeds_in_range in Hall. lia.
      * intros [Hle|[Hc HT]] i Hi; [lia|]. apply toc_seeds_in_range. lia.
    + split; [intros _; left; lia|]. intros _.
      unfold ThicknessToChordConstraint.evalFunctionsSens. run.
      rewrite (proj2 (Z.ltb_ge _ _)) by lia. by eexists.
  - destruct (decide (0 < dv_getNDV (dvgeo (world s)))%Z) as [HnDV|HnDV].
    + rewrite Proximity_sens_is_Some by done. rewrite !rows_is_Some_iff.
      set (n := nCon _). split.
      * intros [Hall _]. right.
        destruct n as [|n]; [repeat split; intros; lia|].
        specialize (Hall n). rewrite proximity_seeds_in_range in Hall.
        destruct Hall as (_ & HA & HB & HD); [lia|]. repeat split; try lia.
        intros Hs. specialize (HD Hs). lia.
      * intros [Hle|(HA & HB & HD)]; [lia|].
        split; intros i Hi; apply proximity_seeds_in_range;
          (repeat split; try lia); intros Hs; specialize (HD Hs); lia.
    + split; [intros _; left; lia|]. intros _.
      unfold ProximityConstraint.evalFunctionsSens. run.
      rewrite (proj2 (Z.ltb_ge _ _)) by lia. by eexists.
Qed.

(** X16.  After [evalFunctions] has returned, [evalFunctionsSens] on the
    state it left cannot raise, for ThicknessConstraint,
    ProjectedThicknessConstraint, ThicknessToChordConstraint and
    ProximityConstraint: the loop of the sensitivities reads the same entries
    of the coordinates, the baseline and the directions as the loop of the
    values, and the Jacobian has a column for every point it writes. *)
Theorem evalFunctionsSens_after_evalFunctions `{DVGeoAPI} `{GeoUtils} `{Numpy}
    (funcs : gmap string FuncVal) (config : Config)
    (funcsSens : gmap string (gmap string Sens)) (config' : Config) :
  (∀ (s s' : Sys ThicknessConstraint.t) funcs',
     ThicknessConstraint.evalFunctions funcs config s = (s', Some funcs') →
     is_Some (ThicknessConstraint.evalFunctionsSens funcsSens config' s').2)
  ∧ (∀ (s s' : Sys ProjectedThicknessConstraint.t) funcs',
     ProjectedThicknessConstraint.evalFunctions funcs config s = (s', Some funcs') →
     is_Some (ProjectedThicknessConstraint.evalFunctionsSens funcsSens config' s').2)
  ∧ (∀ (s s' : Sys ThicknessToChordConstraint.t) funcs',
     ThicknessToChordConstraint.evalFunctions funcs config s = (s', Some funcs') →
     is_Some (ThicknessToChordConstraint.evalFunctionsSens funcsSens config' s').2)
  ∧ (∀ (s s' : Sys ProximityConstraint.t) funcs',
     ProximityConstraint.evalFunctions funcs config s = (s', Some funcs') →
     is_Some (ProximityConstraint.evalFunctionsSens funcsSens config' s').2).
Proof.
  repeat apply conj; intros s s' funcs' Heval.
  - rewrite Thickness_evalFunctions_run in Heval. cbv zeta in Heval.
    destruct (dv_update _ _ _) as [g c].
    destruct (mapM _ _) as [D|] eqn:HD; [|done].
    cbn [mbind option_bind] in Heval. apply (f_equal fst) in Heval.
    cbn [fst] in Heval. subst s'.
    destruct (mapM_seq_lookup _ _ _ HD) as [_ HDi].
    destruct (decide (0 < dv_getNDV g)%Z) as [HnDV|HnDV].
    + rewrite Thickness_sens_result by done. cbv zeta.
      cbn [self ThicknessConstraint.set_coords ThicknessConstraint.base
           ThicknessConstraint.coords ThicknessConstraint.scaled
           ThicknessConstraint.D0].
      rewrite is_Some_bind_Some, rows_is_Some_iff. intros i Hi.
      apply thickness_seeds_in_range.
      destruct (HDi i Hi) as (v & Hv & _).
      assert (Hs : is_Some (d ← toothpick_length c i;
                            scaled_by (ThicknessConstraint.scaled (self s))
                              (ThicknessConstraint.D0 (self s)) i d))
        by (by eexists).
      rewrite is_Some_bind_const in Hs by (intros; apply scaled_by_is_Some).
      by rewrite toothpick_length_is_Some in Hs.
    + unfold ThicknessConstraint.evalFunctionsSens. run.
      rewrite (proj2 (Z.ltb_ge _ _)) by lia. by eexists.
  - rewrite Projected_evalFunctions_run in Heval. cbv zeta in Heval.
    destruct (dv_update _ _ _) as [g c].
    destruct (mapM _ _) as [D|] eqn:HD; [|done].
    cbn [mbind option_bind] in Heval. apply (f_equal fst) in Heval.
    cbn [fst] in Heval. subst s'.
    destruct (mapM_seq_lookup _ _ _ HD) as [_ HDi].
    destruct (decide (0 < dv_getNDV g)%Z) as [HnDV|HnDV].
    + rewrite Projected_sens_result by done. cbv zeta.
      cbn [self ProjectedThicknessConstraint.set_coords
           ProjectedThicknessConstraint.base ProjectedThicknessConstraint.coords
           ProjectedThicknessConstraint.scaled ProjectedThicknessConstraint.D0
           ProjectedThicknessConstraint.dir_vec].
      rewrite is_Some_bind_Some, rows_is_Some_iff. intros i Hi.
      apply projected_seeds_in_range.
      destruct (HDi i Hi) as (v & Hv & _).
      assert (Hs : is_Some (d ← projected_thickness c
                                  (ProjectedThicknessConstraint.dir_vec (self s)) i;
                            scaled_by (ProjectedThicknessConstraint.scaled (self s))
                              (ProjectedThicknessConstraint.D0 (self s)) i d))
        by (by eexists).
      rewrite is_Some_bind_const in Hs by (intros; apply scaled_by_is_Some).
      rewrite projected_thickness_is_Some in Hs. by intuition.
    + unfold ProjectedThicknessConstraint.evalFunctionsSens. run.
      rewrite (proj2 (Z.ltb_ge _ _)) by lia. by eexists.
  - rewrite ToC_evalFunctions_run in Heval. cbv zeta in Heval.
    destruct (dv_update _ _ _) as [g c].
    destruct (mapM _ _) as [D|] eqn:HD; [|done].
    cbn [mbind option_bind] in Heval. apply (f_equal fst) in Heval.
    cbn [fst] in Heval. subst s'.
    destruct (mapM_seq_lookup _ _ _ HD) as [_ HDi].
    destruct (decide (0 < dv_getNDV g)%Z) as [HnDV|HnDV].
    + rewrite ToC_sens_result by done. cbv zeta.
      cbn [self ThicknessToChordConstraint.set_coords
           ThicknessToChordConstraint.base ThicknessToChordConstraint.coords
           ThicknessToChordConstraint.ToC0].
      rewrite is_Some_bind_Some, rows_is_Some_iff. intros i Hi.
      apply toc_seeds_in_range.
      destruct (HDi i Hi) as (v & Hv & _).
      destruct (current_ratio c i) as [r|] eqn:Hr; [|done]. cbn in Hv.
      destruct (ThicknessToChordConstraint.ToC0 (self s) !! i) as [r0|] eqn:Hr0;
        [|done].
      apply lookup_lt_Some in Hr0. split; [|done].
      apply current_ratio_is_Some. by eexists.
    + unfold ThicknessToChordConstraint.evalFunctionsSens. run.
      rewrite (proj2 (Z.ltb_ge _ _)) by lia. by eexists.
  - rewrite Proximity_evalFunctions_run in Heval. cbv zeta in Heval.
    destruct (dv_update _ _ _) as [gA cA]. destruct (dv_update _ _ _) as [gB cB].
    destruct (mapM _ _) as [D|] eqn:HD; [|done].
    cbn [mbind option_bind] in Heval. apply (f_equal fst) in Heval.
    cbn [fst] in Heval. subst s'.
    destruct (mapM_seq_lookup _ _ _ HD) as [_ HDi].
    destruct (decide (0 < dv_getNDV gB)%Z) as [HnDV|HnDV].
    + rewrite Proximity_sens_is_Some by done. rewrite !rows_is_Some_iff.
      cbn [self ProximityConstraint.set_coordsA ProximityConstraint.set_coordsB
           ProximityConstraint.base].
      assert (Hrow : ∀ i, i < nCon (ProximityConstraint.base (self s)) →
                i < length cA ∧ i < length cB
                ∧ (ProximityConstraint.scaled (self s) = true
                   → i < length (ProximityConstraint.D0 (self s)))).
      { intros i Hi. destruct (HDi i Hi) as (v & Hv & _).
        assert (Hs : is_Some (d ← pair_distance cA cB i;
                              scaled_by (ProximityConstraint.scaled (self s))
                                (ProximityConstraint.D0 (self s)) i d))
          by (by eexists).
        rewrite is_Some_bind_const in Hs by (intros; apply scaled_by_is_Some).
        rewrite pair_distance_is_Some in Hs. by intuition. }
      split; intros i Hi; apply proximity_seeds_in_range;
        (split; [done|]); by apply Hrow.
    + unfold ProximityConstraint.evalFunctionsSens. run.
      rewrite (proj2 (Z.ltb_ge _ _)) by lia. by eexists.
Qed.

Section AfterEvalInstance.
Import Model.

Lemma evalFunctionsSens_after_evalFunctions_witness :
  is_Some (ThicknessConstraint.evalFunctionsSens ∅ tt
             (ThicknessConstraint.evalFunctions ∅ tt
                (mkSys Examples.thickness (Examples.thickness_world 1))).1).2
  ∧ is_Some (ProximityConstraint.evalFunctionsSens ∅ tt
               (ProximityConstraint.evalFunctions ∅ tt
                  (mkSys Examples.proximity (Examples.proximity_world 1))).1).2.
Proof.
  pose proof (@evalFunctionsSens_after_evalFunctions Model.engine Model.geo_utils
                Model.numpy ∅ tt ∅ tt) as (Hthickness & _ & _ & Hproximity).
  split.
  - apply (Hthickness (mkSys Examples.thickness (Examples.thickness_world 1)) _
             (<["t" := FArray [1; 1]%float]> ∅)).
    vm_compute. reflexivity.
  - apply (Hproximity (mkSys Examples.proximity (Examples.proximity_world 1)) _
             (<["p" := FArray [1; 1]%float]> ∅)).
    vm_compute. reflexivity.
Defined.
End AfterEvalInstance.

(** ** KSMaxThicknessToChordConstraint: a design variable on one point set *)

(** X17.  With design variables, [evalFunctionsSens] of a
    KSMaxThicknessToChordConstraint that holds its points calls
    [totalSensitivity] for the toothpick points and for the leading and
    trailing edge points, and then returns exactly when every design variable
    reported for the toothpick points is also reported for the edge points;
    a design variable that moves the toothpicks only makes it raise
    [KeyError], after both calls were made. *)
Theorem KSMax_evalFunctionsSens_KeyError `{DVGeoAPI} `{GeoUtils} `{Numpy}
    (funcsSens : gmap string (gmap string Sens)) (config : Config)
    (s : Sys KSMaxThicknessToChordConstraint.t) le te rest :
  let o := self s in
  let nm := name (KSMaxThicknessToChordConstraint.base o) in
  (0 < dv_getNDV (dvgeo (world s)))%Z →
  KSMaxThicknessToChordConstraint.leTePts o = le :: te :: rest →
  2 * KSMaxThicknessToChordConstraint.nPoint o
  ≤ length (KSMaxThicknessToChordConstraint.coords o) →
  (∀ g, length (KS_derivatives g (KSMaxThicknessToChordConstraint.rho o)
                  (KSMaxThicknessToChordConstraint.ksApproach o)).1 = length g) →
  ∃ seedC seedL g1 tmp0 g2 tmp1,
    dv_totalSensitivity (dvgeo (world s)) (Seed2 seedC) (nm +:+ "_coords") config
    = (g1, tmp0)
    ∧ dv_totalSensitivity g1 (Seed2 seedL) (nm +:+ "_lete") config = (g2, tmp1)
    ∧ calls (world (KSMaxThicknessToChordConstraint.evalFunctionsSens
                      funcsSens config s).1)
      = calls (world s)
        ++ [CGetNDV; CTotalSensitivity (Seed2 seedC) (nm +:+ "_coords") config;
            CTotalSensitivity (Seed2 seedL) (nm +:+ "_lete") config]
    ∧ (is_Some (KSMaxThicknessToChordConstraint.evalFunctionsSens
                  funcsSens config s).2
       ↔ dom tmp0 ⊆ dom tmp1).
Proof.
  intros o nm HnDV Hlt Hlen Hks. subst o nm.
  destruct (KSMax_sens_arrays_exist (self s) le te Hlen Hks)
    as (dC & dL & ToC & sC & sL & HdC & HdL & HT & HsC & HsL).
  pose proof (KSMax_evalFunctionsSens_run s funcsSens config le te rest
                dC dL ToC sC sL HnDV Hlt HdC HdL HT HsC HsL) as Hrun.
  cbv zeta in Hrun.
  unfold KSMaxThicknessToChordConstraint.coords_name,
    KSMaxThicknessToChordConstraint.lete_name in Hrun.
  destruct (dv_totalSensitivity (dvgeo (world s)) _ _ _) as [g1 tmp0] eqn:Ht0.
  destruct (dv_totalSensitivity g1 _ _ _) as [g2 tmp1] eqn:Ht1.
  exists (concat sC), sL, g1, tmp0, g2, tmp1.
  split; [done|]. split; [done|]. rewrite Hrun. cbn [fst snd world calls].
  split; [done|].
  destruct (combine_spec tmp0 tmp1) as [Hsome Hspec]. split.
  - intros [r Hr].
    destruct (KSMaxThicknessToChordConstraint.combine tmp0 tmp1) as [total|] eqn:Hc;
      [|done].
    by destruct (Hspec total eq_refl).
  - intros Hdom. destruct (Hsome Hdom) as [total ->]. by eexists.
Qed.

Section KeyErrorInstance.
Import Model.

Lemma KSMax_evalFunctionsSens_KeyError_witness :
  (KSMaxThicknessToChordConstraint.evalFunctionsSens ∅ tt
     (mkSys (Examples.ksmax true [0.5; 1]%float 1%float)
            (Examples.ksmax_world sweep_on_toothpicks_only 1))).2
  = None.
Proof.
  destruct (@KSMax_evalFunctionsSens_KeyError Model.engine Model.geo_utils
              Model.numpy ∅ tt
              (mkSys (Examples.ksmax true [0.5; 1]%float 1%float)
                     (Examples.ksmax_world sweep_on_toothpicks_only 1))
              Examples.le_pt Examples.te_pt [])
    as (seedC & seedL & g1 & tmp0 & g2 & tmp1 & Ht0 & Ht1 & _ & Hiff).
  - reflexivity.
  - reflexivity.
  - vm_compute. lia.
  - intros g. apply first_hit_length.
  - injection Ht0 as <- <-. injection Ht1 as <- <-.
    destruct (KSMaxThicknessToChordConstraint.evalFunctionsSens _ _ _).2
      as [r|] eqn:Hr; [|reflexivity].
    exfalso.
    assert (Hsub : dom (<["twist" := [seed_sum seedC]]>
                          (<["sweep" := [seed_sum seedC]]>
                             (∅ : gmap string (list float))))
                   ⊆ dom (<["twist" := [seed_sum seedL]]>
                            (∅ : gmap string (list float)))).
    { apply Hiff. by eexists. }
    rewrite !dom_insert_L, dom_empty_L in Hsub.
    assert (Hin : "sweep" ∈ ({["twist"]} ∪ ∅ : gset string)).
    { apply Hsub. apply elem_of_union_r, elem_of_union_l. by apply elem_of_singleton. }
    apply elem_of_union in Hin as [Hin|Hin].
    + apply elem_of_singleton in Hin. discriminate.
    + by apply elem_of_empty in Hin.
Defined.
End KeyErrorInstance.

(** ** TESlopeConstraint: the columns of the trailing edge point *)

Section TrailingEdge.
Context `{DVGeoAPI} `{GeoUtils} `{Numpy}.
Import TESlopeConstraint.

(** [_compute] stores the trailing edge point into the float64 array [xMid],
    which keeps its real part: a step along the imaginary axis on one of its
    coordinates does not reach the result *)
Lemma compute_te_perturbed (n : nat) (ts0 : list float)
    (coordsD : list (vec3 complex128)) (sc : bool) (j : axis) :
  (∀ p, last coordsD = Some p → re (vget j p) ≠ (-0)%float) →
  _compute n ts0 (perturbed (length coordsD - 1) j coordsD) sc
  = _compute n ts0 coordsD sc.
Proof.
  intros Hnz. unfold _compute.
  assert (Hbl : but_last (perturbed (length coordsD - 1) j coordsD)
                = but_last coordsD).
  { unfold but_last, perturbed. rewrite length_alter. by apply take_alter_ge. }
  assert (Hlast : vmap t_to_float
                    <$> last (perturbed (length coordsD - 1) j coordsD)
                  = vmap t_to_float <$> last coordsD).
  { unfold perturbed. rewrite !last_lookup, length_alter.
    replace (pred (length coordsD)) with (length coordsD - 1) by lia.
    rewrite list_lookup_alter_eq.
    destruct (coordsD !! (length coordsD - 1)) as [p|] eqn:Hp; [|done].
    cbn. f_equal.
    assert (Hre : re (cadd (vget j p) step_imag) = re (vget j p)).
    { unfold cadd, step_imag, fzero. cbn [re]. apply float_add_zero, Hnz.
      rewrite last_lookup.
      by replace (pred (length coordsD)) with (length coordsD - 1) by lia. }
    destruct p as [x y z].
    destruct j; cbn [vget vset vx vy vz] in Hre |- *; unfold vmap;
      cbn [vx vy vz]; by rewrite Hre. }
  rewrite Hbl.
  destruct (broadcast2 _ _ _) as [dVec|]; obind; [|done].
  destruct (broadcast2 _ _ _) as [mids|]; obind; [|done].
  destruct (broadcast_to _ _) as [mids'|]; obind; [|done].
  destruct (last (perturbed _ _ _)) as [te'|], (last coordsD) as [te|];
    cbn [fmap option_fmap option_map] in Hlast; try discriminate; obind;
    [|done].
  apply (inj Some) in Hlast. by rewrite Hlast.
Qed.
End TrailingEdge.

(** X18.  In the complex-step Jacobian of a TESlopeConstraint the three
    columns of the trailing edge point (the last point) hold, for every axis,
    the imaginary part of [_compute] on the unperturbed coordinates divided
    by the step: [_compute] stores the trailing edge point into the float64
    array [xMid], which keeps the real part of its coordinates, so the step
    added to the trailing edge point does not reach the constraint values. *)
Theorem TESlope_trailing_edge_columns `{DVGeoAPI} `{GeoUtils} `{Numpy}
    (s : Sys TESlopeConstraint.t)
    (funcsSens : gmap string (gmap string Sens)) (config : Config) :
  let o := self s in
  let n := nCon (TESlopeConstraint.base o) in
  let nm := name (TESlopeConstraint.base o) in
  let coords := TESlopeConstraint.coords o in
  (0 < dv_getNDV (dvgeo (world s)))%Z →
  length coords = 2 * n + 1 →
  (TESlopeConstraint.scaled o = true → length (TESlopeConstraint.teSlope0 o) = n) →
  (∀ p j, p ∈ coords → vget j p ≠ (-0)%float) →
  ∃ J conVal,
    TESlopeConstraint.evalFunctionsSens funcsSens config s
    = after_totalSensitivity s (Seed3 J) nm nm config funcsSens
    ∧ TESlopeConstraint._compute n (TESlopeConstraint.teSlope0 o)
        (map (vmap astypeD) coords) (TESlopeConstraint.scaled o)
      = Some conVal
    ∧ ∀ j, column_is (2 * n) j (map (λ z, im z / step_real)%float conVal) J.
Proof.
  intros o n nm coords HnDV Hshape Hts0 Hnz. subst o n nm coords.
  set (coordsD := map (vmap astypeD) (TESlopeConstraint.coords (self s))).
  assert (HlenD : length coordsD = 2 * nCon (TESlopeConstraint.base (self s)) + 1)
    by (unfold coordsD; by rewrite length_map).
  destruct (sens_loop_spec (self s) coordsD) as (J & Hloop & HlenJ & _ & Hcols);
    [done..| |].
  { intros i p j Hp. unfold coordsD in Hp. rewrite list_lookup_fmap in Hp.
    destruct (TESlopeConstraint.coords (self s) !! i) as [p0|] eqn:Hp0; [|done].
    cbn in Hp. simplify_eq. rewrite vget_vmap. apply step_exact, Hnz.
    by eapply list_elem_of_lookup_2. }
  destruct (compute_shape (nCon (TESlopeConstraint.base (self s)))
              (TESlopeConstraint.teSlope0 (self s)) coordsD
              (TESlopeConstraint.scaled (self s)) HlenD Hts0)
    as (conVal & HconVal & _).
  exists J, conVal. split; [|split; [done|]].
  - unfold TESlopeConstraint.evalFunctionsSens, after_totalSensitivity. run.
    apply Z.ltb_lt in HnDV. rewrite HnDV. run.
    unfold coordsD in Hloop. rewrite length_map in Hloop. rewrite Hloop. run.
    destruct (dv_totalSensitivity _ _ _ _). by rewrite <- app_assoc.
  - intros j. destruct (Hcols (2 * nCon (TESlopeConstraint.base (self s))) j)
      as (conVal' & HconVal' & Hcol); [lia|].
    replace (2 * nCon (TESlopeConstraint.base (self s)))
      with (length coordsD - 1) in HconVal' by lia.
    rewrite compute_te_perturbed in HconVal'.
    + by simplify_eq.
    + intros p Hp. apply last_Some_elem_of in Hp. unfold coordsD in Hp.
      apply list_elem_of_fmap in Hp as (p0 & -> & Hp0). rewrite vget_vmap.
      cbn [astypeD re]. by apply Hnz.
Qed.

Section TrailingEdgeInstance.
Import Model.

Lemma TESlope_trailing_edge_columns_witness :
  ∃ J conVal,
    TESlopeConstraint.evalFunctionsSens ∅ tt
      (mkSys Examples.teslope Examples.teslope_world)
    = after_totalSensitivity (mkSys Examples.teslope Examples.teslope_world)
        (Seed3 J) "te" "te" tt ∅
    ∧ TESlopeConstraint._compute 2 [1; 1]%float
        (map (vmap astypeD) Examples.closeout) true
      = Some conVal
    ∧ ∀ j, column_is 4 j (map (λ z, im z / step_real)%float conVal) J.
Proof.
  apply (@TESlope_trailing_edge_columns Model.engine Model.geo_utils Model.numpy
           (mkSys Examples.teslope Examples.teslope_world) ∅ tt).
  - reflexivity.
  - reflexivity.
  - intros _. reflexivity.
  - intros p j Hp.
    repeat (apply elem_of_cons in Hp as [->|Hp];
            [destruct j; vm_compute; discriminate|]).
    by apply elem_of_nil in Hp.
Defined.
End TrailingEdgeInstance.

(** ** Tecplot output *)

Section Written.
Context `{DVGeoAPI} `{PyFormat}.

Lemma written_nil {O} (s : Sys O) : written s [] = (s, Some tt).
Proof. unfold written. rewrite app_nil_r. by destruct s as [o [g c f]]. Qed.

Lemma written_app {O} (s : Sys O) (l1 l2 : list string) :
  written (written s l1).1 l2 = written s (l1 ++ l2).
Proof. unfold written. cbn. by rewrite app_assoc. Qed.

Lemma write_written {O} (s : Sys O) (line : string) :
  write line s = written s [line].
Proof. done. Qed.

Lemma bind_written {O B} (m : M (Sys O) unit) (k : unit → M (Sys O) B)
    (s : Sys O) (lines : list string) :
  m s = written s lines → bind m k s = k tt (written s lines).1.
Proof. intros Hm. unfold bind. by rewrite Hm. Qed.

(** a loop whose turns each write some lines, or raise before writing *)
Lemma for_eachM_lines {O A} (o : O) (body : A → M (Sys O) unit)
    (lines : A → option (list string)) (l : list A) :
  (∀ a s, self s = o →
     body a s = match lines a with
                | Some ls => written s ls
                | None => (s, None)
                end) →
  ∀ s, self s = o →
    match mapM lines l with
    | Some lss => for_eachM body l s = written s (concat lss)
    | None => (for_eachM body l s).2 = None
    end.
Proof.
  intros Hbody. induction l as [|a l IH]; intros s Hs; cbn [mapM for_eachM].
  - cbn. by rewrite written_nil.
  - unfold bind. rewrite (Hbody a s Hs).
    destruct (lines a) as [ls|]; cbn [mbind option_bind]; [|done].
    specialize (IH (written s ls).1 Hs). unfold written at 1.
    unfold written at 1 3 in IH. cbn [fst] in IH.
    destruct (mapM lines l) as [lss|]; cbn [mbind option_bind mret option_ret];
      [|done].
    rewrite IH. unfold written. cbn [self world dvgeo calls file concat].
    by rewrite app_assoc.
Qed.

Lemma mapM_lookup_take {A B} (f : A → B) (c : list A) (n : nat) :
  n ≤ length c →
  mapM (λ i, p ← c !! i; Some (f p)) (seq 0 n) = Some (map f (take n c)).
Proof.
  intros Hn. apply mapM_Some. apply Forall2_same_length_lookup_2.
  - rewrite length_seq, length_map, length_take. lia.
  - intros i k y Hk Hy. apply lookup_seq in Hk as [-> Hi]. cbn.
    rewrite list_lookup_fmap, lookup_take_lt in Hy by done.
    destruct (c !! i) as [p|]; cbn in *; by simplify_eq.
Qed.

Lemma concat_singletons {A B} (f : A → B) (l : list A) :
  concat (map (λ x, [f x]) l) = map f l.
Proof. induction l as [|x l IH]; cbn; by rewrite ?IH. Qed.

(** the loop over the points *)
Lemma write_points_run {O} (get : O → list (vec3 float)) (n : nat) (s : Sys O) :
  n ≤ length (get (self s)) →
  write_points get n s = written s (map point_line (take n (get (self s)))).
Proof.
  intros Hn. unfold write_points.
  pose proof (for_eachM_lines (self s)
                (λ i, let! c := get_self get in
                      let! p := lift_opt (c !! i) in
                      write (point_line p))
                (λ i, p ← get (self s) !! i; Some [point_line p])
                (seq 0 n)) as Hloop.
  rewrite (mapM_lookup_take (λ p, [point_line p])) in Hloop by done.
  rewrite Hloop; [|intros a s' Hs'|done].
  - by rewrite concat_singletons.
  - run. rewrite Hs'.
    destruct (get (self s) !! a); cbn; [unfold written; by rewrite Hs'|done].
Qed.

(** the loop over the segments *)
Lemma write_conn_run {O} (n : nat) (s : Sys O) :
  write_conn n s = written s (map conn_line (seq 0 n)).
Proof.
  unfold write_conn.
  pose proof (for_eachM_lines (self s) (λ i, write (O:=O) (conn_line i))
                (λ i, Some [conn_line i]) (seq 0 n)) as Hloop.
  assert (Hm : mapM (λ i, Some [conn_line i]) (seq 0 n)
               = Some (map (λ i, [conn_line i]) (seq 0 n))).
  { apply mapM_Some. apply Forall2_fmap_r, Forall_Forall2_diag, Forall_forall.
    by intros. }
  rewrite Hm in Hloop. rewrite Hloop; [|done..].
  by rewrite concat_singletons.
Qed.
End Written.

(** X19.  [writeTecplot] of ThicknessConstraint, ThicknessToChordConstraint
    and TESlopeConstraint never raises and appends to the file exactly one
    zone: the zone line with the name, the line declaring [len(coords)] nodes
    and [len(coords) // 2] elements, the packing line, one line for each
    point and the segments ["1 2"], ["3 4"], ...; a TESlopeConstraint leaves
    out its last point (the trailing edge) and counts [len(coords) - 1]
    nodes.  The object, the engine and the call log are untouched. *)
Theorem writeTecplot_output `{DVGeoAPI} `{GeoUtils} `{Numpy} `{PyFormat} :
  (∀ s : Sys ThicknessConstraint.t,
     let o := self s in
     let n := length (ThicknessConstraint.coords o) in
     ThicknessConstraint.writeTecplot s
     = written s (zone_text (name (ThicknessConstraint.base o))
                    (Z.of_nat n) (Z.of_nat (n / 2))
                    (ThicknessConstraint.coords o) (n / 2)))
  ∧ (∀ s : Sys ThicknessToChordConstraint.t,
     let o := self s in
     let n := length (ThicknessToChordConstraint.coords o) in
     ThicknessToChordConstraint.writeTecplot s
     = written s (zone_text (name (ThicknessToChordConstraint.base o))
                    (Z.of_nat n) (Z.of_nat (n / 2))
                    (ThicknessToChordConstraint.coords o) (n / 2)))
  ∧ (∀ s : Sys TESlopeConstraint.t,
     let o := self s in
     let n := length (TESlopeConstraint.coords o) in
     TESlopeConstraint.writeTecplot s
     = written s (zone_text (name (TESlopeConstraint.base o))
                    (Z.of_nat n - 1) ((Z.of_nat n - 1) `div` 2)
                    (take (n - 1) (TESlopeConstraint.coords o)) ((n - 1) / 2))).
Proof.
  repeat apply conj; intros s; cbv zeta.
  - unfold ThicknessConstraint.writeTecplot. run.
    rewrite write_points_run by done. unfold written at 1. cbn [fst snd].
    rewrite write_conn_run. unfold written, zone_text.
    cbn [self world dvgeo calls file]. rewrite firstn_all.
    by rewrite <- !app_assoc.
  - unfold ThicknessToChordConstraint.writeTecplot. run.
    rewrite write_points_run by done. unfold written at 1. cbn [fst snd].
    rewrite write_conn_run. unfold written, zone_text.
    cbn [self world dvgeo calls file]. rewrite firstn_all.
    by rewrite <- !app_assoc.
  - unfold TESlopeConstraint.writeTecplot. run.
    set (n := length (TESlopeConstraint.coords (self s))).
    assert (Hn : Z.to_nat (Z.of_nat n - 1) = n - 1) by lia.
    assert (Hd : Z.to_nat ((Z.of_nat n - 1) `div` 2) = (n - 1) / 2).
    { destruct (decide (n = 0)) as [->|Hne]; [done|].
      replace (Z.of_nat n - 1)%Z with (Z.of_nat (n - 1)) by lia.
      change 2%Z with (Z.of_nat 2). by rewrite <- Nat2Z.inj_div, Nat2Z.id. }
    rewrite Hn, Hd.
    rewrite write_points_run by (cbn [self]; fold n; lia).
    unfold written at 1. cbn [fst snd].
    rewrite write_conn_run. unfold written, zone_text.
    cbn [self world dvgeo calls file].
    by rewrite <- !app_assoc.
Qed.

(** X20.  [writeTecplot] of a KSMaxThicknessToChordConstraint writes one zone
    that declares [len(coords) + 2] nodes and [len(coords) // 2 + 1]
    elements: the toothpick points, then the leading and the trailing edge
    point, then the toothpick segments and the segment of the chord between
    the nodes [len(coords) + 1] and [len(coords) + 2].  When [leTePts] has
    fewer than two rows it raises [IndexError] after the header and the
    points that exist were written. *)
Theorem KSMax_writeTecplot_output `{DVGeoAPI} `{GeoUtils} `{Numpy} `{PyFormat}
    (s : Sys KSMaxThicknessToChordConstraint.t) :
  let o := self s in
  let n := length (KSMaxThicknessToChordConstraint.coords o) in
  let nm := name (KSMaxThicknessToChordConstraint.base o) in
  let head := [zone_line nm;
               nodes_line (Z.of_nat (n + 2)) (Z.of_nat (n / 2 + 1));
               datapacking_line]
              ++ map point_line (KSMaxThicknessToChordConstraint.coords o) in
  KSMaxThicknessToChordConstraint.writeTecplot s
  = match KSMaxThicknessToChordConstraint.leTePts o with
    | [] => ((written s head).1, None)
    | [le] => ((written s (head ++ [point_line le])).1, None)
    | le :: te :: _ =>
        written s
          (zone_text nm (Z.of_nat (n + 2)) (Z.of_nat (n / 2 + 1))
             (KSMaxThicknessToChordConstraint.coords o ++ [le; te]) (n / 2)
           ++ [pretty (n + 1) +:+ " " +:+ pretty (n + 2) +:+ nl])
    end.
Proof.
  cbv zeta. unfold KSMaxThicknessToChordConstraint.writeTecplot. run.
  rewrite write_points_run by done. unfold written at 1. cbn [fst snd].
  rewrite firstn_all. cbn [self world dvgeo calls file].
  destruct (KSMaxThicknessToChordConstraint.leTePts (self s)) as [|le [|te rest]];
    cbn [lookup list_lookup].
  - unfold written. cbn [fst]. by rewrite <- !app_assoc.
  - unfold written. cbn [fst self world dvgeo calls file].
    by rewrite <- !app_assoc.
  - rewrite write_conn_run. unfold written, zone_text.
    cbn [fst snd self world dvgeo calls file].
    rewrite map_app. cbn [map]. by rewrite <- !app_assoc.
Qed.

Section ProjectedTecplot.
Context `{DVGeoAPI} `{GeoUtils} `{PyFormat}.
Import ProjectedThicknessConstraint.

Lemma write_direction_lines (o : t) (i : nat) (s : Sys t) :
  self s = o →
  write_direction i s
  = match direction_lines (coords o) (dir_vec o) i with
    | Some ls => written s ls
    | None => (s, None)
    end.
Proof.
  intros <-. unfold write_direction, direction_lines. run.
  destruct (coords (self s) !! (i * 2 + 1)) as [pt1|]; [|done].
  cbn [mbind option_bind].
  destruct (dir_vec (self s) !! i) as [n|]; [|done].
  cbn [mbind option_bind]. unfold written. by rewrite <- app_assoc.
Qed.

Lemma direction_lines_is_Some (c dv : list (vec3 float)) i :
  is_Some (direction_lines c dv i) ↔ 2 * i + 1 < length c ∧ i < length dv.
Proof.
  unfold direction_lines. split.
  - intros [ls Hls]. destruct (c !! (i * 2 + 1)) as [p|] eqn:Hp; [|done].
    destruct (dv !! i) as [n|] eqn:Hn; [|done].
    apply lookup_lt_Some in Hp, Hn. lia.
  - intros [Hc Hdv].
    destruct (lookup_lt_is_Some_2 c (i * 2 + 1)) as [p ->]; [lia|].
    destruct (lookup_lt_is_Some_2 dv i) as [n ->]; [lia|]. by eexists.
Qed.
End ProjectedTecplot.

(** X21.  [writeTecplot] of a ProjectedThicknessConstraint writes the zone of
    the toothpicks and then a zone [<name>_ref_directions] declaring
    [2 len(dir_vec)] nodes and [len(dir_vec)] elements, with, for each of the
    [nCon] constraints, the second end of the toothpick and that point moved
    by the reference direction, followed by [nCon] segments.  It returns
    exactly when the object holds [2 nCon] points and [nCon] directions;
    otherwise it raises [IndexError]. *)
Theorem Projected_writeTecplot_output `{DVGeoAPI} `{GeoUtils} `{PyFormat}
    (s : Sys ProjectedThicknessConstraint.t) :
  let o := self s in
  let coords := ProjectedThicknessConstraint.coords o in
  let dir_vec := ProjectedThicknessConstraint.dir_vec o in
  let n := length coords in
  let k := nCon (ProjectedThicknessConstraint.base o) in
  let nm := name (ProjectedThicknessConstraint.base o) in
  (is_Some (ProjectedThicknessConstraint.writeTecplot s).2
   ↔ 2 * k ≤ n ∧ k ≤ length dir_vec)
  ∧ match mapM (direction_lines coords dir_vec) (seq 0 k) with
    | Some lss =>
        ProjectedThicknessConstraint.writeTecplot s
        = written s
            (zone_text nm (Z.of_nat n) (Z.of_nat (n / 2)) coords (n / 2)
             ++ [zone_line (nm +:+ "_ref_directions");
                 nodes_line (Z.of_nat (length dir_vec * 2))
                   (Z.of_nat (length dir_vec));
                 datapacking_line]
             ++ concat lss ++ map conn_line (seq 0 k))
    | None => (ProjectedThicknessConstraint.writeTecplot s).2 = None
    end.
Proof.
  cbv zeta.
  assert (Hrun :
    match mapM (direction_lines (ProjectedThicknessConstraint.coords (self s))
                  (ProjectedThicknessConstraint.dir_vec (self s)))
            (seq 0 (nCon (ProjectedThicknessConstraint.base (self s)))) with
    | Some lss =>
        ProjectedThicknessConstraint.writeTecplot s
        = written s
            (zone_text (name (ProjectedThicknessConstraint.base (self s)))
               (Z.of_nat (length (ProjectedThicknessConstraint.coords (self s))))
               (Z.of_nat
                  (length (ProjectedThicknessConstraint.coords (self s)) / 2))
               (ProjectedThicknessConstraint.coords (self s))
               (length (ProjectedThicknessConstraint.coords (self s)) / 2)
             ++ [zone_line (name (ProjectedThicknessConstraint.base (self s))
                            +:+ "_ref_directions");
                 nodes_line
                   (Z.of_nat
                      (length (ProjectedThicknessConstraint.dir_vec (self s)) * 2))
                   (Z.of_nat
                      (length (ProjectedThicknessConstraint.dir_vec (self s))));
                 datapacking_line]
             ++ concat lss
             ++ map conn_line
                  (seq 0 (nCon (ProjectedThicknessConstraint.base (self s)))))
    | None => (ProjectedThicknessConstraint.writeTecplot s).2 = None
    end).
  { destruct (mapM _ _) as [lss|] eqn:Hm;
      unfold ProjectedThicknessConstraint.writeTecplot; run;
      (rewrite write_points_run by done); unfold written at 1; cbn [fst snd];
      rewrite write_conn_run; unfold written at 1;
      cbn [fst snd self world dvgeo calls file]; rewrite firstn_all;
      set (s1 := mkSys (self s) _);
      pose proof (for_eachM_lines (self s)
                    ProjectedThicknessConstraint.write_direction
                    (direction_lines
                       (ProjectedThicknessConstraint.coords (self s))
                       (ProjectedThicknessConstraint.dir_vec (self s)))
                    (seq 0 (nCon (ProjectedThicknessConstraint.base (self s))))
                    (write_direction_lines (self s)) s1 eq_refl) as Hloop;
      rewrite Hm in Hloop.
    - rewrite Hloop. unfold written at 1. cbn [fst snd].
      rewrite write_conn_run. unfold written, zone_text, s1.
      cbn [self world dvgeo calls file]. by rewrite <- !app_assoc.
    - by destruct (for_eachM _ _ s1) as [s2 [[]|]]. }
  split; [|exact Hrun].
  assert (Hsome : is_Some (mapM (direction_lines
                                   (ProjectedThicknessConstraint.coords (self s))
                                   (ProjectedThicknessConstraint.dir_vec (self s)))
                             (seq 0 (nCon (ProjectedThicknessConstraint.base
                                             (self s)))))
                  ↔ 2 * nCon (ProjectedThicknessConstraint.base (self s))
                    ≤ length (ProjectedThicknessConstraint.coords (self s))
                    ∧ nCon (ProjectedThicknessConstraint.base (self s))
                      ≤ length (ProjectedThicknessConstraint.dir_vec (self s))).
  { rewrite mapM_seq_is_Some_iff.
    set (k := nCon (ProjectedThicknessConstraint.base (self s))). split.
    - intros Hall. destruct k as [|k]; [lia|]. specialize (Hall k).
      rewrite direction_lines_is_Some in Hall. lia.
    - intros [Hc Hdv] i Hi. apply direction_lines_is_Some. lia. }
  rewrite <- Hsome. destruct (mapM _ _) as [lss|].
  - rewrite Hrun. split; by eexists.
  - rewrite Hrun. split; by intros [? ?].
Qed.

(** ** TESlopeConstraint: what [_compute] computes *)

Lemma stride2_lookup {A} (l : list A) (i : nat) : stride2 l !! i = l !! (2 * i).
Proof.
  revert i. induction l as [l IH] using (induction_ltof1 _ length).
  unfold ltof in IH. intros i.
  destruct l as [|x [|y l]]; [by destruct i..|].
  destruct i as [|i]; [done|]. cbn [stride2].
  replace (2 * S i) with (S (S (2 * i))) by lia. cbn [lookup list_lookup].
  apply IH. cbn. lia.
Qed.

Lemma but_last_lookup {A} (l : list A) (i : nat) :
  i + 1 < length l → but_last l !! i = l !! i.
Proof. intros Hi. unfold but_last. apply lookup_take_lt. lia. Qed.

Lemma vmap_id {T} (p : vec3 T) : vmap id p = p.
Proof. by destruct p. Qed.

Lemma cumsum_from_snoc (acc : float) (l : list float) (x : float) :
  cumsum_from acc (l ++ [x])
  = cumsum_from acc l ++ [(default acc (last (cumsum_from acc l)) + x)%float].
Proof.
  revert acc. induction l as [|y l IH]; intros acc; [done|].
  cbn [app cumsum_from]. rewrite IH. cbn [app]. f_equal. f_equal. f_equal.
  f_equal. destruct (cumsum_from (acc + y) l) as [|z l'] eqn:E; [done|].
  rewrite last_cons_cons. destruct (last (z :: l')) eqn:E2; [done|].
  by apply last_None in E2.
Qed.

Lemma cumsum_snoc (l : list float) (x : float) :
  cumsum (l ++ [x])
  = cumsum l ++ [match last (cumsum l) with
                 | Some a => (a + x)%float
                 | None => x
                 end].
Proof.
  destruct l as [|y l]; [done|]. cbn [app cumsum]. rewrite cumsum_from_snoc.
  cbn [app]. f_equal. f_equal. f_equal.
  destruct (cumsum_from y l) as [|z l'] eqn:E; [done|].
  rewrite last_cons_cons. destruct (last (z :: l')) eqn:E2; [done|].
  by apply last_None in E2.
Qed.

(** [np.flip(np.cumsum(np.flip(chords)))] *)
Lemma flip_cumsum_flip (chords : list float) :
  reverse (cumsum (reverse chords)) = arc_from_te chords.
Proof.
  induction chords as [|ch rest IH]; [done|].
  rewrite reverse_cons, cumsum_snoc, reverse_app. cbn [reverse app arc_from_te].
  change (rev_append [?x] []) with [x]. cbn [app].
  rewrite <- IH.
  destruct (cumsum (reverse rest)) as [|z l] using rev_ind; [done|].
  rewrite last_snoc, reverse_snoc. done.
Qed.

Lemma arc_from_te_length (chords : list float) :
  length (arc_from_te chords) = length chords.
Proof.
  induction chords as [|ch rest IH]; [done|]. cbn [arc_from_te].
  destruct (arc_from_te rest); cbn in *; lia.
Qed.

Lemma arc_from_te_lookup (chords : list float) (i : nat) (ch : float) :
  chords !! i = Some ch →
  arc_from_te chords !! i
  = Some (match arc_from_te chords !! (i + 1) with
          | Some a => (a + ch)%float
          | None => ch
          end).
Proof.
  revert i. induction chords as [|c rest IH]; intros i Hi; [done|].
  destruct i as [|i].
  - cbn in Hi. simplify_eq. cbn [arc_from_te].
    destruct (arc_from_te rest) as [|a arc]; done.
  - cbn in Hi. specialize (IH i Hi). cbn [arc_from_te].
    destruct (arc_from_te rest) as [|a arc] eqn:E; cbn [lookup list_lookup];
      exact IH.
Qed.

Section TESlopeValues.
Context `{DVGeoAPI} `{GeoUtils} `{Numpy}.
Import TESlopeConstraint.

(** [_compute] on float64 coordinates, array by array *)
Lemma compute_float_run (n : nat) (ts0 : list float) (coords : list (vec3 float))
    (sc : bool) :
  length coords = 2 * n + 1 →
  ∃ t mids chords,
    mapM (te_thickness coords) (seq 0 n) = Some t
    ∧ mapM (te_midpoint coords) (seq 0 n) = Some mids
    ∧ mapM (te_chord coords n) (seq 0 n) = Some chords
    ∧ _compute n ts0 coords sc
      = (let teSlope := zip_with PrimFloat.div t (arc_from_te chords) in
         if sc
         then s0 ← broadcast_to (length teSlope) ts0;
              Some (zip_with PrimFloat.div teSlope s0)
         else Some teSlope).
Proof.
  intros Hlen.
  assert (Hpts : ∀ i, i < n → ∃ p q, coords !! (2 * i) = Some p
                                    ∧ coords !! (2 * i + 1) = Some q).
  { intros i Hi.
    destruct (lookup_lt_is_Some_2 coords (2 * i)) as [p Hp]; [lia|].
    destruct (lookup_lt_is_Some_2 coords (2 * i + 1)) as [q Hq]; [lia|].
    by eauto. }
  destruct (lookup_lt_is_Some_2 coords (2 * n)) as [te Hte]; [lia|].
  destruct (mapM_seq_is_Some (te_thickness coords) n) as [t Ht].
  { intros i Hi. destruct (Hpts i Hi) as (p & q & Hp & Hq).
    unfold te_thickness. rewrite Hp, Hq. by eexists. }
  destruct (mapM_seq_is_Some (te_midpoint coords) n) as [mids Hmids].
  { intros i Hi. destruct (Hpts i Hi) as (p & q & Hp & Hq).
    unfold te_midpoint. rewrite Hp, Hq. by eexists. }
  destruct (mapM_seq_is_Some (te_chord coords n) n) as [chords Hchords].
  { intros i Hi. unfold te_chord, te_station.
    destruct (Hpts i Hi) as (p & q & Hp & Hq).
    destruct (decide (i < n)) as [_|]; [|lia].
    unfold te_midpoint. rewrite Hp, Hq. obind.
    destruct (decide (i + 1 < n)) as [Hi'|Hi'].
    - destruct (Hpts (i + 1) Hi') as (p' & q' & Hp' & Hq').
      rewrite Hp', Hq'. by eexists.
    - rewrite Hte. by eexists. }
  exists t, mids, chords. do 3 (split; [done|]).
  destruct (mapM_seq_lookup _ _ _ Ht) as [Hlent Hti].
  destruct (mapM_seq_lookup _ _ _ Hmids) as [Hlenm Hmi].
  destruct (mapM_seq_lookup _ _ _ Hchords) as [Hlenc Hci].
  unfold _compute.
  assert (Htop : length (stride2 (but_last coords)) = n).
  { rewrite stride2_length, but_last_length, Hlen.
    replace (2 * n + 1 - 1 + 1) with (1 + n * 2) by lia.
    rewrite Nat.div_add by lia. done. }
  assert (Hbot : length (stride2 (tail (but_last coords))) = n).
  { rewrite stride2_length, tail_length, but_last_length, Hlen.
    destruct n as [|n']; [done|].
    replace (2 * S n' + 1 - 1 - 1 + 1) with (0 + S n' * 2) by lia.
    rewrite Nat.div_add by lia. done. }
  rewrite broadcast2_same by lia. obind.
  set (dVec := zip_with (vzip t_sub) _ _).
  assert (HdVec : ∀ i, i < n → ∃ p q, coords !! (2 * i) = Some p
                     ∧ coords !! (2 * i + 1) = Some q
                     ∧ dVec !! i = Some (vsub p q)).
  { intros i Hi. destruct (Hpts i Hi) as (p & q & Hp & Hq). exists p, q.
    do 2 (split; [done|]). unfold dVec. apply lookup_zip_with_Some.
    exists p, q. split; [done|].
    rewrite !stride2_lookup, lookup_tail, !but_last_lookup by lia.
    split; [done|]. by replace (S (2 * i)) with (2 * i + 1) by lia. }
  assert (Ht' : map row_norm dVec = t).
  { apply (list_eq_same_length _ _ n).
    - done.
    - unfold dVec. rewrite length_map, length_zip_with. lia.
    - intros i x y Hi Hx Hy. rewrite list_lookup_fmap in Hx.
      destruct (HdVec i Hi) as (p & q & Hp & Hq & Hd). rewrite Hd in Hx.
      destruct (Hti i Hi) as (v & Hv & Htv). unfold te_thickness in Hv.
      rewrite Hp, Hq in Hv. cbn in Hx, Hv. by simplify_eq. }
  rewrite Ht'.
  rewrite broadcast2_same
    by (unfold dVec; rewrite length_map, length_zip_with; lia).
  obind.
  set (mids0 := map (vmap t_to_float) _).
  assert (Hmids0 : mids0 = mids).
  { apply (list_eq_same_length _ _ n).
    - done.
    - unfold mids0, dVec.
      rewrite length_map, length_zip_with, length_map, length_zip_with. lia.
    - intros i x y Hi Hx Hy. unfold mids0 in Hx.
      rewrite list_lookup_fmap in Hx.
      destruct (HdVec i Hi) as (p & q & Hp & Hq & Hd).
      assert (Hz : zip_with (vzip t_add) (stride2 (tail (but_last coords)))
                     (map (vmap (λ x, t_div x (t_of_float ftwo))) dVec) !! i
                   = Some (vadd q (vdivs (vsub p q) ftwo))).
      { apply lookup_zip_with_Some. exists q, (vdivs (vsub p q) ftwo).
        split; [done|]. split.
        - rewrite stride2_lookup, lookup_tail, but_last_lookup by lia.
          by replace (S (2 * i)) with (2 * i + 1) by lia.
        - by rewrite list_lookup_fmap, Hd. }
      rewrite Hz in Hx. cbn in Hx.
      destruct (Hmi i Hi) as (v & Hv & Hmv). unfold te_midpoint in Hv.
      rewrite Hp, Hq in Hv. cbn in Hv.
      change (vmap t_to_float) with (vmap (@id float)) in Hx.
      rewrite vmap_id in Hx. by simplify_eq. }
  rewrite Hmids0. rewrite broadcast_to_same by done. obind.
  assert (Hlast : last coords = Some te).
  { rewrite last_lookup, Hlen.
    by replace (pred (2 * n + 1)) with (2 * n) by lia. }
  rewrite Hlast. obind.
  assert (HxMid : set_item (length (mids ++ drop n (zeros2 (n + 1))) - 1)
                    (vmap t_to_float te) (mids ++ drop n (zeros2 (n + 1)))
                  = Some (mids ++ [te])).
  { unfold zeros2. rewrite drop_replicate.
    replace (n + 1 - n) with 1 by lia. cbn [replicate].
    rewrite length_app, Hlenm. cbn [length].
    replace (n + 1 - 1) with n by lia.
    rewrite set_item_lt by (rewrite length_app, Hlenm; cbn; lia).
    f_equal. rewrite insert_app_r_alt by lia.
    replace (n - length mids) with 0 by lia. cbn [insert list_insert].
    change (vmap t_to_float) with (vmap (@id float)). by rewrite vmap_id. }
  rewrite HxMid. obind.
  assert (Hch : map row_norm (zip_with vsub (but_last (mids ++ [te]))
                                (tail (mids ++ [te])))
                = chords).
  { assert (Hbl : but_last (mids ++ [te]) = mids).
    { unfold but_last. rewrite length_app. cbn [length].
      replace (length mids + 1 - 1) with (length mids) by lia.
      by rewrite take_app_length. }
    rewrite Hbl. apply (list_eq_same_length _ _ n).
    - done.
    - rewrite length_map, length_zip_with, tail_length, length_app. cbn. lia.
    - intros i x y Hi Hx Hy. rewrite list_lookup_fmap in Hx.
      assert (Hst : ∀ k, k ≤ n → te_station coords n k = (mids ++ [te]) !! k).
      { intros k Hk. unfold te_station.
        destruct (decide (k < n)) as [Hk'|Hk'].
        - destruct (Hmi k Hk') as (b & -> & Hmb). by rewrite lookup_app_l by lia.
        - rewrite lookup_app_r by lia.
          replace (k - length mids) with 0 by lia.
          by replace k with n by lia. }
      destruct (Hci i Hi) as (ch & Hch & Hcv). unfold te_chord in Hch.
      rewrite !Hst in Hch by lia.
      rewrite lookup_zip_with, lookup_tail in Hx.
      rewrite <- (lookup_app_l mids [te]) in Hx by lia.
      replace (S i) with (i + 1) in Hx by lia.
      destruct ((mids ++ [te]) !! i) as [a|]; [|done].
      destruct ((mids ++ [te]) !! (i + 1)) as [b|]; [|done].
      cbn in Hx, Hch. by simplify_eq. }
  rewrite Hch, flip_cumsum_flip.
  rewrite broadcast2_same by (by rewrite arc_from_te_length; lia). obind.
  done.
Qed.
End TESlopeValues.

(** X22.  On the float64 coordinates of [n] toothpicks followed by the
    trailing edge point, [_compute] returns [n] values: value [i] is the
    thickness of toothpick [i] (the norm of the vector between its ends)
    divided by the arc length from the trailing edge point to the midpoint of
    the toothpick, measured along the midpoints of the toothpicks in between,
    and divided by [teSlope0[i]] when [scaled].  The arc length of the last
    toothpick is its chord to the trailing edge point, and the arc length of
    toothpick [i] is that of toothpick [i + 1] plus the chord between the two
    midpoints. *)
Theorem TESlope_compute_values `{DVGeoAPI} `{GeoUtils} `{Numpy}
    (n : nat) (ts0 : list float) (coords : list (vec3 float)) (sc : bool) :
  length coords = 2 * n + 1 →
  (sc = true → length ts0 = n) →
  ∃ r arc,
    TESlopeConstraint._compute n ts0 coords sc = Some r
    ∧ length r = n ∧ length arc = n
    ∧ (∀ i, i < n →
         ∃ ch, te_chord coords n i = Some ch
             ∧ arc !! i = Some (match arc !! (i + 1) with
                                | Some a => (a + ch)%float
                                | None => ch
                                end))
    ∧ (∀ i, i < n →
         ∃ t c, te_thickness coords i = Some t
              ∧ arc !! i = Some c
              ∧ r !! i = scaled_by sc ts0 i (t / c)%float).
Proof.
  intros Hlen Hts0.
  destruct (compute_float_run n ts0 coords sc Hlen)
    as (t & mids & chords & Ht & Hmids & Hchords & Hrun).
  destruct (mapM_seq_lookup _ _ _ Ht) as [Hlent Hti].
  destruct (mapM_seq_lookup _ _ _ Hchords) as [Hlenc Hci].
  pose proof (arc_from_te_length chords) as Hlena.
  assert (Hslope : ∀ i, i < n →
            ∃ t0 c, te_thickness coords i = Some t0
                  ∧ arc_from_te chords !! i = Some c
                  ∧ zip_with PrimFloat.div t (arc_from_te chords) !! i
                    = Some (t0 / c)%float).
  { intros i Hi. destruct (Hti i Hi) as (t0 & Ht0 & Htv).
    destruct (lookup_lt_is_Some_2 (arc_from_te chords) i) as [c Hc]; [lia|].
    exists t0, c. do 2 (split; [done|]). apply lookup_zip_with_Some.
    by exists t0, c. }
  assert (Harc : ∀ i, i < n →
            ∃ ch, te_chord coords n i = Some ch
                ∧ arc_from_te chords !! i
                  = Some (match arc_from_te chords !! (i + 1) with
                          | Some a => (a + ch)%float
                          | None => ch
                          end)).
  { intros i Hi. destruct (Hci i Hi) as (ch & Hch & Hcv). exists ch.
    split; [done|]. by apply arc_from_te_lookup. }
  rewrite Hrun. cbv zeta. destruct sc.
  - rewrite broadcast_to_same by (rewrite length_zip_with, Hts0 by done; lia).
    obind. eexists _, (arc_from_te chords). split; [done|].
    split; [rewrite !length_zip_with, Hts0 by done; lia|].
    split; [lia|]. split; [done|].
    intros i Hi. destruct (Hslope i Hi) as (t0 & c & Ht0 & Hc & Hz).
    exists t0, c. do 2 (split; [done|]). unfold scaled_by.
    destruct (lookup_lt_is_Some_2 ts0 i) as [s0 Hs0]; [rewrite Hts0 by done; lia|].
    rewrite Hs0. cbn. apply lookup_zip_with_Some. by exists (t0 / c)%float, s0.
  - eexists _, (arc_from_te chords). split; [done|].
    split; [rewrite length_zip_with; lia|].
    split; [lia|]. split; [done|].
    intros i Hi. destruct (Hslope i Hi) as (t0 & c & Ht0 & Hc & Hz).
    by exists t0, c.
Qed.

Section TESlopeValuesInstance.
Import Model.

Lemma TESlope_compute_values_witness :
  ∃ r arc,
    TESlopeConstraint._compute 2 [1; 1]%float Examples.closeout true = Some r
    ∧ length r = 2 ∧ length arc = 2
    ∧ (∀ i, i < 2 →
         ∃ ch, te_chord Examples.closeout 2 i = Some ch
             ∧ arc !! i = Some (match arc !! (i + 1) with
                                | Some a => (a + ch)%float
                                | None => ch
                                end))
    ∧ (∀ i, i < 2 →
         ∃ t c, te_thickness Examples.closeout i = Some t
              ∧ arc !! i = Some c
              ∧ r !! i = scaled_by true [1; 1]%float i (t / c)%float).
Proof.
  apply (@TESlope_compute_values Model.engine Model.geo_utils Model.numpy
           2 [1; 1]%float Examples.closeout true).
  - reflexivity.
  - intros _. reflexivity.
Defined.
End TESlopeValuesInstance.
